(** * ngmm_tools: data assembly and posterior decomposition of [RunStan]

    A shallow embedding of
    [Analyses/Python_lib/regression/pystan/regression_pystan_model2_corr_cells_unbounded_hyp.py].

    Conventions of the embedding.
    - A floating-point cell of a table is a [num]: a real number, or the
      missing value NaN ([None]).  Rounding is abstracted: arithmetic on
      present values is the arithmetic of the reals; NaN propagates through
      arithmetic, is skipped by the pandas reductions and compares false.
    - Identifier columns ([rsn], [eqid], [ssn], [cellid]) are integer typed.
    - A Python exception is the value [None] of the error monad.
    - The sampler is a black box: its fit object is an input of the
      post-processing. *)

From Stdlib Require Import String Ascii.
From Stdlib Require Import List ZArith Lia Bool Arith.
From Stdlib Require Import Sorting.Sorted Sorting.Permutation.
From Stdlib Require Import Reals Lra.
From Stdlib Require DecimalString Decimal DecimalNat DecimalZ.
Import ListNotations.

(** ** The error monad *)

Module Err.

Definition bind {A B : Type} (m : option A) (k : A -> option B) : option B :=
  match m with
  | Some a => k a
  | None => None
  end.

Definition guard (b : bool) : option unit :=
  if b then Some tt else None.

(** [mapM f l]: a list comprehension whose body may raise. *)
Fixpoint mapM {A B : Type} (f : A -> option B) (l : list A) : option (list B) :=
  match l with
  | [] => Some []
  | a :: t =>
      match f a with
      | Some b =>
          match mapM f t with
          | Some bs => Some (b :: bs)
          | None => None
          end
      | None => None
      end
  end.

End Err.

Notation "x <- m ;; k" := (Err.bind m (fun x => k))
  (at level 61, m at next level, right associativity).
Notation "'check' b ;; k" := (Err.bind (Err.guard b) (fun _ => k))
  (at level 61, b at next level, right associativity).

(** ** Index Builder: [np.unique(keys, axis=0, return_index=True, return_inverse=True)] *)

Module IndexBuilder.

Local Open Scope Z_scope.

(** Insertion of a key into an ascending duplicate-free list. *)
Fixpoint insert_key (x : Z) (l : list Z) : list Z :=
  match l with
  | [] => [x]
  | y :: t =>
      if x <? y then x :: l
      else if x =? y then l
      else y :: insert_key x t
  end.

(** The sorted unique values of [np.unique]. *)
Definition sorted_unique (keys : list Z) : list Z :=
  fold_right insert_key [] keys.

(** Position of the first occurrence of [x] in [l] ([length l] when absent). *)
Fixpoint index_of (x : Z) (l : list Z) : nat :=
  match l with
  | [] => O
  | y :: t => if x =? y then O else S (index_of x t)
  end.

Record unique_result := mkUnique {
  u_values : list Z;     (* sorted unique keys *)
  u_index : list nat;    (* first occurrence of each unique key *)
  u_inverse : list nat   (* for each record, the position of its key *)
}.

Definition np_unique (keys : list Z) : unique_result :=
  let u := sorted_unique keys in
  {| u_values := u;
     u_index := map (fun k => index_of k keys) u;
     u_inverse := map (fun k => index_of k u) keys |}.

(** Following the words of the spec ("a deduplicated list of group keys in
    order of first occurrence"): each key is kept where it first appears. *)
Fixpoint first_occurrence_keys_acc (seen keys : list Z) : list Z :=
  match keys with
  | [] => []
  | k :: t =>
      if existsb (Z.eqb k) seen then first_occurrence_keys_acc seen t
      else k :: first_occurrence_keys_acc (k :: seen) t
  end.

Definition first_occurrence_keys (keys : list Z) : list Z :=
  first_occurrence_keys_acc [] keys.

Definition first_occurrence_inverse (keys : list Z) : list nat :=
  map (fun k => index_of k (first_occurrence_keys keys)) keys.

End IndexBuilder.

(** ** Floating-point cells: reals with a missing value *)

Module Num.

Local Open Scope R_scope.

Definition num := option R.
Definition NaN : num := None.

Definition lift2 (f : R -> R -> R) (a b : num) : num :=
  match a, b with
  | Some x, Some y => Some (f x y)
  | _, _ => None
  end.

Definition add : num -> num -> num := lift2 Rplus.
Definition sub : num -> num -> num := lift2 Rminus.
Definition mul : num -> num -> num := lift2 Rmult.
Definition square (a : num) : num := mul a a.
Definition abs (a : num) : num := option_map Rabs a.

(** [np.sqrt]: NaN on a negative argument. *)
Definition sqrt (a : num) : num :=
  match a with
  | Some x => if Rlt_dec x 0 then None else Some (R_sqrt.sqrt x)
  | None => None
  end.

(** [x > 0]; a comparison with NaN is false. *)
Definition gt0 (a : num) : bool :=
  match a with
  | Some x => if Rlt_dec 0 x then true else false
  | None => false
  end.

(** pandas [sum] with the default [skipna=True]: NaN cells count as zero. *)
Definition nansum (l : list num) : num :=
  Some (fold_right (fun a acc => match a with Some x => x + acc | None => acc end) 0 l).

(** pandas [max] with [skipna=True]: NaN when no value is present. *)
Definition nanmax (l : list num) : num :=
  fold_right (fun a acc =>
                match a, acc with
                | Some x, Some y => Some (Rmax x y)
                | Some x, None => Some x
                | None, _ => acc
                end) None l.

(** Sum of a sequence of present reals. *)
Definition rsum (l : list R) : R := fold_right Rplus 0 l.

(** [Series.mean()] of a column of draws: NaN for an empty column. *)
Definition mean (l : list R) : num :=
  match l with
  | [] => None
  | _ => Some (rsum l / INR (length l))
  end.

Fixpoint insert_le (x : R) (l : list R) : list R :=
  match l with
  | [] => [x]
  | y :: t => if Rle_dec x y then x :: l else y :: insert_le x t
  end.

Definition sort (l : list R) : list R := fold_right insert_le [] l.

(** [Series.median()]: the middle value of the sorted draws, or the mean of
    the two middle values. *)
Definition median (l : list R) : num :=
  match l with
  | [] => None
  | _ =>
      let s := sort l in
      let n := length l in
      if Nat.even n
      then Some ((nth (n / 2 - 1) s 0 + nth (n / 2) s 0) / 2)
      else Some (nth (n / 2) s 0)
  end.

(** [Series.std()]: sample standard deviation ([ddof=1]); NaN below two draws. *)
Definition std (l : list R) : num :=
  match l with
  | [] | [_] => None
  | _ =>
      let m := rsum l / INR (length l) in
      Some (R_sqrt.sqrt (rsum (map (fun x => (x - m) * (x - m)) l) / INR (length l - 1)))
  end.

(** NaN-propagating dot product of a row with a vector of equal length. *)
Fixpoint dot (r v : list num) : num :=
  match r, v with
  | a :: r', b :: v' => add (mul a b) (dot r' v')
  | _, _ => Some 0
  end.

(** Broadcasting element-wise operation on one-dimensional arrays. *)
Definition np_binop (f : num -> num -> num) (a b : list num) : option (list num) :=
  if Nat.eqb (length a) (length b) then Some (map (fun p => f (fst p) (snd p)) (combine a b))
  else match a, b with
       | [x], _ => Some (map (fun y => f x y) b)
       | _, [y] => Some (map (fun x => f x y) a)
       | _, _ => None
       end.

Definition np_add := np_binop add.
Definition np_sub := np_binop sub.

End Num.

(** ** Tables: a typed fragment of [pd.DataFrame] *)

Module Frame.

Import Num.

Inductive column :=
| IntCol (v : list Z)               (* int64 *)
| FloatCol (v : list num)           (* float64 *)
| StrCol (v : list (option string)) (* object *).

Record DataFrame := mkDF {
  index_name : option string;
  index : list Z;
  columns : list (string * column)
}.

Definition col_length (c : column) : nat :=
  match c with
  | IntCol v => length v
  | FloatCol v => length v
  | StrCol v => length v
  end.

(** Every column has one cell per index label. *)
Definition wf_frame (df : DataFrame) : Prop :=
  Forall (fun c => col_length (snd c) = length (index df)) (columns df).

(** [df[name]] for a scalar [name]: the column of that name ([KeyError]
    when there is none; a repeated name does not denote a single column). *)
Definition find_col (df : DataFrame) (name : string) : option column :=
  match filter (fun c => String.eqb (fst c) name) (columns df) with
  | [c] => Some (snd c)
  | _ => None
  end.

Definition has_col (df : DataFrame) (name : string) : bool :=
  match find_col df name with Some _ => true | None => false end.

(** [.values] of a numeric column; int64 is upcast to float64. *)
Definition to_float (c : column) : option (list num) :=
  match c with
  | IntCol v => Some (map (fun z => Some (IZR z)) v)
  | FloatCol v => Some v
  | StrCol _ => None
  end.

Definition get_float (df : DataFrame) (name : string) : option (list num) :=
  c <- find_col df name ;; to_float c.

Definition get_int (df : DataFrame) (name : string) : option (list Z) :=
  c <- find_col df name ;;
  match c with IntCol v => Some v | _ => None end.

Definition get_str (df : DataFrame) (name : string) : option (list (option string)) :=
  c <- find_col df name ;;
  match c with StrCol v => Some v | _ => None end.

(** [df.set_index(name, drop=True, inplace=True)]: the column becomes the
    index and leaves the columns. *)
Definition set_index (df : DataFrame) (name : string) : option DataFrame :=
  match find_col df name with
  | Some (IntCol v) =>
      Some {| index_name := Some name;
              index := v;
              columns := filter (fun c => negb (String.eqb (fst c) name)) (columns df) |}
  | _ => None
  end.

Definition index_named (df : DataFrame) (name : string) : bool :=
  match index_name df with
  | Some n => String.eqb n name
  | None => false
  end.

(** Label-based selection with a list of keys ([df[names]], [.loc[labels]],
    [series[labels]] on an integer index): for each key, in the order of
    the keys, every entry carrying it; [KeyError] when a key has none. *)
Definition select_all {K A : Type} (eqb : K -> K -> bool)
    (table : list (K * A)) (keys : list K) : option (list (K * A)) :=
  ls <- Err.mapM (fun k =>
                    match filter (fun e => eqb (fst e) k) table with
                    | [] => None
                    | l => Some l
                    end) keys ;;
  Some (concat ls).

(** Position of the first row labelled [k]. *)
Fixpoint label_pos (idx : list Z) (k : Z) : option nat :=
  match idx with
  | [] => None
  | y :: t => if Z.eqb k y then Some O else option_map S (label_pos t k)
  end.

Fixpoint has_dup (l : list Z) : bool :=
  match l with
  | [] => false
  | x :: t => existsb (Z.eqb x) t || has_dup t
  end.

Definition list_Z_eqb (a b : list Z) : bool :=
  Nat.eqb (length a) (length b) && forallb (fun p => Z.eqb (fst p) (snd p)) (combine a b).

Definition all_present (src target : list Z) : bool :=
  forallb (fun k => match label_pos src k with Some _ => true | None => false end) target.

(** One column of [df.reindex(target)]: the cell of the row carrying each
    target label, a missing value where the label is absent (an int64
    column with a missing cell is upcast to float64). *)
Definition reindex_col (src target : list Z) (c : column) : column :=
  match c with
  | FloatCol v =>
      FloatCol (map (fun k => match label_pos src k with
                              | Some i => nth i v NaN
                              | None => NaN
                              end) target)
  | IntCol v =>
      if all_present src target
      then IntCol (map (fun k => match label_pos src k with
                                 | Some i => nth i v 0%Z
                                 | None => 0%Z
                                 end) target)
      else FloatCol (map (fun k => match label_pos src k with
                                   | Some i => match nth_error v i with
                                               | Some z => Some (IZR z)
                                               | None => NaN
                                               end
                                   | None => NaN
                                   end) target)
  | StrCol v =>
      StrCol (map (fun k => match label_pos src k with
                            | Some i => nth i v None
                            | None => None
                            end) target)
  end.

(** [df.reindex(other.index)]: a new table; [ValueError] when the labels of
    [df] repeat and the two indexes differ. *)
Definition reindex (df : DataFrame) (other : DataFrame) : option DataFrame :=
  let target := index other in
  if list_Z_eqb (index df) target
  then Some {| index_name := index_name other; index := target; columns := columns df |}
  else if has_dup (index df) && negb (Nat.eqb (length target) 0)
  then None
  else Some {| index_name := index_name other;
               index := target;
               columns := map (fun c => (fst c, reindex_col (index df) target (snd c)))
                              (columns df) |}.

(** Row [i] of a list of columns. *)
Definition row_at {A : Type} (d : A) (cols : list (list A)) (i : nat) : list A :=
  map (fun c => nth i c d) cols.

(** [.values] / [.to_numpy()] of [n] rows stored by columns. *)
Definition rows_of {A : Type} (d : A) (n : nat) (cols : list (list A)) : list (list A) :=
  map (row_at d cols) (seq 0 n).

End Frame.

(** ** Model Data Assembler: lines 86-155 of [RunStan] *)

Module Assembler.

Import Num Frame IndexBuilder.
Local Open Scope string_scope.

(** The caller's three table objects. *)
Record store := mkStore {
  df_flatfile : DataFrame;
  df_cellinfo : DataFrame;
  df_celldist : DataFrame
}.

(** [if not df.index.name == name: df.set_index(name, drop=True, inplace=True)] *)
Definition ensure_index (df : DataFrame) (name : string) : option DataFrame :=
  if index_named df name then Some df else set_index df name.

(** Lines 88-95.  The three statements update the caller's objects in
    place, in this order; an exception leaves the earlier updates done. *)
Definition preprocess (s : store) : store * option unit :=
  match ensure_index (df_flatfile s) "rsn" with
  | None => (s, None)
  | Some ff =>
      let s1 := mkStore ff (df_cellinfo s) (df_celldist s) in
      match ensure_index (df_celldist s) "rsn" with
      | None => (s1, None)
      | Some cd =>
          let s2 := mkStore ff (df_cellinfo s) cd in
          match ensure_index (df_cellinfo s) "cellid" with
          | None => (s2, None)
          | Some ci => (mkStore ff ci cd, Some tt)
          end
      end
  end.

(** [np.where(mask)[0]]: the ascending positions of the true entries. *)
Fixpoint np_where_from (i : nat) (mask : list bool) : list nat :=
  match mask with
  | [] => []
  | b :: t => if b then i :: np_where_from (S i) t else np_where_from (S i) t
  end.

Definition np_where (mask : list bool) : list nat := np_where_from 0 mask.

(** Positional indexing with an integer array ([IndexError] out of range). *)
Definition take {A : Type} (l : list A) (idx : list nat) : option (list A) :=
  Err.mapM (nth_error l) idx.

(** [df_celldist[cell_names_all]]: the named columns, as float columns. *)
Definition select_float_cols (df : DataFrame) (names : list (option string))
    : option (list (string * list num)) :=
  ns <- Err.mapM (fun n => n) names ;;
  cs <- select_all String.eqb (columns df) ns ;;
  Err.mapM (fun c => v <- to_float (snd c) ;; Some (fst c, v)) cs.

(** The payload handed to the sampler (the dict [stan_data]). *)
Record StanData := mkStanData {
  sd_N : nat;
  sd_NEQ : nat;
  sd_NSTAT : nat;
  sd_NCELL : nat;
  sd_eq : list nat;
  sd_stat : list nat;
  sd_X_e : list (list num);
  sd_X_s : list (list num);
  sd_X_c : list (list num);
  sd_rec_mu : list num;
  sd_RC : list (list num);
  sd_c_a_erg : R;
  sd_Y : list num
}.

(** The local variables of [RunStan] that the post-processing reads. *)
Record Assembled := mkAssembled {
  n_data : nat;
  eq_idx : list nat;
  eq_inv : list nat;
  n_eq : nat;
  sta_idx : list nat;
  sta_inv : list nat;
  n_sta : nat;
  y_data : list num;
  celldist_all : list (string * list num);
  i_cells_valid : list nat;
  cell_ids_valid : list Z;
  cell_names_valid : list (Z * option string);
  celldist_valid : list (string * list num);
  n_cell : nat;
  n_cell_valid : nat;
  X_cells_valid : list (list num);
  rrup_misfit : num;
  stan_data : StanData
}.

(** Lines 124-138: the Cell Network Filter. *)
Record CellFilter := mkCellFilter {
  cf_i_cells_valid : list nat;
  cf_cell_ids_valid : list Z;
  cf_cell_names_valid : list (Z * option string);
  cf_celldist_valid : list (string * list num);
  cf_X_cells_valid : list (list num)
}.

(** [celldist_all.sum(axis=0) > 0] for one column. *)
Definition positive_total (c : string * list num) : bool := gt0 (nansum (snd c)).

Definition cell_filter (df_cellinfo : DataFrame)
    (celldist_all : list (string * list num)) : option CellFilter :=
  let cell_ids_all := index df_cellinfo in
  cell_names_all <- get_str df_cellinfo "cellname" ;;
  let i_cells_valid := np_where (map positive_total celldist_all) in
  cell_ids_valid <- take cell_ids_all i_cells_valid ;;
  cell_names_valid <- select_all Z.eqb (combine cell_ids_all cell_names_all)
                                 (map Z.of_nat i_cells_valid) ;;
  names <- Err.mapM (fun e => snd e) cell_names_valid ;;
  celldist_valid <- select_all String.eqb celldist_all names ;;
  mptX <- get_float df_cellinfo "mptX" ;;
  mptY <- get_float df_cellinfo "mptY" ;;
  X_rows <- select_all Z.eqb
              (combine cell_ids_all (rows_of NaN (length cell_ids_all) [mptX; mptY]))
              (map Z.of_nat i_cells_valid) ;;
  Some (mkCellFilter i_cells_valid cell_ids_valid cell_names_valid celldist_valid
                     (map snd X_rows)).

(** Lines 97-155, on the tables as [preprocess] left them. *)
Definition assemble (s : store) (res_name : string) (c_a_erg : R) : option Assembled :=
  let ff := df_flatfile s in
  let n_data := length (index ff) in
  (* earthquake data *)
  eqid <- get_int ff "eqid" ;;
  mag <- get_float ff "mag" ;;
  eqX <- get_float ff "eqX" ;;
  eqY <- get_float ff "eqY" ;;
  let data_eq_all := rows_of NaN n_data [map (fun z => Some (IZR z)) eqid; mag; eqX; eqY] in
  let ue := np_unique eqid in
  let eq_idx := u_index ue in
  let eq_inv := u_inverse ue in
  data_eq <- take data_eq_all eq_idx ;;
  let X_eq := map (fun r => [nth 2 r NaN; nth 3 r NaN]) data_eq in
  let eq_id := map S eq_inv in
  let n_eq := length data_eq in
  (* station data *)
  ssn <- get_int ff "ssn" ;;
  Vs30 <- get_float ff "Vs30" ;;
  staX <- get_float ff "staX" ;;
  staY <- get_float ff "staY" ;;
  let data_sta_all := rows_of NaN n_data [map (fun z => Some (IZR z)) ssn; Vs30; staX; staY] in
  let us := np_unique ssn in
  let sta_idx := u_index us in
  let sta_inv := u_inverse us in
  data_sta <- take data_sta_all sta_idx ;;
  let X_sta := map (fun r => [nth 2 r NaN; nth 3 r NaN]) data_sta in
  let sta_id := map S sta_inv in
  let n_sta := length data_sta in
  (* ground-motion observations *)
  y_data <- get_float ff res_name ;;
  (* cell data: reorder and only keep records included in the flatfile *)
  cd <- reindex (df_celldist s) ff ;;
  cell_names_all <- get_str (df_cellinfo s) "cellname" ;;
  celldist_all <- select_float_cols cd cell_names_all ;;
  cf <- cell_filter (df_cellinfo s) celldist_all ;;
  let celldist_valid := cf_celldist_valid cf in
  let n_cell := length celldist_all in
  let n_cell_valid := length celldist_valid in
  (* Rrup misfit *)
  Rrup <- get_float ff "Rrup" ;;
  let row_sums := map (fun i => nansum (row_at NaN (map snd celldist_valid) i)) (seq 0 n_data) in
  diff <- np_sub Rrup row_sums ;;
  let misfit := nanmax (map abs diff) in
  let RC := rows_of NaN n_data (map snd celldist_valid) in
  Some (mkAssembled n_data eq_idx eq_inv n_eq sta_idx sta_inv n_sta y_data
          celldist_all (cf_i_cells_valid cf) (cf_cell_ids_valid cf)
          (cf_cell_names_valid cf) celldist_valid n_cell n_cell_valid
          (cf_X_cells_valid cf) misfit
          (mkStanData n_data n_eq n_sta n_cell_valid eq_id sta_id X_eq X_sta
             (cf_X_cells_valid cf) (repeat (Some 0%R) (length y_data)) RC c_a_erg y_data)).

End Assembler.

(** ** Posterior Extractor: lines 212-243 *)

Module Extractor.

Import Num Frame.
Local Open Scope string_scope.

(** A two-dimensional array of draws with its shape. *)
Record Mat := mkMat {
  nrows : nat;
  ncols : nat;
  mrows : list (list R)
}.

Definition wf_mat (m : Mat) : Prop :=
  length (mrows m) = nrows m /\ Forall (fun r => length r = ncols m) (mrows m).

Inductive ndarray :=
| Arr1 (v : list R)
| Arr2 (m : Mat).

Definition flatten (a : ndarray) : list R :=
  match a with
  | Arr1 v => v
  | Arr2 m => concat (mrows m)
  end.

Definition column_at (m : Mat) (j : nat) : list R :=
  map (fun r => nth j r 0%R) (mrows m).

Definition transpose (m : Mat) : Mat :=
  {| nrows := ncols m;
     ncols := nrows m;
     mrows := map (column_at m) (seq 0 (ncols m)) |}.

(** [a.T] *)
Definition T (a : ndarray) : ndarray :=
  match a with
  | Arr1 v => Arr1 v
  | Arr2 m => Arr2 (transpose m)
  end.

(** The fit object: [stan_fit[name]] ([KeyError] when absent). *)
Definition Fit := string -> option ndarray.

(** [np.stack(vs, axis=1)] of one-dimensional arrays. *)
Definition stack_axis1 (vs : list (list R)) : option Mat :=
  match vs with
  | [] => None
  | v :: t =>
      check (forallb (fun w => Nat.eqb (length w) (length v)) t) ;;
      Some {| nrows := length v;
              ncols := length vs;
              mrows := rows_of 0%R (length v) vs |}
  end.

(** [np.concatenate((a, b), axis=1)] *)
Definition concatenate_axis1 (a : Mat) (b : ndarray) : option Mat :=
  match b with
  | Arr1 _ => None
  | Arr2 m =>
      check (Nat.eqb (nrows a) (nrows m)) ;;
      Some {| nrows := nrows a;
              ncols := ncols a + ncols m;
              mrows := map (fun p => app (fst p) (snd p)) (combine (mrows a) (mrows m)) |}
  end.

Definition col_names_hyp : list string :=
  ["dc_0"; "ell_1e"; "ell_1as"; "omega_1e"; "omega_1as"; "omega_1bs";
   "mu_cap"; "ell_ca1p"; "omega_ca1p"; "omega_ca2p";
   "phi_0"; "tau_0"].

(** The group-level parameters in the order of concatenation. *)
Definition group_params : list string :=
  ["dc_1e"; "dc_1as"; "dc_1bs"; "c_cap"; "dB"].

(** ['%i' % k] *)
Definition fmt_nat (k : nat) : string := DecimalString.NilEmpty.string_of_uint (Nat.to_uint k).
Definition fmt_int (z : Z) : string := DecimalString.NilEmpty.string_of_int (Z.to_int z).

Definition col_names_dc_1e (n_eq : nat) := map (fun k => "dc_1e." ++ fmt_nat k) (seq 0 n_eq).
Definition col_names_dc_1as (n_sta : nat) := map (fun k => "dc_1as." ++ fmt_nat k) (seq 0 n_sta).
Definition col_names_dc_1bs (n_sta : nat) := map (fun k => "dc_1bs." ++ fmt_nat k) (seq 0 n_sta).
Definition col_names_dB (n_eq : nat) := map (fun k => "dB." ++ fmt_nat k) (seq 0 n_eq).
Definition col_names_cap (cell_ids_valid : list Z) :=
  map (fun c_id => "c_cap." ++ fmt_int c_id) cell_ids_valid.

Definition col_names_all (n_eq n_sta : nat) (cell_ids_valid : list Z) : list string :=
  (col_names_hyp ++ col_names_dc_1e n_eq ++ col_names_dc_1as n_sta
     ++ col_names_dc_1bs n_sta ++ col_names_cap cell_ids_valid ++ col_names_dB n_eq)%list.

(** How a per-group array of the fit is oriented before concatenation:
    as it is for pystan 2, transposed otherwise. *)
Definition orient (pystan_ver : Z) (a : ndarray) : ndarray :=
  if Z.eqb pystan_ver 2 then a else T a.

(** Lines 226-239. *)
Definition stan_posterior (pystan_ver : Z) (stan_fit : Fit) : option Mat :=
  hyp <- Err.mapM (fun c_n => a <- stan_fit c_n ;; Some (flatten a)) col_names_hyp ;;
  p <- stack_axis1 hyp ;;
  a <- stan_fit "dc_1e" ;;  p <- concatenate_axis1 p (orient pystan_ver a) ;;
  a <- stan_fit "dc_1as" ;; p <- concatenate_axis1 p (orient pystan_ver a) ;;
  a <- stan_fit "dc_1bs" ;; p <- concatenate_axis1 p (orient pystan_ver a) ;;
  a <- stan_fit "c_cap" ;;  p <- concatenate_axis1 p (orient pystan_ver a) ;;
  a <- stan_fit "dB" ;;     p <- concatenate_axis1 p (orient pystan_ver a) ;;
  Some p.

(** [pd.DataFrame(stan_posterior, columns = col_names_all)] *)
Record PostFrame := mkPostFrame {
  pf_names : list string;
  pf_mat : Mat
}.

Definition make_frame (m : Mat) (names : list string) : option PostFrame :=
  check (Nat.eqb (ncols m) (length names)) ;;
  Some (mkPostFrame names m).

(** Positions of the columns called [name]. *)
Definition name_positions (names : list string) (name : string) : list nat :=
  filter (fun j => String.eqb (nth j names "") name) (seq 0 (length names)).

(** [df.loc[:, name]] as one series of draws. *)
Definition loc_col (df : PostFrame) (name : string) : option (list R) :=
  match name_positions (pf_names df) name with
  | [j] => Some (column_at (pf_mat df) j)
  | _ => None
  end.

End Extractor.

(** ** Coefficient Synthesizer and Residual Decomposer: lines 263-374 *)

Module Synthesizer.

Import Num Frame Assembler Extractor.
Local Open Scope string_scope.

(** [df_stan_posterior_raw.loc[:, name].stat()] *)
Definition col_stat (stat : list R -> num) (df : PostFrame) (name : string) : option num :=
  c <- loc_col df name ;; Some (stat c).

(** [np.array([df.loc[:, f'{prefix}{k}'].stat() for k in range(n)])] *)
Definition group_stat (stat : list R -> num) (df : PostFrame) (prefix : string) (n : nat)
    : option (list num) :=
  Err.mapM (fun k => col_stat stat df (prefix ++ fmt_nat k)) (seq 0 n).

(** [np.array([df.loc[:, 'c_cap.%i' % k].stat() for k in cell_ids_valid])] *)
Definition cell_stat (stat : list R -> num) (df : PostFrame) (cell_ids_valid : list Z)
    : option (list num) :=
  Err.mapM (fun k => col_stat stat df ("c_cap." ++ fmt_int k)) cell_ids_valid.

(** [summary[inv]]: the group value of every record, in record order. *)
Definition broadcast (summary : list num) (inv : list nat) : option (list num) :=
  take summary inv.

(** [M @ v] for an [n x k] matrix with [k] columns and a vector. *)
Definition matvec (k : nat) (M : list (list num)) (v : list num) : option (list num) :=
  check (Nat.eqb k (length v)) ;;
  Some (map (fun r => dot r v) M).

(** [stat * np.ones(n_data)] *)
Definition times_ones (s : num) (n : nat) : list num :=
  map (fun one => mul s one) (repeat (Some 1%R) n).

(** [np.vstack(arrays)]: the arrays must have one length. *)
Definition vstack (arrays : list (list num)) : option (list (list num)) :=
  match arrays with
  | [] => None
  | a :: t =>
      check (forallb (fun b => Nat.eqb (length b) (length a)) t) ;;
      Some arrays
  end.

(** Lines 269-278: the cumulative attenuation of every record. *)
Record CellAttenuation := mkCellAttenuation {
  cells_ca_mu : list num;
  cells_ca_med : list num;
  cells_ca_sig : list num;
  cells_LcA_mu : list num;
  cells_LcA_med : list num;
  cells_LcA_sig : list num
}.

Definition attenuation (df : PostFrame) (cell_ids_valid : list Z)
    (n_cell_valid : nat) (celldist_valid_values : list (list num)) : option CellAttenuation :=
  ca_mu <- cell_stat mean df cell_ids_valid ;;
  ca_med <- cell_stat median df cell_ids_valid ;;
  ca_sig <- cell_stat std df cell_ids_valid ;;
  LcA_mu <- matvec n_cell_valid celldist_valid_values ca_mu ;;
  LcA_med <- matvec n_cell_valid celldist_valid_values ca_med ;;
  sq <- matvec n_cell_valid (map (map square) celldist_valid_values) (map square ca_sig) ;;
  Some (mkCellAttenuation ca_mu ca_med ca_sig LcA_mu LcA_med (map sqrt sq)).

(** One additive term of the model, per record. *)
Record Term := mkTerm {
  t_mu : list num;
  t_med : list num;
  t_sig : list num
}.

(** Lines 299-321: a per-group coefficient broadcast to the records. *)
Definition group_term (df : PostFrame) (prefix : string) (n : nat) (inv : list nat)
    : option Term :=
  mu <- group_stat mean df prefix n ;;
  mu <- broadcast mu inv ;;
  med <- group_stat median df prefix n ;;
  med <- broadcast med inv ;;
  sig <- group_stat std df prefix n ;;
  sig <- broadcast sig inv ;;
  Some (mkTerm mu med sig).

(** Lines 295-297. *)
Definition constant_term (df : PostFrame) (n_data : nat) : option Term :=
  mu <- col_stat mean df "dc_0" ;;
  med <- col_stat median df "dc_0" ;;
  sig <- col_stat std df "dc_0" ;;
  Some (mkTerm (times_ones mu n_data) (times_ones med n_data) (times_ones sig n_data)).

(** Lines 358-365: the Residual Decomposer. *)
Record Residuals := mkResiduals {
  y_mu : list num;
  res_tot : list num;
  res_between : list num;
  res_within : list num
}.

Definition decompose (df : PostFrame) (n_eq : nat) (eq_inv : list nat)
    (y_data coeff_0_mu coeff_1e_mu coeff_1as_mu coeff_1bs_mu cells_LcA_mu : list num)
    : option Residuals :=
  s <- np_add coeff_0_mu coeff_1e_mu ;;
  s <- np_add s coeff_1as_mu ;;
  s <- np_add s coeff_1bs_mu ;;
  y_mu <- np_add s cells_LcA_mu ;;
  res_tot <- np_sub y_data y_mu ;;
  res_between <- group_stat mean df "dB." n_eq ;;
  res_between <- take res_between eq_inv ;;
  res_within <- np_sub res_tot res_between ;;
  Some (mkResiduals y_mu res_tot res_between res_within).

Record Output := mkOutput {
  out_assembled : Assembled;
  out_posterior : PostFrame;
  out_catten : list (list num);
  out_attenuation : CellAttenuation;
  out_coeffs : list (list num);
  out_residuals : Residuals;
  out_predict : list (list num)
}.

Definition catten_columns : list string :=
  ["cellname"; "mptLat"; "mptLon"; "mptX"; "mptY"; "mptZ"; "UTMzone"].

Definition flatinfo_columns : list string :=
  ["eqid"; "ssn"; "eqLat"; "eqLon"; "staLat"; "staLon"; "eqX"; "eqY"; "staX"; "staY"; "UTMzone"].

(** Lines 208-374, given the fit.  The percentile tables of the
    hyper-parameters and the files written are left out. *)
Definition postprocess (s : store) (a : Assembled) (pystan_ver : Z) (stan_fit : Fit)
    : option Output :=
  post <- stan_posterior pystan_ver stan_fit ;;
  df <- make_frame post (col_names_all (n_eq a) (n_sta a) (cell_ids_valid a)) ;;
  let RC := sd_RC (stan_data a) in
  att <- attenuation df (cell_ids_valid a) (n_cell_valid a) RC ;;
  catten <- vstack [repeat (Some (sd_c_a_erg (stan_data a))) (n_cell_valid a);
                    cells_ca_mu att; cells_ca_med att; cells_ca_sig att] ;;
  check (Nat.eqb (n_cell_valid a) (length (i_cells_valid a))) ;;
  check (forallb (has_col (df_cellinfo s)) catten_columns) ;;
  c0 <- constant_term df (n_data a) ;;
  c1e <- group_term df "dc_1e." (n_eq a) (eq_inv a) ;;
  c1as <- group_term df "dc_1as." (n_sta a) (sta_inv a) ;;
  c1bs <- group_term df "dc_1bs." (n_sta a) (sta_inv a) ;;
  check (forallb (has_col (df_flatfile s)) flatinfo_columns) ;;
  coeffs <- vstack [t_mu c0; t_mu c1e; t_mu c1as; t_mu c1bs; cells_LcA_mu att;
                    t_med c0; t_med c1e; t_med c1as; t_med c1bs; cells_LcA_med att;
                    t_sig c0; t_sig c1e; t_sig c1as; t_sig c1bs; cells_LcA_sig att] ;;
  check (Nat.eqb (length (t_mu c0)) (n_data a)) ;;
  res <- decompose df (n_eq a) (eq_inv a) (y_data a)
           (t_mu c0) (t_mu c1e) (t_mu c1as) (t_mu c1bs) (cells_LcA_mu att) ;;
  predict <- vstack [y_mu res; res_tot res; res_between res; res_within res] ;;
  check (Nat.eqb (length (y_mu res)) (n_data a)) ;;
  Some (mkOutput a df catten att coeffs res predict).

(** [RunStan]: the sampler (or the fit unpickled when [runstan_flag] is
    false) is the function [sampler] of the payload. *)
Definition RunStan (s : store) (res_name : string) (c_a_erg : R) (pystan_ver : Z)
    (sampler : StanData -> option Fit) : store * option Output :=
  let (s', r) := preprocess s in
  (s', _ <- r ;;
       a <- assemble s' res_name c_a_erg ;;
       stan_fit <- sampler (stan_data a) ;;
       postprocess s' a pystan_ver stan_fit).

End Synthesizer.

(** ** Concrete tables *)

Module Examples.

Import Num Frame Assembler Extractor.
Local Open Scope string_scope.

Definition floats (l : list R) : column := FloatCol (map Some l).

Definition flat_columns : list (string * column) :=
  [("eqid", IntCol [10; 10]%Z); ("mag", floats [6; 6]%R);
   ("eqX", floats [0; 0]%R); ("eqY", floats [0; 0]%R);
   ("ssn", IntCol [7; 8]%Z); ("Vs30", floats [300; 400]%R);
   ("staX", floats [1; 2]%R); ("staY", floats [1; 2]%R);
   ("Rrup", floats [1; 2]%R); ("res", floats [1; 2]%R);
   ("eqLat", floats [0; 0]%R); ("eqLon", floats [0; 0]%R);
   ("staLat", floats [0; 0]%R); ("staLon", floats [0; 0]%R);
   ("UTMzone", StrCol [Some "11S"; Some "11S"])].

Definition cellinfo_columns : list (string * column) :=
  [("cellname", StrCol [Some "c.a"; Some "c.b"]);
   ("mptX", floats [5; 6]%R); ("mptY", floats [7; 8]%R);
   ("mptLat", floats [0; 0]%R); ("mptLon", floats [0; 0]%R);
   ("mptZ", floats [0; 0]%R); ("UTMzone", StrCol [Some "11S"; Some "11S"])].

(** Two records of one earthquake at two stations, indexed by [rsn]. *)
Definition flatfile : DataFrame := mkDF (Some "rsn") [1; 2]%Z flat_columns.

(** Two cells whose identifiers are their positions. *)
Definition cellinfo : DataFrame := mkDF (Some "cellid") [0; 1]%Z cellinfo_columns.

(** Cell [c.a] is crossed by both records, cell [c.b] by none. *)
Definition celldist : DataFrame :=
  mkDF (Some "rsn") [1; 2]%Z [("c.a", floats [1; 2]%R); ("c.b", floats [0; 0]%R)].

Definition tables : store := mkStore flatfile cellinfo celldist.

(** The distance table lacks the record [rsn = 2]. *)
Definition celldist_short : DataFrame :=
  mkDF (Some "rsn") [1]%Z [("c.a", floats [1]%R); ("c.b", floats [0]%R)].

Definition tables_short : store := mkStore flatfile cellinfo celldist_short.

(** The same two cells numbered from one, and distances in which only the
    second cell, [c.b], is crossed. *)
Definition cellinfo_one_based : DataFrame :=
  mkDF (Some "cellid") [1; 2]%Z cellinfo_columns.

Definition celldist_second : DataFrame :=
  mkDF (Some "rsn") [1; 2]%Z [("c.a", floats [0; 0]%R); ("c.b", floats [1; 2]%R)].

Definition tables_one_based : store :=
  mkStore flatfile cellinfo_one_based celldist_second.

(** The tables as read from file: default index, key columns not yet the index. *)
Definition flatfile_raw : DataFrame :=
  mkDF None [0; 1]%Z (("rsn", IntCol [1; 2]%Z) :: flat_columns).
Definition cellinfo_raw : DataFrame :=
  mkDF None [0; 1]%Z (("cellid", IntCol [0; 1]%Z) :: cellinfo_columns).
Definition celldist_raw : DataFrame :=
  mkDF None [0; 1]%Z
    [("rsn", IntCol [1; 2]%Z); ("c.a", floats [1; 2]%R); ("c.b", floats [0; 0]%R)].

Definition tables_raw : store := mkStore flatfile_raw cellinfo_raw celldist_raw.

Definition one_draw (ncol : nat) (x : R) : ndarray :=
  Arr2 (mkMat 1 ncol [repeat x ncol]).

(** A pystan-2 fit with a single draw for [tables]: one earthquake, two
    stations, one valid cell. *)
Definition fit : Fit := fun name =>
  if String.eqb name "dc_1e" then Some (one_draw 1 1%R)
  else if String.eqb name "dc_1as" then Some (one_draw 2 2%R)
  else if String.eqb name "dc_1bs" then Some (one_draw 2 3%R)
  else if String.eqb name "c_cap" then Some (one_draw 1 4%R)
  else if String.eqb name "dB" then Some (one_draw 1 5%R)
  else if existsb (String.eqb name) col_names_hyp then Some (Arr1 [1%R])
  else None.

(** Two draws of the attenuation coefficients of two cells, and of the
    constant of one earthquake. *)
Definition draws_frame : PostFrame :=
  mkPostFrame ["c_cap.0"; "c_cap.1"; "dc_1e.0"]
              (mkMat 2 3 [[1%R; 2%R; 5%R]; [3%R; 4%R; 7%R]]).

(** The same draws with the columns in another order. *)
Definition draws_frame_reordered : PostFrame :=
  mkPostFrame ["dc_1e.0"; "c_cap.1"; "c_cap.0"]
              (mkMat 2 3 [[5%R; 2%R; 1%R]; [7%R; 4%R; 3%R]]).

(** The same draws as a pystan-3 fit: every array has the draws last. *)
Definition fit3 : Fit := fun name =>
  if String.eqb name "dc_1e" then Some (Arr2 (mkMat 1 1 [[1%R]]))
  else if String.eqb name "dc_1as" then Some (Arr2 (mkMat 2 1 [[2%R]; [2%R]]))
  else if String.eqb name "dc_1bs" then Some (Arr2 (mkMat 2 1 [[3%R]; [3%R]]))
  else if String.eqb name "c_cap" then Some (Arr2 (mkMat 1 1 [[4%R]]))
  else if String.eqb name "dB" then Some (Arr2 (mkMat 1 1 [[5%R]]))
  else if existsb (String.eqb name) col_names_hyp then Some (Arr2 (mkMat 1 1 [[1%R]]))
  else None.

End Examples.

(** ** Conditions on the cell tables *)

Module CellTables.

Import Num Frame Assembler.
Local Open Scope string_scope.




End CellTables.

(** ** The contents of a fit *)

Module Layout.

Import Num Frame Extractor.
Local Open Scope string_scope.

(** What a fit holds, told with draws as the leading axis: [hyp] lists the
    draws of the twelve hyper-parameters, and the five matrices hold one
    row per draw for [dc_1e], [dc_1as], [dc_1bs], [c_cap] and [dB].  A
    pystan-2 fit stores the matrices as they are, a pystan-3 fit stores
    their transposes. *)
Definition fit_layout (pystan_ver : Z) (stan_fit : Fit) (draws : nat)
    (hyp : list (list R)) (E A B C D : Mat) : Prop :=
  Err.mapM (fun c_n => a <- stan_fit c_n ;; Some (flatten a)) col_names_hyp = Some hyp /\
  Forall (fun v => length v = draws) hyp /\
  Forall (fun m => wf_mat m /\ nrows m = draws) [E; A; B; C; D] /\
  Forall2 (fun name m =>
             stan_fit name
             = Some (if Z.eqb pystan_ver 2 then Arr2 m else Arr2 (transpose m)))
          group_params [E; A; B; C; D].

(** Following the words of the spec: the hyper-parameters, then the
    per-earthquake constant, the two per-station constants, the per-cell
    attenuation and the per-earthquake random effect of one draw. *)
Definition pooled_row (hyp : list (list R)) (E A B C D : Mat) (r : nat) : list R :=
  (row_at 0%R hyp r ++ nth r (mrows E) [] ++ nth r (mrows A) []
     ++ nth r (mrows B) [] ++ nth r (mrows C) [] ++ nth r (mrows D) [])%list.

Definition pooled (draws : nat) (hyp : list (list R)) (E A B C D : Mat) : Mat :=
  mkMat draws (12 + ncols E + ncols A + ncols B + ncols C + ncols D)
        (map (pooled_row hyp E A B C D) (seq 0 draws)).

End Layout.

(** ** The attenuation of a record, in the words of the spec *)

Module Attenuation.

Import Num.

(** The sum of [term j] over the valid cells [j = 0 .. n_cell_valid - 1]. *)
Definition sum_over (n_cell_valid : nat) (term : nat -> num) : num :=
  fold_right (fun j acc => add (term j) acc) (Some 0%R) (seq 0 n_cell_valid).

(** The distance-weighted sum of the cell coefficients. *)
Definition weighted_sum (n_cell_valid : nat) (dist coef : list num) : num :=
  sum_over n_cell_valid (fun j => mul (nth j dist NaN) (nth j coef NaN)).

(** The root of the sum of distance squared times standard deviation squared. *)
Definition root_sum_squares (n_cell_valid : nat) (dist sig : list num) : num :=
  sqrt (sum_over n_cell_valid
          (fun j => mul (square (nth j dist NaN)) (square (nth j sig NaN)))).

End Attenuation.

(** ** The self-check of the decomposition, in the words of the spec *)

Module SelfCheck.

Import Num.

(** [a == b] on floats: a comparison with NaN is false. *)
Definition equal (a b : num) : bool :=
  match a, b with
  | Some x, Some y => if Req_dec_T x y then true else false
  | _, _ => false
  end.

(** [total == inter + intra] for one record. *)
Definition identity_holds (total inter intra : num) : bool :=
  equal total (add inter intra).

End SelfCheck.

(** ** More concrete tables *)

Module MoreExamples.

Import Num Frame Assembler Extractor Examples.
Local Open Scope string_scope.

(** A distance table read from file without its [rsn] column. *)
Definition celldist_nokey : DataFrame :=
  mkDF None [0; 1]%Z [("c.a", floats [1; 2]%R); ("c.b", floats [0; 0]%R)].

Definition tables_nokey : store := mkStore flatfile_raw cellinfo_raw celldist_nokey.

(** The distances of [celldist] with the two records in the other order. *)
Definition celldist_reversed : DataFrame :=
  mkDF (Some "rsn") [2; 1]%Z [("c.a", floats [2; 1]%R); ("c.b", floats [0; 0]%R)].

Definition tables_reversed : store := mkStore flatfile cellinfo celldist_reversed.

End MoreExamples.

(** ** The blocks of column names *)

Module Names.

Local Open Scope string_scope.

Fixpoint starts_with (p s : string) : bool :=
  match p with
  | "" => true
  | String a p' =>
      match s with
      | "" => false
      | String b s' => Ascii.eqb a b && starts_with p' s'
      end
  end.

(** The block of a column name, told by its prefix: 1 to 5 for the five
    per-group parameters, 0 otherwise. *)
Definition block_tag (name : string) : nat :=
  if starts_with "dc_1e." name then 1
  else if starts_with "dc_1as." name then 2
  else if starts_with "dc_1bs." name then 3
  else if starts_with "c_cap." name then 4
  else if starts_with "dB." name then 5
  else 0.

End Names.

(** * Properties *)

(** ** Inversion of the error monad *)

Lemma bind_Some {A B : Type} (m : option A) (k : A -> option B) (b : B) :
  Err.bind m k = Some b -> exists a, m = Some a /\ k a = Some b.
Proof.
  destruct m as [a|]; simpl; intros H; [exists a; auto | discriminate].
Qed.

Lemma guard_Some (b : bool) (u : unit) : Err.guard b = Some u -> b = true.
Proof. destruct b; simpl; [reflexivity | discriminate]. Qed.

Ltac inv_bind H :=
  repeat match type of H with
  | Err.bind (Err.guard _) _ = Some _ =>
      let u := fresh "u" in let Hg := fresh "Hg" in
      apply bind_Some in H; destruct H as (u & Hg & H); apply guard_Some in Hg
  | Err.bind _ _ = Some _ =>
      let x := fresh "x" in let Hx := fresh "Hx" in
      apply bind_Some in H; destruct H as (x & Hx & H)
  end.

Lemma mapM_length {A B : Type} (f : A -> option B) (l : list A) (r : list B) :
  Err.mapM f l = Some r -> length r = length l.
Proof.
  revert r; induction l as [|a t IH]; simpl; intros r H.
  - inversion H; reflexivity.
  - destruct (f a); [|discriminate].
    destruct (Err.mapM f t) as [bs|]; [|discriminate].
    inversion H; subst; simpl; f_equal; apply IH; reflexivity.
Qed.

Lemma mapM_nth_error {A B : Type} (f : A -> option B) (l : list A) (r : list B) :
  Err.mapM f l = Some r ->
  forall i a, nth_error l i = Some a ->
  exists b, f a = Some b /\ nth_error r i = Some b.
Proof.
  revert r; induction l as [|x t IH]; simpl; intros r H i a Hi.
  - destruct i; discriminate.
  - destruct (f x) as [b|] eqn:Hf; [|discriminate].
    destruct (Err.mapM f t) as [bs|]; [|discriminate].
    inversion H; subst; clear H.
    destruct i as [|i]; simpl in *.
    + inversion Hi; subst; exists b; auto.
    + apply (IH bs eq_refl i a Hi).
Qed.

Lemma mapM_total {A B : Type} (f : A -> option B) (l : list A) :
  (forall a, In a l -> exists b, f a = Some b) ->
  exists r, Err.mapM f l = Some r.
Proof.
  induction l as [|x t IH]; simpl; intros H.
  - eexists; reflexivity.
  - destruct (H x (or_introl eq_refl)) as (b & Hb); rewrite Hb.
    destruct IH as (r & Hr); [intros a Ha; apply H; right; exact Ha|].
    rewrite Hr; eexists; reflexivity.
Qed.



(** ** Index Builder *)

Section IndexBuilderFacts.

Import IndexBuilder.
Local Open Scope Z_scope.

Lemma insert_key_In (x y : Z) (l : list Z) :
  In y (insert_key x l) <-> y = x \/ In y l.
Proof.
  induction l as [|z t IH]; simpl.
  - intuition.
  - destruct (Z.ltb_spec x z); [simpl; intuition|].
    destruct (Z.eqb_spec x z); simpl.
    + subst; intuition.
    + rewrite IH; intuition.
Qed.

Lemma sorted_unique_In (y : Z) (keys : list Z) :
  In y (sorted_unique keys) <-> In y keys.
Proof.
  induction keys as [|k t IH]; simpl; [tauto|].
  rewrite insert_key_In, IH; intuition.
Qed.

Lemma insert_key_sorted (x : Z) (l : list Z) :
  StronglySorted Z.lt l -> StronglySorted Z.lt (insert_key x l).
Proof.
  induction 1 as [|z t Hs IH Hall]; simpl.
  - repeat constructor.
  - destruct (Z.ltb_spec x z).
    + constructor; [constructor; assumption|].
      constructor; [assumption|].
      eapply Forall_impl; [|exact Hall]; simpl; intros; lia.
    + destruct (Z.eqb_spec x z); [constructor; assumption|].
      constructor; [exact IH|].
      apply Forall_forall; intros y Hy.
      apply insert_key_In in Hy; destruct Hy as [->|Hy]; [lia|].
      rewrite Forall_forall in Hall; apply Hall; exact Hy.
Qed.

Lemma sorted_unique_sorted (keys : list Z) :
  StronglySorted Z.lt (sorted_unique keys).
Proof.
  induction keys as [|k t IH]; simpl; [constructor | apply insert_key_sorted, IH].
Qed.

Lemma strictly_sorted_NoDup (l : list Z) : StronglySorted Z.lt l -> NoDup l.
Proof.
  induction 1 as [|z t Hs IH Hall]; constructor; [|exact IH].
  intros Hin; rewrite Forall_forall in Hall; specialize (Hall z Hin); lia.
Qed.

Lemma index_of_nth_error (x : Z) (l : list Z) :
  In x l -> nth_error l (index_of x l) = Some x.
Proof.
  induction l as [|y t IH]; simpl; [tauto|].
  intros [->|Hin].
  - rewrite Z.eqb_refl; reflexivity.
  - destruct (Z.eqb_spec x y); [subst; reflexivity | simpl; apply IH, Hin].
Qed.

Lemma index_of_lt (x : Z) (l : list Z) :
  In x l -> (index_of x l < length l)%nat.
Proof.
  intros Hin; apply nth_error_Some; rewrite index_of_nth_error by exact Hin; discriminate.
Qed.

Lemma index_of_first (x : Z) (l : list Z) (j : nat) :
  (j < index_of x l)%nat -> nth_error l j <> Some x.
Proof.
  revert j; induction l as [|y t IH]; simpl; intros j Hj; [lia|].
  destruct (Z.eqb_spec x y); [lia|].
  destruct j as [|j]; simpl; [congruence | apply IH; lia].
Qed.

Lemma index_of_NoDup (l : list Z) (i : nat) (x : Z) :
  NoDup l -> nth_error l i = Some x -> index_of x l = i.
Proof.
  intros Hnd; revert i; induction Hnd as [|y t Hnin Hnd IH]; intros i Hi.
  - destruct i; discriminate.
  - simpl; destruct i as [|i]; simpl in Hi.
    + inversion Hi; subst; rewrite Z.eqb_refl; reflexivity.
    + destruct (Z.eqb_spec x y) as [->|Hne].
      * exfalso; apply Hnin; eapply nth_error_In; exact Hi.
      * f_equal; apply IH; exact Hi.
Qed.


Lemma np_unique_index_length (keys : list Z) :
  length (u_index (np_unique keys)) = length (u_values (np_unique keys)).
Proof. simpl; apply length_map. Qed.

Lemma np_unique_inverse_nth (keys : list Z) (i : nat) (k : Z) :
  nth_error keys i = Some k ->
  nth_error (u_inverse (np_unique keys)) i = Some (index_of k (sorted_unique keys)).
Proof. intros H; simpl; rewrite nth_error_map, H; reflexivity. Qed.

End IndexBuilderFacts.

Section IndexBuilderClaims.

Import IndexBuilder.



(** The claim of C3 fails: for the keys [5; 3] the unique keys are [3; 5]
    and the inverse index is [1; 0], not the order of first occurrence. *)
Lemma np_unique_not_first_occurrence :
  u_values (np_unique [5; 3]%Z) <> first_occurrence_keys [5; 3]%Z /\
  u_inverse (np_unique [5; 3]%Z) <> first_occurrence_inverse [5; 3]%Z.
Proof. split; vm_compute; discriminate. Qed.

Lemma first_occurrence_keys_acc_In (k : Z) (seen keys : list Z) :
  In k (first_occurrence_keys_acc seen keys) <-> In k keys /\ ~ In k seen.
Proof.
  revert seen; induction keys as [|x t IH]; simpl; intros seen; [tauto|].
  destruct (existsb (Z.eqb x) seen) eqn:He.
  - apply existsb_exists in He; destruct He as (y & Hy & Hxy).
    apply Z.eqb_eq in Hxy; subst y.
    rewrite IH; split; [tauto|].
    intros ([->|Hin] & Hn); tauto.
  - assert (Hx : ~ In x seen).
    { intros Hin. apply Bool.not_true_iff_false in He; apply He.
      apply existsb_exists; exists x; split; [exact Hin | apply Z.eqb_refl]. }
    simpl; rewrite IH; simpl.
    destruct (Z.eq_dec x k) as [->|Hne]; [tauto|].
    split; [intros [?|(? & ?)]; [congruence | tauto] | intros ([?|?] & ?); [congruence|]].
    right; split; [assumption|]. intros [?|?]; [congruence | tauto].
Qed.

(** C3, amended.  The deduplicated keys of the Index Builder are in
    strictly ascending order of the key; they are the keys that the order
    of first occurrence lists; and the row index returned for each group
    is the first record carrying its key. *)
Theorem np_unique_ascending_first_index (keys : list Z) :
  let r := np_unique keys in
  StronglySorted Z.lt (u_values r) /\
  (forall k, In k (u_values r) <-> In k (first_occurrence_keys keys)) /\
  length (u_index r) = length (u_values r) /\
  (forall g k, nth_error (u_values r) g = Some k ->
     exists p, nth_error (u_index r) g = Some p /\
               nth_error keys p = Some k /\
               forall q, q < p -> nth_error keys q <> Some k).
Proof.
  intros r; split; [apply sorted_unique_sorted|].
  split.
  - intros k; unfold first_occurrence_keys.
    rewrite first_occurrence_keys_acc_In; simpl.
    rewrite sorted_unique_In; tauto.
  - split; [apply np_unique_index_length|].
    intros g k Hk; exists (index_of k keys).
    assert (Hin : In k keys) by (apply sorted_unique_In; eapply nth_error_In; exact Hk).
    split; [simpl; rewrite nth_error_map; simpl in Hk; rewrite Hk; reflexivity|].
    split; [apply index_of_nth_error; exact Hin|].
    intros q Hq; apply index_of_first; exact Hq.
Qed.

End IndexBuilderClaims.

(** ** In-place updates of the caller's tables *)

Section StoreFacts.

Import Num Frame Assembler Extractor Synthesizer.
Local Open Scope string_scope.

Lemma RunStan_store (s : store) (res_name : string) (c_a_erg : R) (pystan_ver : Z)
    (sampler : StanData -> option Fit) :
  fst (RunStan s res_name c_a_erg pystan_ver sampler) = fst (preprocess s).
Proof. unfold RunStan; destruct (preprocess s); reflexivity. Qed.

Lemma ensure_index_named (df : DataFrame) (name : string) :
  index_named df name = true -> ensure_index df name = Some df.
Proof. unfold ensure_index; intros ->; reflexivity. Qed.

Lemma ensure_index_cases (df df' : DataFrame) (name : string) :
  ensure_index df name = Some df' ->
  df' = df \/ (index_named df name = false /\ set_index df name = Some df').
Proof.
  unfold ensure_index; destruct (index_named df name); intros H.
  - left; congruence.
  - right; auto.
Qed.

(** The tables after [preprocess]: each is the caller's table or that
    table with its key column moved into the index. *)
Lemma preprocess_tables (s : store) :
  let s' := fst (preprocess s) in
  (df_flatfile s' = df_flatfile s \/
   (index_named (df_flatfile s) "rsn" = false /\
    set_index (df_flatfile s) "rsn" = Some (df_flatfile s'))) /\
  (df_celldist s' = df_celldist s \/
   (index_named (df_celldist s) "rsn" = false /\
    set_index (df_celldist s) "rsn" = Some (df_celldist s'))) /\
  (df_cellinfo s' = df_cellinfo s \/
   (index_named (df_cellinfo s) "cellid" = false /\
    set_index (df_cellinfo s) "cellid" = Some (df_cellinfo s'))).
Proof.
  unfold preprocess.
  destruct (ensure_index (df_flatfile s) "rsn") as [ff|] eqn:Hf; simpl; [|auto].
  apply ensure_index_cases in Hf.
  destruct (ensure_index (df_celldist s) "rsn") as [cd|] eqn:Hc; simpl; [|auto].
  apply ensure_index_cases in Hc.
  destruct (ensure_index (df_cellinfo s) "cellid") as [ci|] eqn:Hi; simpl; [|auto].
  apply ensure_index_cases in Hi; auto.
Qed.

End StoreFacts.

Section StoreClaims.

Import Num Frame Assembler Extractor Synthesizer Examples.
Local Open Scope string_scope.

(** The claim of C8 fails: run on tables that still carry their keys as
    columns, [RunStan] leaves the caller's three tables re-indexed. *)
Lemma run_reindexes_callers_tables :
  snd (preprocess tables_raw) = Some tt /\
  fst (RunStan tables_raw "res" 0%R 2%Z (fun _ => Some fit)) = tables /\
  tables <> tables_raw.
Proof.
  split; [reflexivity|].
  split; [rewrite RunStan_store; reflexivity|].
  intros H; apply (f_equal (fun s => index_name (df_flatfile s))) in H; discriminate.
Qed.

(** C8, amended.  The only update of a caller-supplied table is the
    initial [set_index]: a table whose index is already named [rsn]
    (records, cell distances) or [cellid] (cell metadata) is the same
    after the run, whatever the run does afterwards; when all three are
    so indexed the caller's tables are all unchanged. *)
Theorem indexed_tables_unchanged (s : store) (res_name : string) (c_a_erg : R)
    (pystan_ver : Z) (sampler : StanData -> option Fit) :
  let s' := fst (RunStan s res_name c_a_erg pystan_ver sampler) in
  (index_named (df_flatfile s) "rsn" = true -> df_flatfile s' = df_flatfile s) /\
  (index_named (df_celldist s) "rsn" = true -> df_celldist s' = df_celldist s) /\
  (index_named (df_cellinfo s) "cellid" = true -> df_cellinfo s' = df_cellinfo s) /\
  (index_named (df_flatfile s) "rsn" = true ->
   index_named (df_celldist s) "rsn" = true ->
   index_named (df_cellinfo s) "cellid" = true -> s' = s).
Proof.
  intros s'; subst s'; rewrite RunStan_store.
  destruct (preprocess_tables s) as (Hf & Hc & Hi).
  assert (F : index_named (df_flatfile s) "rsn" = true ->
              df_flatfile (fst (preprocess s)) = df_flatfile s)
    by (intros E; destruct Hf as [?|(E' & _)]; [assumption | congruence]).
  assert (C : index_named (df_celldist s) "rsn" = true ->
              df_celldist (fst (preprocess s)) = df_celldist s)
    by (intros E; destruct Hc as [?|(E' & _)]; [assumption | congruence]).
  assert (I : index_named (df_cellinfo s) "cellid" = true ->
              df_cellinfo (fst (preprocess s)) = df_cellinfo s)
    by (intros E; destruct Hi as [?|(E' & _)]; [assumption | congruence]).
  repeat split; try assumption.
  intros E1 E2 E3; specialize (F E1); specialize (C E2); specialize (I E3).
  destruct (fst (preprocess s)) as [a b c]; destruct s as [a' b' c']; simpl in *.
  congruence.
Qed.

Lemma indexed_tables_unchanged_witness :
  fst (RunStan tables "res" 0%R 2%Z (fun _ => Some fit)) = tables.
Proof.
  destruct (indexed_tables_unchanged tables "res" 0%R 2%Z (fun _ => Some fit))
    as (_ & _ & _ & H).
  apply H; reflexivity.
Defined.

End StoreClaims.

(** ** Alignment of the distance table *)

Section ReindexFacts.

Import Num Frame Assembler.
Local Open Scope string_scope.

Lemma label_pos_absent (idx : list Z) (k : Z) :
  ~ In k idx -> label_pos idx k = None.
Proof.
  induction idx as [|y t IH]; simpl; intros H; [reflexivity|].
  destruct (Z.eqb_spec k y) as [->|_]; [exfalso; apply H; auto|].
  rewrite IH; [reflexivity | intros Hin; apply H; auto].
Qed.

Lemma list_Z_eqb_eq (a b : list Z) : list_Z_eqb a b = true -> a = b.
Proof.
  unfold list_Z_eqb; revert b; induction a as [|x a IH]; intros [|y b]; simpl;
    intros H; try reflexivity; try discriminate.
  apply andb_true_iff in H; destruct H as (Hl & H).
  apply andb_true_iff in H; destruct H as (Hxy & H).
  apply Z.eqb_eq in Hxy; subst y; f_equal.
  apply IH; rewrite Hl; exact H.
Qed.

Lemma all_present_absent (src target : list Z) (k : Z) :
  In k target -> ~ In k src -> all_present src target = false.
Proof.
  intros Hin Habs; unfold all_present.
  destruct (forallb _ target) eqn:E; [|reflexivity].
  rewrite forallb_forall in E; specialize (E k Hin).
  rewrite (label_pos_absent _ _ Habs) in E; discriminate.
Qed.

(** A record whose label is absent from the source gets a missing value in
    every numeric column of the re-indexed table. *)
Lemma reindex_col_absent (src target : list Z) (c : column) (v : list num)
    (i : nat) (k : Z) :
  nth_error target i = Some k -> ~ In k src ->
  to_float (reindex_col src target c) = Some v ->
  nth_error v i = Some NaN.
Proof.
  intros Hi Habs Hv.
  pose proof (label_pos_absent _ _ Habs) as Hpos.
  destruct c as [w|w|w]; simpl in Hv.
  - rewrite (all_present_absent src target k (nth_error_In _ _ Hi) Habs) in Hv.
    simpl in Hv; inversion Hv; subst; clear Hv.
    rewrite nth_error_map, Hi; simpl; rewrite Hpos; reflexivity.
  - inversion Hv; subst; clear Hv.
    rewrite nth_error_map, Hi; simpl; rewrite Hpos; reflexivity.
  - discriminate.
Qed.

Lemma reindex_absent (cd ff cd' : DataFrame) (i : nat) (k : Z) :
  reindex cd ff = Some cd' ->
  nth_error (index ff) i = Some k -> ~ In k (index cd) ->
  index cd' = index ff /\
  columns cd' = map (fun c => (fst c, reindex_col (index cd) (index ff) (snd c))) (columns cd).
Proof.
  unfold reindex; intros H Hi Habs.
  destruct (list_Z_eqb (index cd) (index ff)) eqn:E.
  - apply list_Z_eqb_eq in E; exfalso; apply Habs; rewrite E.
    eapply nth_error_In; exact Hi.
  - destruct (has_dup (index cd) && negb (Nat.eqb (length (index ff)) 0)); [discriminate|].
    inversion H; subst; simpl; auto.
Qed.

(** [df.reindex] raises only for repeated labels in the table. *)
Lemma reindex_total (cd ff : DataFrame) :
  has_dup (index cd) = false -> exists cd', reindex cd ff = Some cd'.
Proof.
  unfold reindex; intros ->; simpl.
  destruct (list_Z_eqb (index cd) (index ff)); eexists; reflexivity.
Qed.

Lemma select_all_incl {K A : Type} (eqb : K -> K -> bool) (table : list (K * A))
    (keys : list K) (l : list (K * A)) :
  select_all eqb table keys = Some l -> incl l table.
Proof.
  unfold select_all; intros H; inv_bind H; inversion H; subst; clear H.
  intros e He; apply in_concat in He; destruct He as (grp & Hgrp & He).
  apply In_nth_error in Hgrp; destruct Hgrp as (j & Hj).
  assert (Hlen : j < length keys).
  { rewrite <- (mapM_length _ _ _ Hx); apply nth_error_Some; congruence. }
  destruct (nth_error keys j) as [k|] eqn:Hk; [|apply nth_error_None in Hk; lia].
  destruct (mapM_nth_error _ _ _ Hx _ _ Hk) as (b & Hb & Hb').
  rewrite Hj in Hb'; inversion Hb'; subst b; clear Hb'.
  destruct (filter (fun e0 => eqb (fst e0) k) table) as [|e0 rest] eqn:Hf; [discriminate|].
  inversion Hb; subst grp; rewrite <- Hf in He.
  apply filter_In in He; tauto.
Qed.

Lemma select_float_cols_In (df : DataFrame) (names : list (option string))
    (cols : list (string * list num)) (e : string * list num) :
  select_float_cols df names = Some cols -> In e cols ->
  exists c, In (fst e, c) (columns df) /\ to_float c = Some (snd e).
Proof.
  unfold select_float_cols; intros H He; inv_bind H.
  apply In_nth_error in He; destruct He as (j & Hj).
  assert (Hlen : j < length x0).
  { rewrite <- (mapM_length _ _ _ H); apply nth_error_Some; congruence. }
  destruct (nth_error x0 j) as [c|] eqn:Hc; [|apply nth_error_None in Hc; lia].
  destruct (mapM_nth_error _ _ _ H _ _ Hc) as (b & Hb & Hb').
  rewrite Hj in Hb'; inversion Hb'; subst b; clear Hb'.
  inv_bind Hb; inversion Hb; subst e; simpl.
  exists (snd c); split; [|assumption].
  apply (select_all_incl _ _ _ _ Hx0); rewrite <- surjective_pairing.
  eapply nth_error_In; exact Hc.
Qed.

Lemma cell_filter_incl (ci : DataFrame) (all : list (string * list num)) (cf : CellFilter) :
  cell_filter ci all = Some cf -> incl (cf_celldist_valid cf) all.
Proof.
  unfold cell_filter; intros H; inv_bind H; inversion H; subst; simpl.
  eapply select_all_incl; eassumption.
Qed.

Lemma nth_error_rows_of {A : Type} (d : A) (n : nat) (cols : list (list A)) (i : nat) :
  i < n -> nth_error (rows_of d n cols) i = Some (row_at d cols i).
Proof.
  intros Hi; unfold rows_of.
  rewrite nth_error_map, nth_error_nth' with (d := 0) by (rewrite length_seq; exact Hi).
  rewrite seq_nth by exact Hi; reflexivity.
Qed.

Lemma length_rows_of {A : Type} (d : A) (n : nat) (cols : list (list A)) :
  length (rows_of d n cols) = n.
Proof. unfold rows_of; rewrite length_map, length_seq; reflexivity. Qed.

End ReindexFacts.

Ltac decide_R :=
  repeat match goal with
  | |- context [Rlt_dec ?a ?b] =>
      destruct (Rlt_dec a b); [try (exfalso; lra) | try (exfalso; lra)]
  end.

Section AlignmentClaims.

Import Num Frame Assembler Extractor Synthesizer Examples.
Local Open Scope string_scope.

Lemma tables_short_absent : ~ In 2%Z (index (df_celldist tables_short)).
Proof. simpl; intros [H|[]]; discriminate. Qed.

Lemma tables_short_assembled :
  exists a, assemble tables_short "res" 0%R = Some a /\
            sd_N (stan_data a) = 2 /\
            sd_NCELL (stan_data a) = 1 /\
            sd_RC (stan_data a) = [[Some 1%R]; [NaN]].
Proof.
  eexists; split; [unfold assemble; cbn; decide_R; cbn; reflexivity|].
  cbn; auto.
Qed.

(** The claim of C7 fails: the record [rsn = 2] is absent from the
    distance table, yet the payload is built, with a row of missing
    distances for that record, and the run goes on to its end. *)
Lemma absent_record_payload_built :
  In 2%Z (index (df_flatfile tables_short)) /\
  ~ In 2%Z (index (df_celldist tables_short)) /\
  (exists a, assemble tables_short "res" 0%R = Some a /\
             sd_N (stan_data a) = 2 /\
             sd_NCELL (stan_data a) = 1 /\
             sd_RC (stan_data a) = [[Some 1%R]; [NaN]]) /\
  (exists out, snd (RunStan tables_short "res" 0%R 2%Z (fun _ => Some fit)) = Some out).
Proof.
  split; [simpl; auto|].
  split; [exact tables_short_absent|].
  split; [exact tables_short_assembled|].
  eexists; unfold RunStan, assemble; cbn; decide_R; cbn.
  unfold postprocess; cbn; reflexivity.
Qed.

Lemma row_at_all {A : Type} (d : A) (cols : list (list A)) (i : nat) :
  (forall c, In c cols -> nth i c d = d) ->
  row_at d cols i = repeat d (length cols).
Proof.
  unfold row_at; induction cols as [|c t IH]; simpl; intros H; [reflexivity|].
  rewrite (H c (or_introl eq_refl)), IH; [reflexivity|].
  intros c' Hc'; apply H; right; exact Hc'.
Qed.

(** C7, amended.  A record whose key is absent from the distance table
    does not stop the assembly: whenever the payload is built, the row of
    the distance matrix of such a record consists of missing values. *)
Theorem absent_record_row_missing (s : store) (res_name : string) (c_a_erg : R)
    (a : Assembled) (i : nat) (k : Z)
    (Hrun : assemble s res_name c_a_erg = Some a)
    (Hrec : nth_error (index (df_flatfile s)) i = Some k)
    (Habs : ~ In k (index (df_celldist s))) :
  sd_N (stan_data a) = length (index (df_flatfile s)) /\
  nth_error (sd_RC (stan_data a)) i = Some (repeat NaN (sd_NCELL (stan_data a))).
Proof.
  unfold assemble in Hrun; inv_bind Hrun.
  inversion Hrun; subst a; clear Hrun; simpl.
  split; [reflexivity|].
  match goal with
  | H : reindex _ _ = Some ?cd |- _ =>
      destruct (reindex_absent _ _ _ _ _ H Hrec Habs) as (Hidx & Hcols)
  end.
  rewrite nth_error_rows_of by (apply nth_error_Some; congruence).
  f_equal; rewrite <- (length_map snd); apply row_at_all.
  intros c Hc; apply in_map_iff in Hc; destruct Hc as ((name & c') & Heq & Hin).
  simpl in Heq; subst c'.
  match goal with
  | H : cell_filter _ _ = Some _ |- _ => apply (cell_filter_incl _ _ _ H) in Hin
  end.
  match goal with
  | H : select_float_cols _ _ = Some _ |- _ =>
      destruct (select_float_cols_In _ _ _ _ H Hin) as (col & Hcol & Hfl)
  end.
  simpl in Hcol, Hfl; rewrite Hcols in Hcol.
  apply in_map_iff in Hcol; destruct Hcol as ((name' & col') & Heq & _).
  simpl in Heq; inversion Heq; subst; clear Heq.
  apply nth_error_nth; eapply reindex_col_absent; eassumption.
Qed.

Lemma absent_record_row_missing_witness :
  exists a, assemble tables_short "res" 0%R = Some a /\
            nth_error (sd_RC (stan_data a)) 1 = Some (repeat NaN (sd_NCELL (stan_data a))).
Proof.
  destruct tables_short_assembled as (a & Ha & _).
  exists a; split; [exact Ha|].
  apply (absent_record_row_missing tables_short "res" 0%R a 1 2%Z Ha eq_refl
           tables_short_absent).
Defined.

End AlignmentClaims.

(** ** Cell Network Filter *)

Section CellFilterFacts.

Import Num Frame Assembler.
Local Open Scope string_scope.

Lemma np_where_from_bounds (i : nat) (mask : list bool) (p : nat) :
  In p (np_where_from i mask) ->
  i <= p < i + length mask /\ nth (p - i) mask false = true.
Proof.
  revert i; induction mask as [|b t IH]; simpl; intros i H; [tauto|].
  assert (Ht : In p (np_where_from (S i) t) ->
               i <= p < i + S (length t) /\ nth (p - i) (b :: t) false = true).
  { intros Hin; destruct (IH _ Hin) as (Hb & Hn); split; [lia|].
    replace (p - i) with (S (p - S i)) by lia; exact Hn. }
  destruct b; [|auto].
  destruct H as [<-|H]; [|auto].
  split; [lia|]. rewrite Nat.sub_diag; reflexivity.
Qed.

Lemma np_where_from_complete (i : nat) (mask : list bool) (q : nat) :
  q < length mask -> nth q mask false = true -> In (i + q) (np_where_from i mask).
Proof.
  revert i q; induction mask as [|b t IH]; simpl; intros i q Hq Hn; [lia|].
  destruct q as [|q].
  - subst b; rewrite Nat.add_0_r; left; reflexivity.
  - replace (i + S q) with (S i + q) by lia.
    assert (In (S i + q) (np_where_from (S i) t)) by (apply IH; [lia | exact Hn]).
    destruct b; [right|]; assumption.
Qed.

Lemma np_where_from_sorted (i : nat) (mask : list bool) :
  StronglySorted lt (np_where_from i mask).
Proof.
  revert i; induction mask as [|b t IH]; simpl; intros i; [constructor|].
  destruct b; [|apply IH].
  constructor; [apply IH|].
  apply Forall_forall; intros p Hp.
  apply np_where_from_bounds in Hp; lia.
Qed.






End CellFilterFacts.

Section CellFilterPositional.

Import Num Frame Assembler CellTables.
Local Open Scope string_scope.









Lemma map_nth_seq {A : Type} (l : list A) (d : A) :
  map (fun j => nth j l d) (seq 0 (length l)) = l.
Proof.
  induction l as [|x t IH]; simpl; [reflexivity|].
  f_equal; rewrite <- seq_shift, map_map; exact IH.
Qed.







End CellFilterPositional.

Section CellFilterClaims.

Import Num Frame Assembler CellTables Examples.
Local Open Scope string_scope.

Lemma positive_total_iff (c : string * list num) :
  positive_total c = true <->
  exists total, nansum (snd c) = Some total /\ (0 < total)%R.
Proof.
  unfold positive_total, gt0, nansum; split.
  - destruct (Rlt_dec 0 _) as [H|H]; [|discriminate].
    intros _; eexists; split; [reflexivity | exact H].
  - intros (total & Heq & Hlt); inversion Heq; subst.
    destruct (Rlt_dec 0 _); [reflexivity | contradiction].
Qed.

(** The positions found by the filter are, for every distance matrix, the
    ascending positions of the columns with a positive total. *)
Lemma i_cells_valid_positive (all : list (string * list num)) (p : nat) :
  In p (np_where (map positive_total all)) <->
  exists c, nth_error all p = Some c /\ positive_total c = true.
Proof.
  split.
  - intros H; apply np_where_from_bounds in H; destruct H as (Hb & Hn).
    rewrite Nat.sub_0_r in Hn; rewrite length_map in Hb.
    destruct (nth_error all p) as [c|] eqn:Hc; [|apply nth_error_None in Hc; lia].
    exists c; split; [reflexivity|].
    rewrite <- Hn; symmetry.
    apply nth_error_nth; rewrite nth_error_map, Hc; reflexivity.
  - intros (c & Hc & Hpos).
    apply (np_where_from_complete 0 (map positive_total all) p).
    + rewrite length_map; apply nth_error_Some; congruence.
    + apply nth_error_nth; rewrite nth_error_map, Hc; simpl; f_equal; exact Hpos.
Qed.

Lemma tables_celldist_all :
  select_float_cols celldist [Some "c.a"; Some "c.b"]
  = Some [("c.a", [Some 1%R; Some 2%R]); ("c.b", [Some 0%R; Some 0%R])].
Proof. reflexivity. Qed.



Lemma tables_one_based_assembled :
  exists a, assemble tables_one_based "res" 0%R = Some a /\
            celldist_all a = [("c.a", [Some 0%R; Some 0%R]); ("c.b", [Some 1%R; Some 2%R])] /\
            i_cells_valid a = [1] /\
            cell_ids_valid a = [2%Z] /\
            celldist_valid a = [("c.a", [Some 0%R; Some 0%R])] /\
            sd_NCELL (stan_data a) = 1 /\
            sd_RC (stan_data a) = [[Some 0%R]; [Some 0%R]].
Proof.
  eexists; split; [unfold assemble; cbn; decide_R; cbn; reflexivity|].
  cbn; auto 7.
Qed.

(** C4 at the tables [tables_one_based], whose two cells carry the
    identifiers 1 and 2: the payload is built; the column with a positive
    total is [c.b], at position 1, but the only retained column is
    [c.a], whose total distance is zero, and [c.b] is left out. *)
Theorem one_based_ids_retain_zero_cell :
  exists a, assemble tables_one_based "res" 0%R = Some a /\
    i_cells_valid a = [1] /\
    nth_error (celldist_all a) 1 = Some ("c.b", [Some 1%R; Some 2%R]) /\
    positive_total ("c.b", [Some 1%R; Some 2%R]) = true /\
    celldist_valid a = [("c.a", [Some 0%R; Some 0%R])] /\
    positive_total ("c.a", [Some 0%R; Some 0%R]) = false /\
    sd_RC (stan_data a) = [[Some 0%R]; [Some 0%R]].
Proof.
  destruct tables_one_based_assembled as (a & Ha & Hall & Hiv & _ & Hval & _ & HRC).
  exists a; split; [exact Ha|].
  split; [exact Hiv|].
  split; [rewrite Hall; reflexivity|].
  split; [unfold positive_total, gt0, nansum; simpl; decide_R; reflexivity|].
  split; [exact Hval|].
  split; [unfold positive_total, gt0, nansum; simpl; decide_R; reflexivity|].
  exact HRC.
Qed.

(** What [assemble] returns, read off its definition. *)
Lemma assemble_inv (s : store) (res_name : string) (c_a_erg : R) (a : Assembled) :
  assemble s res_name c_a_erg = Some a ->
  exists eqid ssn cd names,
    get_int (df_flatfile s) "eqid" = Some eqid /\
    get_int (df_flatfile s) "ssn" = Some ssn /\
    reindex (df_celldist s) (df_flatfile s) = Some cd /\
    get_str (df_cellinfo s) "cellname" = Some names /\
    select_float_cols cd names = Some (celldist_all a) /\
    cell_filter (df_cellinfo s) (celldist_all a)
    = Some (mkCellFilter (i_cells_valid a) (cell_ids_valid a) (cell_names_valid a)
              (celldist_valid a) (X_cells_valid a)) /\
    n_data a = length (index (df_flatfile s)) /\
    eq_inv a = IndexBuilder.u_inverse (IndexBuilder.np_unique eqid) /\
    n_eq a = length (IndexBuilder.u_values (IndexBuilder.np_unique eqid)) /\
    sta_inv a = IndexBuilder.u_inverse (IndexBuilder.np_unique ssn) /\
    n_sta a = length (IndexBuilder.u_values (IndexBuilder.np_unique ssn)) /\
    n_cell_valid a = length (celldist_valid a) /\
    sd_N (stan_data a) = n_data a /\
    sd_NEQ (stan_data a) = n_eq a /\
    sd_NSTAT (stan_data a) = n_sta a /\
    sd_NCELL (stan_data a) = n_cell_valid a /\
    sd_eq (stan_data a) = map S (eq_inv a) /\
    sd_stat (stan_data a) = map S (sta_inv a) /\
    sd_X_c (stan_data a) = X_cells_valid a /\
    sd_RC (stan_data a) = rows_of NaN (n_data a) (map snd (celldist_valid a)) /\
    sd_Y (stan_data a) = y_data a.
Proof.
  unfold assemble; intros H; inv_bind H.
  inversion H; subst a; clear H; cbn.
  exists x, x4, x10, x11.
  repeat split; try assumption.
  - destruct x13; assumption.
  - rewrite (mapM_length _ _ _ Hx3); apply length_map.
  - rewrite (mapM_length _ _ _ Hx8); apply length_map.
Qed.

(** The group indices of the payload name groups: broadcasting by the
    inverse index cannot go out of range. *)
Lemma assemble_inverse_in_range (s : store) (res_name : string) (c_a_erg : R)
    (a : Assembled) :
  assemble s res_name c_a_erg = Some a ->
  Forall (fun g => g < n_eq a) (eq_inv a) /\ Forall (fun g => g < n_sta a) (sta_inv a).
Proof.
  intros H; destruct (assemble_inv _ _ _ _ H)
    as (eqid & ssn & _ & _ & _ & _ & _ & _ & _ & _ & _ & He & Hne & Hs & Hns & _).
  rewrite He, Hne, Hs, Hns; split; apply Forall_forall; intros g Hg;
    simpl in Hg; apply in_map_iff in Hg; destruct Hg as (k & <- & Hk);
    apply index_of_lt, sorted_unique_In; exact Hk.
Qed.

Lemma tables_assembled :
  exists a, assemble tables "res" 0%R = Some a /\
            celldist_all a = [("c.a", [Some 1%R; Some 2%R]); ("c.b", [Some 0%R; Some 0%R])].
Proof.
  eexists; split; [unfold assemble; cbn; decide_R; cbn; reflexivity|].
  reflexivity.
Qed.





End CellFilterClaims.

(** ** Posterior Extractor *)

Section ExtractorFacts.

Import Num Frame Extractor.
Local Open Scope string_scope.

Lemma column_at_length (m : Mat) (j : nat) : length (column_at m j) = length (mrows m).
Proof. unfold column_at; apply length_map. Qed.

Lemma nth_seq_map {A : Type} (f : nat -> A) (n i : nat) (d : A) :
  i < n -> nth i (map f (seq 0 n)) d = f i.
Proof.
  intros H; rewrite (nth_indep _ d (f 0)) by (rewrite length_map, length_seq; exact H).
  rewrite map_nth, seq_nth by exact H; reflexivity.
Qed.

(** Transposing twice gives the array back. *)
Lemma transpose_involutive (m : Mat) : wf_mat m -> transpose (transpose m) = m.
Proof.
  intros (Hr & Hc); destruct m as [nr nc rows]; simpl in *.
  unfold transpose; simpl; f_equal.
  subst nr.
  transitivity (map (fun i => nth i rows []) (seq 0 (length rows)));
    [|apply map_nth_seq].
  apply map_ext_in; intros i Hi; apply in_seq in Hi.
  unfold column_at; simpl; rewrite map_map.
  assert (Hrow : length (nth i rows []) = nc).
  { rewrite Forall_forall in Hc; apply Hc, nth_In; lia. }
  transitivity (map (fun j => nth j (nth i rows []) 0%R) (seq 0 nc));
    [|rewrite <- Hrow; apply map_nth_seq].
  apply map_ext_in; intros j Hj; apply in_seq in Hj.
  rewrite (nth_indep _ 0%R (nth j [] 0%R))
    by (rewrite length_map; lia).
  rewrite (map_nth (fun r => nth j r 0%R)); reflexivity.
Qed.

Lemma transpose_wf (m : Mat) : wf_mat m -> wf_mat (transpose m).
Proof.
  intros (Hr & Hc); unfold wf_mat, transpose; simpl; split.
  - rewrite length_map, length_seq; reflexivity.
  - apply Forall_forall; intros r Hin; apply in_map_iff in Hin.
    destruct Hin as (j & <- & _); rewrite column_at_length; exact Hr.
Qed.

(** Row-wise concatenation, written by draw. *)
Lemma combine_rows_from {A : Type} (f : nat -> list A) (l : list (list A)) (s : nat) :
  map (fun p => fst p ++ snd p)%list (combine (map f (seq s (length l))) l)
  = map (fun r => f r ++ nth (r - s) l [])%list (seq s (length l)).
Proof.
  revert s; induction l as [|x t IH]; intros s; simpl; [reflexivity|].
  rewrite Nat.sub_diag; f_equal.
  rewrite IH; apply map_ext_in; intros r Hr; apply in_seq in Hr.
  replace (r - s) with (S (r - S s)) by lia; reflexivity.
Qed.

Lemma combine_rows {A : Type} (f : nat -> list A) (l : list (list A)) (d : nat) :
  length l = d ->
  map (fun p => fst p ++ snd p)%list (combine (map f (seq 0 d)) l)
  = map (fun r => f r ++ nth r l [])%list (seq 0 d).
Proof.
  intros <-; rewrite combine_rows_from.
  apply map_ext; intros r; rewrite Nat.sub_0_r; reflexivity.
Qed.

Lemma concatenate_axis1_rows (d c : nat) (f : nat -> list R) (m : Mat) :
  wf_mat m -> nrows m = d ->
  concatenate_axis1 (mkMat d c (map f (seq 0 d))) (Arr2 m)
  = Some (mkMat d (c + ncols m) (map (fun r => f r ++ nth r (mrows m) [])%list (seq 0 d))).
Proof.
  intros (Hr & _) Hd; unfold concatenate_axis1; simpl.
  rewrite Hd, Nat.eqb_refl; simpl.
  rewrite combine_rows by congruence; reflexivity.
Qed.

End ExtractorFacts.

Section ExtractorClaims.

Import Num Frame Extractor Layout Examples.
Local Open Scope string_scope.

Lemma stack_axis1_rows (hyp : list (list R)) (draws : nat) :
  length hyp = 12 -> Forall (fun v => length v = draws) hyp ->
  stack_axis1 hyp = Some (mkMat draws 12 (map (row_at 0%R hyp) (seq 0 draws))).
Proof.
  intros Hlen Hall; destruct hyp as [|v t]; [discriminate|].
  unfold stack_axis1.
  inversion Hall as [|? ? Hv Ht]; subst.
  assert (Hchk : forallb (fun w => Nat.eqb (length w) (length v)) t = true).
  { apply forallb_forall; intros w Hw; rewrite Forall_forall in Ht.
    rewrite (Ht w Hw); apply Nat.eqb_refl. }
  rewrite Hchk; cbn [Err.bind Err.guard]; rewrite Hlen; reflexivity.
Qed.

Lemma pooled_posterior (pystan_ver : Z) (stan_fit : Fit) (draws : nat)
    (hyp : list (list R)) (E A B C D : Mat) :
  fit_layout pystan_ver stan_fit draws hyp E A B C D ->
  stan_posterior pystan_ver stan_fit = Some (pooled draws hyp E A B C D).
Proof.
  intros (Hhyp & Hlen & Hwf & Hfit).
  unfold group_params in Hfit.
  do 5 (pose proof (Forall_inv Hwf) as (? & ?); apply Forall_inv_tail in Hwf).
  do 5 (apply Forall2_cons_iff in Hfit; destruct Hfit as (? & Hfit)).
  assert (Hor : forall m, wf_mat m ->
            orient pystan_ver (if Z.eqb pystan_ver 2 then Arr2 m else Arr2 (transpose m))
            = Arr2 m).
  { intros m Hm; unfold orient; destruct (Z.eqb pystan_ver 2); [reflexivity|].
    simpl; rewrite transpose_involutive by exact Hm; reflexivity. }
  unfold stan_posterior; rewrite Hhyp; cbn [Err.bind].
  rewrite (stack_axis1_rows hyp draws)
    by (try exact Hlen; rewrite (mapM_length _ _ _ Hhyp); reflexivity).
  cbn [Err.bind].
  repeat match goal with
  | H : stan_fit ?n = Some _ |- context [stan_fit ?n] =>
      rewrite H; cbn [Err.bind]; rewrite Hor by assumption;
      rewrite concatenate_axis1_rows by (assumption || congruence); cbn [Err.bind]
  end.
  unfold pooled; f_equal; f_equal.
  apply map_ext; intros r; unfold pooled_row.
  rewrite <- !app_assoc; reflexivity.
Qed.

End ExtractorClaims.

Section ColumnOrder.

Import Num Frame Extractor Layout.
Local Open Scope string_scope.

(** Entries of a six-fold concatenation, block by block. *)
Lemma nth_concat6 {A : Type} (l0 l1 l2 l3 l4 l5 : list A) (d : A) (k : nat) :
  let all := (l0 ++ l1 ++ l2 ++ l3 ++ l4 ++ l5)%list in
  (k < length l0 -> nth k all d = nth k l0 d) /\
  (k < length l1 -> nth (length l0 + k) all d = nth k l1 d) /\
  (k < length l2 -> nth (length l0 + length l1 + k) all d = nth k l2 d) /\
  (k < length l3 -> nth (length l0 + length l1 + length l2 + k) all d = nth k l3 d) /\
  (k < length l4 ->
   nth (length l0 + length l1 + length l2 + length l3 + k) all d = nth k l4 d) /\
  (k < length l5 ->
   nth (length l0 + length l1 + length l2 + length l3 + length l4 + k) all d = nth k l5 d).
Proof.
  intros all; subst all.
  repeat split; intros H.
  - apply app_nth1; exact H.
  - rewrite app_nth2_plus; apply app_nth1; exact H.
  - rewrite <- Nat.add_assoc, !app_nth2_plus; apply app_nth1; exact H.
  - rewrite <- !Nat.add_assoc, !app_nth2_plus; apply app_nth1; exact H.
  - rewrite <- !Nat.add_assoc, !app_nth2_plus; apply app_nth1; exact H.
  - rewrite <- !Nat.add_assoc, !app_nth2_plus; reflexivity.
Qed.

Lemma wf_row_length (m : Mat) (r : nat) :
  wf_mat m -> r < nrows m -> length (nth r (mrows m) []) = ncols m.
Proof.
  intros (Hr & Hc) Hlt; rewrite Forall_forall in Hc; apply Hc, nth_In; lia.
Qed.

Lemma column_at_by_draw (m : Mat) (k : nat) :
  wf_mat m ->
  column_at m k = map (fun r => nth k (nth r (mrows m) []) 0%R) (seq 0 (nrows m)).
Proof.
  intros (Hr & _); unfold column_at.
  rewrite <- (map_nth_seq (mrows m) []) at 1.
  rewrite map_map, Hr; reflexivity.
Qed.

Lemma row_at_length {A : Type} (d : A) (cols : list (list A)) (i : nat) :
  length (row_at d cols i) = length cols.
Proof. unfold row_at; apply length_map. Qed.

Lemma nth_row_at (hyp : list (list R)) (r k : nat) :
  nth k (row_at 0%R hyp r) 0%R = nth r (nth k hyp []) 0%R.
Proof.
  unfold row_at.
  destruct (Nat.lt_ge_cases k (length hyp)) as [Hk|Hk].
  - rewrite (nth_indep _ 0%R (nth r [] 0%R)) by (rewrite length_map; exact Hk).
    apply (map_nth (fun c => nth r c 0%R)).
  - rewrite (nth_overflow (map _ hyp)) by (rewrite length_map; exact Hk).
    rewrite (nth_overflow hyp) by exact Hk.
    destruct r; reflexivity.
Qed.

Lemma column_at_pooled (draws : nat) (hyp : list (list R)) (E A B C D : Mat) (j : nat) :
  column_at (pooled draws hyp E A B C D) j
  = map (fun r => nth j (pooled_row hyp E A B C D r) 0%R) (seq 0 draws).
Proof. unfold column_at, pooled; simpl; apply map_map. Qed.

Lemma length_pooled_row (draws : nat) (hyp : list (list R)) (E A B C D : Mat) (r : nat) :
  length hyp = 12 ->
  Forall (fun m => wf_mat m /\ nrows m = draws) [E; A; B; C; D] ->
  r < draws ->
  length (row_at 0%R hyp r) = 12 /\
  length (nth r (mrows E) []) = ncols E /\
  length (nth r (mrows A) []) = ncols A /\
  length (nth r (mrows B) []) = ncols B /\
  length (nth r (mrows C) []) = ncols C /\
  length (nth r (mrows D) []) = ncols D.
Proof.
  intros Hh Hwf Hr.
  do 5 (pose proof (Forall_inv Hwf) as (? & ?); apply Forall_inv_tail in Hwf).
  rewrite row_at_length; repeat split; try assumption;
    apply wf_row_length; (assumption || lia).
Qed.

(** The columns of the pooled matrix, block by block. *)
Lemma pooled_columns (draws : nat) (hyp : list (list R)) (E A B C D : Mat) (k : nat) :
  length hyp = 12 ->
  Forall (fun v => length v = draws) hyp ->
  Forall (fun m => wf_mat m /\ nrows m = draws) [E; A; B; C; D] ->
  let P := pooled draws hyp E A B C D in
  (k < 12 -> column_at P k = nth k hyp []) /\
  (k < ncols E -> column_at P (12 + k) = column_at E k) /\
  (k < ncols A -> column_at P (12 + ncols E + k) = column_at A k) /\
  (k < ncols B -> column_at P (12 + ncols E + ncols A + k) = column_at B k) /\
  (k < ncols C -> column_at P (12 + ncols E + ncols A + ncols B + k) = column_at C k) /\
  (k < ncols D ->
   column_at P (12 + ncols E + ncols A + ncols B + ncols C + k) = column_at D k).
Proof.
  intros Hh Hlen Hwf P; subst P.
  pose proof Hwf as Hwf'.
  do 5 (pose proof (Forall_inv Hwf') as (? & ?); apply Forall_inv_tail in Hwf').
  assert (Hpt : forall r, r < draws ->
            let row := pooled_row hyp E A B C D r in
            (k < 12 -> nth k row 0%R = nth r (nth k hyp []) 0%R) /\
            (k < ncols E -> nth (12 + k) row 0%R = nth k (nth r (mrows E) []) 0%R) /\
            (k < ncols A -> nth (12 + ncols E + k) row 0%R = nth k (nth r (mrows A) []) 0%R) /\
            (k < ncols B ->
             nth (12 + ncols E + ncols A + k) row 0%R = nth k (nth r (mrows B) []) 0%R) /\
            (k < ncols C ->
             nth (12 + ncols E + ncols A + ncols B + k) row 0%R
             = nth k (nth r (mrows C) []) 0%R) /\
            (k < ncols D ->
             nth (12 + ncols E + ncols A + ncols B + ncols C + k) row 0%R
             = nth k (nth r (mrows D) []) 0%R)).
  { intros r Hr row; subst row; unfold pooled_row.
    destruct (length_pooled_row draws hyp E A B C D r Hh Hwf Hr)
      as (L0 & L1 & L2 & L3 & L4 & L5).
    pose proof (nth_concat6 (row_at 0%R hyp r) (nth r (mrows E) []) (nth r (mrows A) [])
                  (nth r (mrows B) []) (nth r (mrows C) []) (nth r (mrows D) []) 0%R k) as N.
    cbv zeta in N; rewrite L0, L1, L2, L3, L4, L5 in N.
    destruct N as (N0 & N1 & N2 & N3 & N4 & N5).
    repeat split; intros Hk;
      [rewrite N0 by exact Hk; apply nth_row_at
      | apply N1 | apply N2 | apply N3 | apply N4 | apply N5]; exact Hk. }
  repeat split; intros Hk; rewrite column_at_pooled;
    [ transitivity (map (fun r => nth r (nth k hyp []) 0%R) (seq 0 draws));
      [ apply map_ext_in; intros r Hr; apply in_seq in Hr; apply (Hpt r); [lia | exact Hk]
      | assert (Hl : length (nth k hyp []) = draws)
          by (rewrite Forall_forall in Hlen; apply Hlen, nth_In; lia);
        rewrite <- Hl; apply map_nth_seq ]
    | rewrite (column_at_by_draw E) by assumption
    | rewrite (column_at_by_draw A) by assumption
    | rewrite (column_at_by_draw B) by assumption
    | rewrite (column_at_by_draw C) by assumption
    | rewrite (column_at_by_draw D) by assumption ];
    match goal with
    | Hd : nrows ?m = draws |- _ = map _ (seq 0 (nrows ?m)) =>
        rewrite Hd; apply map_ext_in; intros r Hr; apply in_seq in Hr;
        apply (Hpt r); [lia | exact Hk]
    end.
Qed.

End ColumnOrder.

Section ColumnOrderClaim.

Import Num Frame Extractor Layout Examples.
Local Open Scope string_scope.

Lemma col_names_blocks (n_eq n_sta : nat) (ids : list Z) (k : nat) :
  let names := col_names_all n_eq n_sta ids in
  length names = 12 + n_eq + n_sta + n_sta + length ids + n_eq /\
  (k < 12 -> nth_error names k = nth_error col_names_hyp k) /\
  (k < n_eq -> nth_error names (12 + k) = Some ("dc_1e." ++ fmt_nat k)) /\
  (k < n_sta -> nth_error names (12 + n_eq + k) = Some ("dc_1as." ++ fmt_nat k)) /\
  (k < n_sta -> nth_error names (12 + n_eq + n_sta + k) = Some ("dc_1bs." ++ fmt_nat k)) /\
  (k < length ids ->
   nth_error names (12 + n_eq + n_sta + n_sta + k)
   = Some ("c_cap." ++ fmt_int (nth k ids 0%Z))) /\
  (k < n_eq ->
   nth_error names (12 + n_eq + n_sta + n_sta + length ids + k)
   = Some ("dB." ++ fmt_nat k)).
Proof.
  intros names; subst names; unfold col_names_all.
  pose proof (nth_concat6 col_names_hyp (col_names_dc_1e n_eq) (col_names_dc_1as n_sta)
                (col_names_dc_1bs n_sta) (col_names_cap ids) (col_names_dB n_eq) "" k) as N.
  cbv zeta in N.
  assert (L0 : length col_names_hyp = 12) by reflexivity.
  assert (L1 : length (col_names_dc_1e n_eq) = n_eq)
    by (unfold col_names_dc_1e; rewrite length_map, length_seq; reflexivity).
  assert (L2 : length (col_names_dc_1as n_sta) = n_sta)
    by (unfold col_names_dc_1as; rewrite length_map, length_seq; reflexivity).
  assert (L3 : length (col_names_dc_1bs n_sta) = n_sta)
    by (unfold col_names_dc_1bs; rewrite length_map, length_seq; reflexivity).
  assert (L4 : length (col_names_cap ids) = length ids)
    by (unfold col_names_cap; apply length_map).
  assert (L5 : length (col_names_dB n_eq) = n_eq)
    by (unfold col_names_dB; rewrite length_map, length_seq; reflexivity).
  rewrite L0, L1, L2, L3, L4, L5 in N.
  destruct N as (N0 & N1 & N2 & N3 & N4 & N5).
  assert (Len : length (col_names_hyp ++ col_names_dc_1e n_eq ++ col_names_dc_1as n_sta
                          ++ col_names_dc_1bs n_sta ++ col_names_cap ids
                          ++ col_names_dB n_eq)%list
                = 12 + n_eq + n_sta + n_sta + length ids + n_eq)
    by (rewrite !length_app, L0, L1, L2, L3, L4, L5; lia).
  split; [exact Len|].
  repeat split; intros Hk.
  - rewrite (nth_error_nth' _ "") by lia.
    rewrite (nth_error_nth' col_names_hyp "") by (rewrite L0; exact Hk).
    f_equal; apply N0; exact Hk.
  - rewrite (nth_error_nth' _ "") by lia.
    f_equal; rewrite N1 by exact Hk.
    unfold col_names_dc_1e; apply (nth_seq_map (fun i => "dc_1e." ++ fmt_nat i)); exact Hk.
  - rewrite (nth_error_nth' _ "") by lia.
    f_equal; rewrite N2 by exact Hk.
    unfold col_names_dc_1as; apply (nth_seq_map (fun i => "dc_1as." ++ fmt_nat i)); exact Hk.
  - rewrite (nth_error_nth' _ "") by lia.
    f_equal; rewrite N3 by exact Hk.
    unfold col_names_dc_1bs; apply (nth_seq_map (fun i => "dc_1bs." ++ fmt_nat i)); exact Hk.
  - rewrite (nth_error_nth' _ "") by lia.
    f_equal; rewrite N4 by exact Hk.
    unfold col_names_cap.
    rewrite (nth_indep _ "" ("c_cap." ++ fmt_int 0)) by (rewrite length_map; exact Hk).
    apply (map_nth (fun c_id => "c_cap." ++ fmt_int c_id)).
  - rewrite (nth_error_nth' _ "") by lia.
    f_equal; rewrite N5 by exact Hk.
    unfold col_names_dB; apply (nth_seq_map (fun i => "dB." ++ fmt_nat i)); exact Hk.
Qed.

(** C5.  For a pystan-2 fit and a pystan-3 fit holding the same draws (the
    per-group arrays of the latter transposed), the pooled matrix is the
    same: one row per draw, and its columns are, in this order, the twelve
    hyper-parameters, [dc_1e], [dc_1as], [dc_1bs], [c_cap] and [dB]; the
    column names listed for the data frame follow the same order. *)
Theorem posterior_column_order (fit_v2 fit_v3 : Fit) (draws : nat)
    (hyp : list (list R)) (E A B C D : Mat) (n_eq n_sta : nat) (ids : list Z) (k : nat)
    (H2 : fit_layout 2 fit_v2 draws hyp E A B C D)
    (H3 : fit_layout 3 fit_v3 draws hyp E A B C D)
    (Hdims : ncols E = n_eq /\ ncols A = n_sta /\ ncols B = n_sta /\
             ncols C = length ids /\ ncols D = n_eq) :
  let P := pooled draws hyp E A B C D in
  let names := col_names_all n_eq n_sta ids in
  stan_posterior 2 fit_v2 = Some P /\
  stan_posterior 3 fit_v3 = Some P /\
  nrows P = draws /\ length (mrows P) = draws /\
  make_frame P names = Some (mkPostFrame names P) /\
  (k < 12 ->
   nth_error names k = nth_error col_names_hyp k /\ column_at P k = nth k hyp []) /\
  (k < n_eq ->
   nth_error names (12 + k) = Some ("dc_1e." ++ fmt_nat k) /\
   column_at P (12 + k) = column_at E k) /\
  (k < n_sta ->
   nth_error names (12 + n_eq + k) = Some ("dc_1as." ++ fmt_nat k) /\
   column_at P (12 + n_eq + k) = column_at A k) /\
  (k < n_sta ->
   nth_error names (12 + n_eq + n_sta + k) = Some ("dc_1bs." ++ fmt_nat k) /\
   column_at P (12 + n_eq + n_sta + k) = column_at B k) /\
  (k < length ids ->
   nth_error names (12 + n_eq + n_sta + n_sta + k)
   = Some ("c_cap." ++ fmt_int (nth k ids 0%Z)) /\
   column_at P (12 + n_eq + n_sta + n_sta + k) = column_at C k) /\
  (k < n_eq ->
   nth_error names (12 + n_eq + n_sta + n_sta + length ids + k) = Some ("dB." ++ fmt_nat k) /\
   column_at P (12 + n_eq + n_sta + n_sta + length ids + k) = column_at D k).
Proof.
  intros P names.
  destruct Hdims as (DE & DA & DB & DC & DD).
  pose proof (col_names_blocks n_eq n_sta ids k) as (Len & N0 & N1 & N2 & N3 & N4 & N5).
  pose proof H2 as (Hh & Hl & Hwf & _).
  pose proof (pooled_columns draws hyp E A B C D k
                (eq_trans (mapM_length _ _ _ Hh) eq_refl) Hl Hwf)
    as (C0 & C1 & C2 & C3 & C4 & C5).
  rewrite DE, DA, DB, DC, DD in *.
  split; [apply pooled_posterior; exact H2|].
  split; [apply pooled_posterior; exact H3|].
  split; [reflexivity|].
  split; [unfold P, pooled; simpl; rewrite length_map, length_seq; reflexivity|].
  split.
  { unfold make_frame, P, pooled; simpl ncols.
    rewrite DE, DA, DB, DC, DD.
    fold names in Len; rewrite Len, Nat.eqb_refl; reflexivity. }
  repeat split; auto.
Qed.

Lemma example_fit_layout :
  fit_layout 2 fit 1 (repeat [1%R] 12)
    (mkMat 1 1 [[1%R]]) (mkMat 1 2 [[2%R; 2%R]]) (mkMat 1 2 [[3%R; 3%R]])
    (mkMat 1 1 [[4%R]]) (mkMat 1 1 [[5%R]]) /\
  fit_layout 3 fit3 1 (repeat [1%R] 12)
    (mkMat 1 1 [[1%R]]) (mkMat 1 2 [[2%R; 2%R]]) (mkMat 1 2 [[3%R; 3%R]])
    (mkMat 1 1 [[4%R]]) (mkMat 1 1 [[5%R]]).
Proof.
  split; (split; [reflexivity|]);
    (split; [repeat constructor|]);
    (split; [repeat constructor|]);
    unfold group_params; repeat constructor.
Qed.

Lemma posterior_column_order_witness :
  stan_posterior 2 fit = stan_posterior 3 fit3 /\
  exists P, stan_posterior 3 fit3 = Some P /\
            column_at P (12 + 1 + 1) = column_at (mkMat 1 2 [[2%R; 2%R]]) 1.
Proof.
  destruct example_fit_layout as (L2 & L3).
  destruct (posterior_column_order fit fit3 1 (repeat [1%R] 12)
              (mkMat 1 1 [[1%R]]) (mkMat 1 2 [[2%R; 2%R]]) (mkMat 1 2 [[3%R; 3%R]])
              (mkMat 1 1 [[4%R]]) (mkMat 1 1 [[5%R]]) 1 2 [0%Z] 1 L2 L3
              (conj eq_refl (conj eq_refl (conj eq_refl (conj eq_refl eq_refl)))))
    as (P2 & P3 & _ & _ & _ & _ & _ & HA & _).
  split; [rewrite P2, P3; reflexivity|].
  eexists; split; [exact P3|].
  apply HA; lia.
Defined.

End ColumnOrderClaim.

(** ** Coefficient Synthesizer *)

Section SynthesizerFacts.

Import Num Frame Assembler Extractor Synthesizer Attenuation.
Local Open Scope string_scope.

Lemma sum_over_S (n : nat) (term : nat -> num) :
  sum_over (S n) term = add (term 0) (sum_over n (fun j => term (S j))).
Proof.
  unfold sum_over; simpl; f_equal.
  rewrite <- seq_shift.
  generalize (seq 0 n) as l; induction l as [|j t IH]; simpl; [reflexivity|].
  rewrite IH; reflexivity.
Qed.

Lemma sum_over_ext (n : nat) (f g : nat -> num) :
  (forall j, j < n -> f j = g j) -> sum_over n f = sum_over n g.
Proof.
  intros H; unfold sum_over.
  assert (Hl : forall l, (forall j, In j l -> f j = g j) ->
               fold_right (fun j acc => add (f j) acc) (Some 0%R) l
               = fold_right (fun j acc => add (g j) acc) (Some 0%R) l).
  { induction l as [|j t IH]; simpl; intros Hin; [reflexivity|].
    rewrite (Hin j (or_introl eq_refl)), IH; [reflexivity|].
    intros j' Hj'; apply Hin; right; exact Hj'. }
  apply Hl; intros j Hj; apply in_seq in Hj; apply H; lia.
Qed.

(** The dot product of [matvec] is the sum over the valid cells. *)
Lemma dot_weighted_sum (n : nat) (r v : list num) :
  length r = n -> length v = n -> dot r v = weighted_sum n r v.
Proof.
  revert r v; induction n as [|n IH]; intros [|a r] [|b v] Hr Hv;
    try discriminate; [reflexivity|].
  unfold weighted_sum; rewrite sum_over_S; simpl.
  f_equal; apply IH; simpl in *; lia.
Qed.

Lemma matvec_nth (k : nat) (M : list (list num)) (v out : list num) (i : nat)
    (row : list num) :
  matvec k M v = Some out -> nth_error M i = Some row ->
  length v = k /\ length out = length M /\ nth_error out i = Some (dot row v).
Proof.
  unfold matvec; intros H Hrow; inv_bind H; inversion H; subst out.
  apply Nat.eqb_eq in Hg.
  rewrite length_map, nth_error_map, Hrow; auto.
Qed.

Lemma cell_stat_nth (stat : list R -> num) (df : PostFrame) (ids : list Z)
    (out : list num) (j : nat) (id : Z) :
  cell_stat stat df ids = Some out -> nth_error ids j = Some id ->
  exists draws, loc_col df ("c_cap." ++ fmt_int id) = Some draws /\
                nth_error out j = Some (stat draws).
Proof.
  unfold cell_stat; intros H Hj.
  destruct (mapM_nth_error _ _ _ H _ _ Hj) as (b & Hb & Hout).
  unfold col_stat in Hb; inv_bind Hb; inversion Hb; subst b.
  eexists; split; eassumption.
Qed.

Lemma group_stat_nth (stat : list R -> num) (df : PostFrame) (prefix : string) (n : nat)
    (out : list num) (g : nat) :
  group_stat stat df prefix n = Some out -> g < n ->
  exists draws, loc_col df (prefix ++ fmt_nat g) = Some draws /\
                nth_error out g = Some (stat draws).
Proof.
  unfold group_stat; intros H Hg.
  assert (Hs : nth_error (seq 0 n) g = Some g).
  { rewrite nth_error_nth' with (d := 0) by (rewrite length_seq; exact Hg).
    rewrite seq_nth by exact Hg; reflexivity. }
  destruct (mapM_nth_error _ _ _ H _ _ Hs) as (b & Hb & Hout).
  unfold col_stat in Hb; inv_bind Hb; inversion Hb; subst b.
  eexists; split; eassumption.
Qed.

Lemma group_stat_length (stat : list R -> num) (df : PostFrame) (prefix : string) (n : nat)
    (out : list num) :
  group_stat stat df prefix n = Some out -> length out = n.
Proof.
  unfold group_stat; intros H; rewrite (mapM_length _ _ _ H); apply length_seq.
Qed.

Lemma take_nth {A : Type} (l out : list A) (idx : list nat) (i g : nat) :
  take l idx = Some out -> nth_error idx i = Some g ->
  g < length l /\ nth_error out i = nth_error l g.
Proof.
  unfold take; intros H Hi.
  destruct (mapM_nth_error _ _ _ H _ _ Hi) as (b & Hb & Hout).
  split; [apply nth_error_Some; congruence | congruence].
Qed.

Lemma take_length {A : Type} (l out : list A) (idx : list nat) :
  take l idx = Some out -> length out = length idx.
Proof. unfold take; apply mapM_length. Qed.

(** Broadcasting succeeds as soon as every index names a group. *)
Lemma broadcast_total (summary : list num) (inv : list nat) :
  Forall (fun g => g < length summary) inv ->
  exists out, broadcast summary inv = Some out.
Proof.
  intros H; unfold broadcast, take; apply mapM_total.
  intros g Hg; rewrite Forall_forall in H.
  destruct (nth_error summary g) as [x|] eqn:E; [eexists; reflexivity|].
  apply nth_error_None in E; specialize (H g Hg); lia.
Qed.

End SynthesizerFacts.

Section SynthesizerClaims.

Import Num Frame Assembler Extractor Synthesizer Attenuation Examples.
Local Open Scope string_scope.

(** C6.  For every record, the mean and the median of the cumulative
    attenuation are the sums over the valid cells of the record's distance
    in the cell times the mean (the median) of the cell's coefficient, and
    its standard deviation is the square root of the sum over the valid
    cells of the squared distance times the squared standard deviation of
    the cell's coefficient; the cell statistics are those of the draws of
    the column [c_cap.<id>]. *)
Theorem attenuation_per_record (df : PostFrame) (cell_ids_valid : list Z)
    (n_cell_valid : nat) (RC : list (list num)) (att : CellAttenuation)
    (i : nat) (dist : list num)
    (Hatt : attenuation df cell_ids_valid n_cell_valid RC = Some att)
    (Hrow : nth_error RC i = Some dist)
    (Hlen : length dist = n_cell_valid) :
  nth_error (cells_LcA_mu att) i
    = Some (weighted_sum n_cell_valid dist (cells_ca_mu att)) /\
  nth_error (cells_LcA_med att) i
    = Some (weighted_sum n_cell_valid dist (cells_ca_med att)) /\
  nth_error (cells_LcA_sig att) i
    = Some (root_sum_squares n_cell_valid dist (cells_ca_sig att)) /\
  length (cells_LcA_mu att) = length RC /\
  length (cells_ca_mu att) = n_cell_valid /\
  length cell_ids_valid = n_cell_valid /\
  (forall j id, nth_error cell_ids_valid j = Some id ->
     exists draws,
       loc_col df ("c_cap." ++ fmt_int id) = Some draws /\
       nth_error (cells_ca_mu att) j = Some (mean draws) /\
       nth_error (cells_ca_med att) j = Some (median draws) /\
       nth_error (cells_ca_sig att) j = Some (std draws)).
Proof.
  unfold attenuation in Hatt; inv_bind Hatt.
  inversion Hatt; subst att; clear Hatt; simpl.
  rename x into ca_mu, x0 into ca_med, x1 into ca_sig,
         x2 into LcA_mu, x3 into LcA_med, x4 into sq.
  destruct (matvec_nth _ _ _ _ _ _ Hx2 Hrow) as (Lmu & Lout & Hmu).
  destruct (matvec_nth _ _ _ _ _ _ Hx3 Hrow) as (Lmed & _ & Hmed).
  assert (Hrow2 : nth_error (map (map square) RC) i = Some (map square dist))
    by (rewrite nth_error_map, Hrow; reflexivity).
  destruct (matvec_nth _ _ _ _ _ _ Hx4 Hrow2) as (Lsig & _ & Hsig).
  rewrite length_map in Lsig.
  split; [rewrite Hmu; f_equal; apply dot_weighted_sum; assumption|].
  split; [rewrite Hmed; f_equal; apply dot_weighted_sum; assumption|].
  split.
  { rewrite nth_error_map, Hsig; simpl; f_equal; unfold root_sum_squares; f_equal.
    rewrite (dot_weighted_sum n_cell_valid) by (rewrite length_map; assumption).
    apply sum_over_ext; intros j Hj.
    rewrite (nth_indep (map square dist) NaN (square NaN))
      by (rewrite length_map; lia).
    rewrite (nth_indep (map square ca_sig) NaN (square NaN))
      by (rewrite length_map; lia).
    rewrite !(map_nth square); reflexivity. }
  split; [exact Lout|].
  split; [exact Lmu|].
  split; [unfold cell_stat in Hx; rewrite <- (mapM_length _ _ _ Hx); exact Lmu|].
  intros j id Hj.
  destruct (cell_stat_nth _ _ _ _ _ _ Hx Hj) as (d1 & Hd1 & Hm1).
  destruct (cell_stat_nth _ _ _ _ _ _ Hx0 Hj) as (d2 & Hd2 & Hm2).
  destruct (cell_stat_nth _ _ _ _ _ _ Hx1 Hj) as (d3 & Hd3 & Hm3).
  exists d1; split; [exact Hd1|]; repeat split; congruence.
Qed.

Lemma draws_frame_attenuation :
  exists att, attenuation draws_frame [0%Z; 1%Z] 2 [[Some 1%R; Some 2%R]] = Some att.
Proof. eexists; cbn; reflexivity. Qed.

Lemma attenuation_per_record_witness :
  exists att,
    attenuation draws_frame [0%Z; 1%Z] 2 [[Some 1%R; Some 2%R]] = Some att /\
    nth_error (cells_LcA_sig att) 0
    = Some (root_sum_squares 2 [Some 1%R; Some 2%R] (cells_ca_sig att)).
Proof.
  destruct draws_frame_attenuation as (att & Hatt).
  exists att; split; [exact Hatt|].
  apply (attenuation_per_record draws_frame [0%Z; 1%Z] 2 [[Some 1%R; Some 2%R]] att 0
           [Some 1%R; Some 2%R] Hatt eq_refl eq_refl).
Defined.

(** C9.  The per-record arrays of a group-level term depend on the
    posterior only through the group summaries and on the records only
    through the 0-based inverse index: two runs with equal summaries and
    the same index produce the same arrays, which hold, record by record
    and in record order, the summary of the record's group. *)
Theorem broadcast_pure (df1 df2 : PostFrame) (prefix : string) (n : nat) (inv : list nat)
    (Hmu : group_stat mean df1 prefix n = group_stat mean df2 prefix n)
    (Hmed : group_stat median df1 prefix n = group_stat median df2 prefix n)
    (Hsig : group_stat std df1 prefix n = group_stat std df2 prefix n) :
  group_term df1 prefix n inv = group_term df2 prefix n inv /\
  forall t, group_term df1 prefix n inv = Some t ->
    exists mu med sig,
      group_stat mean df1 prefix n = Some mu /\
      group_stat median df1 prefix n = Some med /\
      group_stat std df1 prefix n = Some sig /\
      length (t_mu t) = length inv /\
      length (t_med t) = length inv /\
      length (t_sig t) = length inv /\
      forall i g, nth_error inv i = Some g ->
        g < n /\
        nth_error (t_mu t) i = nth_error mu g /\
        nth_error (t_med t) i = nth_error med g /\
        nth_error (t_sig t) i = nth_error sig g.
Proof.
  split; [unfold group_term; rewrite Hmu, Hmed, Hsig; reflexivity|].
  intros t Ht; unfold group_term, broadcast in Ht; inv_bind Ht.
  inversion Ht; subst t; clear Ht; simpl.
  exists x, x1, x3; repeat split; try assumption;
    try (eapply take_length; eassumption).
  - rewrite <- (group_stat_length _ _ _ _ _ Hx).
    eapply take_nth; eassumption.
  - eapply take_nth; eassumption.
  - eapply take_nth; eassumption.
  - eapply take_nth; eassumption.
Qed.

Lemma broadcast_pure_witness :
  group_term draws_frame "dc_1e." 1 [0; 0; 0]
  = group_term draws_frame_reordered "dc_1e." 1 [0; 0; 0].
Proof.
  apply (broadcast_pure draws_frame draws_frame_reordered "dc_1e." 1 [0; 0; 0]
           eq_refl eq_refl eq_refl).
Defined.

End SynthesizerClaims.

(** ** Residual Decomposer *)

Section DecomposerFacts.

Import Num Frame Assembler Extractor Synthesizer.
Local Open Scope string_scope.

Lemma np_binop_same_length (f : num -> num -> num) (a b c : list num) :
  np_binop f a b = Some c -> length a = length b ->
  c = map (fun p => f (fst p) (snd p)) (combine a b).
Proof.
  unfold np_binop; intros H Hl; rewrite Hl, Nat.eqb_refl in H; congruence.
Qed.

Lemma np_binop_nth_same (f : num -> num -> num) (a b c : list num) (i : nat) (x y : num) :
  np_binop f a b = Some c -> length a = length b ->
  nth_error a i = Some x -> nth_error b i = Some y ->
  nth_error c i = Some (f x y).
Proof.
  intros H Hl Ha Hb; rewrite (np_binop_same_length f a b c H Hl).
  rewrite nth_error_map.
  assert (Hc : nth_error (combine a b) i = Some (x, y)).
  { clear H; revert b i Hl Ha Hb; induction a as [|a0 a IH]; intros [|b0 b] [|i];
      simpl; intros; try discriminate; [congruence|].
    apply IH; auto. }
  rewrite Hc; reflexivity.
Qed.

Lemma np_binop_length_same (f : num -> num -> num) (a b c : list num) :
  np_binop f a b = Some c -> length a = length b -> length c = length a.
Proof.
  intros H Hl; rewrite (np_binop_same_length f a b c H Hl).
  rewrite length_map, length_combine, Hl; apply Nat.min_id.
Qed.

(** Entry [i] of [a - b] when the result is as long as [b]: the entry of
    [b] is subtracted from an entry of [a]. *)
Lemma np_binop_right (f : num -> num -> num) (a b c : list num) (i : nat) (y : num) :
  np_binop f a b = Some c -> length c = length b ->
  nth_error b i = Some y ->
  exists x, In x a /\ nth_error c i = Some (f x y).
Proof.
  unfold np_binop; intros H Hl Hb.
  destruct (Nat.eqb (length a) (length b)) eqn:E.
  - apply Nat.eqb_eq in E.
    destruct (nth_error a i) as [x|] eqn:Ha.
    + exists x; split; [eapply nth_error_In; exact Ha|].
      apply (np_binop_nth_same f a b c i x y); auto.
      unfold np_binop; rewrite E, Nat.eqb_refl; exact H.
    + apply nth_error_None in Ha.
      assert (i < length b) by (apply nth_error_Some; congruence); lia.
  - apply Nat.eqb_neq in E.
    destruct a as [|x [|x' a]].
    + destruct b as [|y0 [|y1 b]]; try discriminate.
      inversion H; subst c; simpl in Hl; discriminate.
    + inversion H; subst c; exists x; split; [left; reflexivity|].
      rewrite nth_error_map, Hb; reflexivity.
    + destruct b as [|y0 [|y1 b]]; try discriminate.
      inversion H; subst c; simpl in Hl; discriminate.
Qed.

Lemma loc_col_length (df : PostFrame) (name : string) (col : list R) :
  loc_col df name = Some col -> length col = length (mrows (pf_mat df)).
Proof.
  unfold loc_col; destruct (name_positions _ _) as [|j [|? ?]]; try discriminate.
  intros H; inversion H; apply column_at_length.
Qed.

Lemma mean_None (l : list R) : mean l = None -> l = [].
Proof. destruct l; [reflexivity | discriminate]. Qed.

Lemma times_ones_nth (s : num) (n i : nat) :
  i < n -> nth_error (times_ones s n) i = Some (mul s (Some 1%R)).
Proof.
  intros H; unfold times_ones; rewrite nth_error_map.
  rewrite (nth_error_nth' _ (Some 1%R)) by (rewrite repeat_length; exact H).
  rewrite nth_repeat; reflexivity.
Qed.

Lemma times_ones_length (s : num) (n : nat) : length (times_ones s n) = n.
Proof. unfold times_ones; rewrite length_map; apply repeat_length. Qed.

Lemma vstack_lengths (arrays out : list (list num)) (a : list num) (t : list (list num)) :
  arrays = a :: t -> vstack arrays = Some out ->
  Forall (fun b => length b = length a) t.
Proof.
  intros -> H; unfold vstack in H; inv_bind H.
  apply Forall_forall; intros b Hb.
  rewrite forallb_forall in Hg; apply Nat.eqb_eq, Hg, Hb.
Qed.

(** With no draw at all every mean is NaN, the constant term included. *)
Lemma constant_term_NaN (df : PostFrame) (n i : nat) (c0 : Term) :
  constant_term df n = Some c0 -> length (mrows (pf_mat df)) = 0 -> i < n ->
  nth_error (t_mu c0) i = Some NaN.
Proof.
  unfold constant_term, col_stat; intros H Hz Hi; inv_bind H.
  inversion H; subst c0; simpl.
  rewrite times_ones_nth by exact Hi.
  apply bind_Some in Hx; destruct Hx as (col & Hcol & Hmean).
  inversion Hmean; subst x.
  apply loc_col_length in Hcol; rewrite Hz in Hcol.
  destruct col; [reflexivity | discriminate].
Qed.

End DecomposerFacts.

Section DecomposerClaims.

Import Num Frame Assembler Extractor Synthesizer Examples.
Local Open Scope string_scope.

Lemma decompose_entries (df : PostFrame) (n_eq : nat) (eq_inv : list nat)
    (y_data c0 c1e c1as c1bs LcA : list num) (res : Residuals) (n i : nat) :
  decompose df n_eq eq_inv y_data c0 c1e c1as c1bs LcA = Some res ->
  length y_data = n ->
  length c0 = n -> length c1e = n -> length c1as = n -> length c1bs = n ->
  length LcA = n ->
  length (res_between res) = n ->
  i < n ->
  exists y v0 v1 v2 v3 v4 g draws,
    nth_error c0 i = Some v0 /\ nth_error c1e i = Some v1 /\
    nth_error c1as i = Some v2 /\ nth_error c1bs i = Some v3 /\
    nth_error LcA i = Some v4 /\
    nth_error (y_mu res) i = Some (add (add (add (add v0 v1) v2) v3) v4) /\
    nth_error y_data i = Some y /\
    nth_error (res_tot res) i = Some (sub y (add (add (add (add v0 v1) v2) v3) v4)) /\
    nth_error eq_inv i = Some g /\ g < n_eq /\
    loc_col df ("dB." ++ fmt_nat g) = Some draws /\
    nth_error (res_between res) i = Some (mean draws) /\
    nth_error (res_within res) i
    = Some (sub (sub y (add (add (add (add v0 v1) v2) v3) v4)) (mean draws)) /\
    length (y_mu res) = n /\ length (res_tot res) = n /\ length (res_within res) = n.
Proof.
  intros H Ly L0 L1 L2 L3 L4 Lbtw Hi.
  unfold decompose in H; inv_bind H; inversion H; subst res; clear H; simpl in *.
  rename x into s1, x0 into s2, x1 into s3, x2 into ymu, x3 into tot,
         x4 into means, x5 into btw, x6 into wth.
  unfold np_add in *; unfold np_sub in *.
  assert (Ls1 : length s1 = n)
    by (rewrite (np_binop_length_same _ _ _ _ Hx); congruence).
  assert (Ls2 : length s2 = n)
    by (rewrite (np_binop_length_same _ _ _ _ Hx0); congruence).
  assert (Ls3 : length s3 = n)
    by (rewrite (np_binop_length_same _ _ _ _ Hx1); congruence).
  assert (Lmu : length ymu = n)
    by (rewrite (np_binop_length_same _ _ _ _ Hx2); congruence).
  assert (Ltot : length tot = n)
    by (rewrite (np_binop_length_same _ _ _ _ Hx3); congruence).
  assert (Lw : length wth = n)
    by (rewrite (np_binop_length_same _ _ _ _ Hx6); congruence).
  assert (Hget : forall l : list num, length l = n -> exists v, nth_error l i = Some v).
  { intros l Hl; destruct (nth_error l i) as [v|] eqn:E; [eauto|].
    apply nth_error_None in E; lia. }
  destruct (Hget c0 L0) as (v0 & E0), (Hget c1e L1) as (v1 & E1),
           (Hget c1as L2) as (v2 & E2), (Hget c1bs L3) as (v3 & E3),
           (Hget LcA L4) as (v4 & E4), (Hget y_data Ly) as (y & Ey).
  pose proof (np_binop_nth_same _ _ _ _ _ _ _ Hx ltac:(congruence) E0 E1) as N1.
  pose proof (np_binop_nth_same _ _ _ _ _ _ _ Hx0 ltac:(congruence) N1 E2) as N2.
  pose proof (np_binop_nth_same _ _ _ _ _ _ _ Hx1 ltac:(congruence) N2 E3) as N3.
  pose proof (np_binop_nth_same _ _ _ _ _ _ _ Hx2 ltac:(congruence) N3 E4) as N4.
  pose proof (np_binop_nth_same _ _ _ _ _ _ _ Hx3 ltac:(congruence) Ey N4) as Ntot.
  assert (Linv : length eq_inv = n) by (rewrite <- (take_length _ _ _ Hx5); exact Lbtw).
  destruct (nth_error eq_inv i) as [g|] eqn:Eg;
    [|apply nth_error_None in Eg; lia].
  destruct (take_nth _ _ _ _ _ Hx5 Eg) as (Hg & Nb).
  rewrite (group_stat_length _ _ _ _ _ Hx4) in Hg.
  destruct (group_stat_nth _ _ _ _ _ _ Hx4 Hg) as (draws & Hd & Nm).
  rewrite Nm in Nb.
  pose proof (np_binop_nth_same _ _ _ _ _ _ _ Hx6 ltac:(congruence) Ntot Nb) as Nw.
  exists y, v0, v1, v2, v3, v4, g, draws.
  repeat split; assumption.
Qed.

End DecomposerClaims.

Section ExampleRun.

Import Num Frame Assembler Extractor Synthesizer Examples.
Local Open Scope string_scope.

Lemma tables_run :
  exists a out,
    assemble tables "res" 0%R = Some a /\ n_data a = 2 /\
    postprocess tables a 2 fit = Some out.
Proof.
  eexists; eexists; split; [unfold assemble; cbn; decide_R; cbn; reflexivity|].
  split; [reflexivity|].
  unfold postprocess; cbn; reflexivity.
Qed.

End ExampleRun.

(** ** Distance columns of a table with distinct column names *)

Section DistanceColumns.

Import Num Frame Assembler CellTables.
Local Open Scope string_scope.

Lemma filter_key_fst {K A : Type} (eqb : K -> K -> bool)
    (eqb_eq : forall x y, eqb x y = true <-> x = y)
    (table : list (K * A)) (k : K) :
  NoDup (map fst table) ->
  map fst (filter (fun e => eqb (fst e) k) table) = [k] \/
  filter (fun e => eqb (fst e) k) table = [].
Proof.
  induction table as [|x t IH]; simpl; intros Hnd; [right; reflexivity|].
  inversion Hnd as [|? ? Hnin Hnd']; subst.
  destruct (eqb (fst x) k) eqn:E.
  - apply eqb_eq in E; left; simpl; rewrite E; f_equal.
    destruct (filter (fun e => eqb (fst e) k) t) as [|y r] eqn:F; [reflexivity|].
    exfalso; apply Hnin; rewrite E.
    assert (Hy : In y (filter (fun e => eqb (fst e) k) t)) by (rewrite F; left; reflexivity).
    apply filter_In in Hy; destruct Hy as (Hy & Hk); apply eqb_eq in Hk.
    rewrite <- Hk; apply in_map; exact Hy.
  - apply IH; exact Hnd'.
Qed.

Lemma select_all_keys {K A : Type} (eqb : K -> K -> bool)
    (eqb_eq : forall x y, eqb x y = true <-> x = y)
    (table : list (K * A)) (keys : list K) (l : list (K * A)) :
  NoDup (map fst table) -> select_all eqb table keys = Some l -> map fst l = keys.
Proof.
  intros Hnd; unfold select_all; revert l; induction keys as [|k t IH]; simpl; intros l H.
  - inversion H; reflexivity.
  - destruct (filter (fun e => eqb (fst e) k) table) as [|e r] eqn:F; [discriminate|].
    destruct (Err.mapM _ t) as [ls|] eqn:M; [|discriminate].
    cbn [Err.bind] in H; inversion H; subst l; clear H.
    change (e :: r ++ concat ls)%list with ((e :: r) ++ concat ls)%list.
    rewrite map_app, (IH (concat ls) eq_refl).
    destruct (filter_key_fst eqb eqb_eq table k Hnd) as [Hk|Hk];
      rewrite F in Hk; [|discriminate].
    rewrite Hk; reflexivity.
Qed.

(** The distance matrix selected from a table whose column names do not
    repeat has one column per cell name, in the order of the names. *)
Lemma select_float_cols_names (df : DataFrame) (names : list string)
    (all : list (string * list num)) :
  NoDup (map fst (columns df)) ->
  select_float_cols df (map Some names) = Some all ->
  map fst all = names.
Proof.
  unfold select_float_cols; intros Hnd H; inv_bind H.
  assert (Hns : x = names).
  { clear -Hx; revert x Hx; induction names as [|n t IH]; simpl; intros x Hx.
    - inversion Hx; reflexivity.
    - destruct (Err.mapM (fun n0 => n0) (map Some t)) as [r|] eqn:E; [|discriminate].
      inversion Hx; subst x; f_equal; apply IH; reflexivity. }
  subst x.
  pose proof (select_all_keys String.eqb String.eqb_eq _ _ _ Hnd Hx0) as Hk.
  rewrite <- Hk; clear -H.
  revert all H; induction x0 as [|c t IH]; simpl; intros all H.
  - inversion H; reflexivity.
  - destruct (to_float (snd c)) as [v|]; [|discriminate]; simpl in H.
    destruct (Err.mapM _ t) as [r|] eqn:E; [|discriminate].
    inversion H; subst all; simpl; f_equal; apply IH; reflexivity.
Qed.

End DistanceColumns.

(** ** Further properties of the Index Builder *)

Section IndexBuilderMore.

Import IndexBuilder.

Lemma strictly_sorted_ext (l1 l2 : list Z) :
  StronglySorted Z.lt l1 -> StronglySorted Z.lt l2 ->
  (forall x, In x l1 <-> In x l2) -> l1 = l2.
Proof.
  intros H1; revert l2; induction H1 as [|a t1 Hs1 IH Ha]; intros l2 H2 Hin.
  - destruct l2 as [|b t2]; [reflexivity|].
    exfalso; apply (proj2 (Hin b)); left; reflexivity.
  - destruct H2 as [|b t2 Hs2 Hb].
    + exfalso; apply (proj1 (Hin a)); left; reflexivity.
    + rewrite Forall_forall in Ha, Hb.
      assert (Hab : a = b).
      { destruct (proj1 (Hin a) (or_introl eq_refl)) as [E|E]; [auto|].
        destruct (proj2 (Hin b) (or_introl eq_refl)) as [E'|E']; [auto|].
        specialize (Ha b E'); specialize (Hb a E); lia. }
      subst b; f_equal; apply IH; [exact Hs2|].
      intros x; split; intros Hx.
      * destruct (proj1 (Hin x) (or_intror Hx)) as [E|E]; [|exact E].
        subst x; specialize (Ha a Hx); lia.
      * destruct (proj2 (Hin x) (or_intror Hx)) as [E|E]; [|exact E].
        subst x; specialize (Hb a Hx); lia.
Qed.

(** X1.  The list of groups, their number and the group index of a key
    depend only on the set of keys present: reordering the records, or
    repeating some, changes neither the group list nor the index given
    to a key. *)
Theorem groups_depend_on_key_set (keys keys' : list Z) (i i' : nat) (k : Z)
    (Hset : forall x, In x keys <-> In x keys')
    (Hi : nth_error keys i = Some k) (Hi' : nth_error keys' i' = Some k) :
  u_values (np_unique keys) = u_values (np_unique keys') /\
  nth_error (u_inverse (np_unique keys)) i = nth_error (u_inverse (np_unique keys')) i'.
Proof.
  assert (Hu : sorted_unique keys = sorted_unique keys').
  { apply strictly_sorted_ext; try apply sorted_unique_sorted.
    intros x; rewrite !sorted_unique_In; apply Hset. }
  split; [exact Hu|].
  rewrite (np_unique_inverse_nth _ _ _ Hi), (np_unique_inverse_nth _ _ _ Hi'), Hu.
  reflexivity.
Qed.

Lemma groups_depend_on_key_set_witness :
  u_values (np_unique [5; 3; 5]%Z) = u_values (np_unique [3; 5]%Z) /\
  nth_error (u_inverse (np_unique [5; 3; 5]%Z)) 2
  = nth_error (u_inverse (np_unique [3; 5]%Z)) 1.
Proof.
  apply (groups_depend_on_key_set [5; 3; 5]%Z [3; 5]%Z 2 1 5%Z);
    [simpl; intuition | reflexivity | reflexivity].
Defined.

(** X2.  The row index and the inverse index of [np.unique] are inverse
    to each other on the groups: the record taken as the representative
    of group [g] has group index [g], and carries the key of the group. *)
Theorem representative_round_trip (keys : list Z) (g : nat)
    (Hg : g < length (u_values (np_unique keys))) :
  exists p k,
    nth_error (u_index (np_unique keys)) g = Some p /\
    nth_error (u_values (np_unique keys)) g = Some k /\
    nth_error keys p = Some k /\
    nth_error (u_inverse (np_unique keys)) p = Some g.
Proof.
  destruct (nth_error (u_values (np_unique keys)) g) as [k|] eqn:Hk;
    [|apply nth_error_None in Hk; lia].
  simpl in Hk.
  assert (Hin : In k keys) by (apply sorted_unique_In; eapply nth_error_In; exact Hk).
  exists (index_of k keys), k.
  split; [simpl; rewrite nth_error_map, Hk; reflexivity|].
  split; [reflexivity|].
  split; [apply index_of_nth_error; exact Hin|].
  rewrite (np_unique_inverse_nth keys _ k (index_of_nth_error _ _ Hin)); f_equal.
  apply index_of_NoDup; [apply strictly_sorted_NoDup, sorted_unique_sorted | exact Hk].
Qed.

Lemma representative_round_trip_witness :
  exists p k,
    nth_error (u_index (np_unique [7; 4; 7]%Z)) 1 = Some p /\
    nth_error (u_values (np_unique [7; 4; 7]%Z)) 1 = Some k /\
    nth_error [7; 4; 7]%Z p = Some k /\
    nth_error (u_inverse (np_unique [7; 4; 7]%Z)) p = Some 1.
Proof.
  apply (representative_round_trip [7; 4; 7]%Z 1); simpl; lia.
Defined.

End IndexBuilderMore.

(** ** Further properties of the in-place indexing *)

Section PreprocessMore.

Import Num Frame Assembler Extractor Synthesizer Examples MoreExamples.
Local Open Scope string_scope.

Lemma ensure_index_result_named (df df' : DataFrame) (name : string) :
  ensure_index df name = Some df' -> index_named df' name = true.
Proof.
  unfold ensure_index; destruct (index_named df name) eqn:E; intros H.
  - inversion H; subst; exact E.
  - unfold set_index in H; destruct (find_col df name) as [[v|v|v]|]; try discriminate.
    inversion H; subst; unfold index_named; simpl; apply String.eqb_refl.
Qed.

Lemma RunStan_fails_with_preprocess (s s' : store) (res_name : string) (c_a_erg : R)
    (pystan_ver : Z) (sampler : StanData -> option Fit) :
  preprocess s = (s', None) ->
  RunStan s res_name c_a_erg pystan_ver sampler = (s', None).
Proof. unfold RunStan; intros ->; reflexivity. Qed.

(** The three tables are indexed in place in the order records,
    cell distances, cell metadata, and the first table that cannot be
    indexed (it is not indexed by its key and has no such integer column)
    stops the run: the tables indexed before it stay re-indexed in the
    caller's objects, the failing table and those after it are untouched. *)
Theorem indexing_failure_keeps_earlier_updates (s : store) (res_name : string)
    (c_a_erg : R) (pystan_ver : Z) (sampler : StanData -> option Fit) :
  (ensure_index (df_flatfile s) "rsn" = None ->
   RunStan s res_name c_a_erg pystan_ver sampler = (s, None)) /\
  (forall ff,
     ensure_index (df_flatfile s) "rsn" = Some ff ->
     ensure_index (df_celldist s) "rsn" = None ->
     RunStan s res_name c_a_erg pystan_ver sampler
     = (mkStore ff (df_cellinfo s) (df_celldist s), None)) /\
  (forall ff cd,
     ensure_index (df_flatfile s) "rsn" = Some ff ->
     ensure_index (df_celldist s) "rsn" = Some cd ->
     ensure_index (df_cellinfo s) "cellid" = None ->
     RunStan s res_name c_a_erg pystan_ver sampler
     = (mkStore ff (df_cellinfo s) cd, None)).
Proof.
  repeat split.
  - intros H; apply RunStan_fails_with_preprocess; unfold preprocess; rewrite H; reflexivity.
  - intros ff Hf Hc; apply RunStan_fails_with_preprocess; unfold preprocess.
    rewrite Hf, Hc; reflexivity.
  - intros ff cd Hf Hc Hi; apply RunStan_fails_with_preprocess; unfold preprocess.
    rewrite Hf, Hc, Hi; reflexivity.
Qed.

Lemma indexing_failure_keeps_earlier_updates_witness :
  RunStan tables_nokey "res" 0%R 2%Z (fun _ => Some fit)
  = (mkStore flatfile cellinfo_raw celldist_nokey, None) /\
  flatfile <> df_flatfile tables_nokey.
Proof.
  split.
  - destruct (indexing_failure_keeps_earlier_updates tables_nokey "res" 0%R 2%Z
                (fun _ => Some fit)) as (_ & H & _).
    apply (H flatfile); reflexivity.
  - intros H; apply (f_equal index_name) in H; discriminate.
Defined.

(** X3.  Once the three tables have been indexed by a run, they are in the
    form that the indexing step skips: indexing them again succeeds and
    changes nothing, so a second run on the same objects leaves them as
    the first run left them. *)
Theorem indexing_idempotent (s s' : store) (res_name : string) (c_a_erg : R)
    (pystan_ver : Z) (sampler : StanData -> option Fit)
    (Hfirst : preprocess s = (s', Some tt)) :
  preprocess s' = (s', Some tt) /\
  fst (RunStan s' res_name c_a_erg pystan_ver sampler) = s'.
Proof.
  assert (Hp : preprocess s' = (s', Some tt)).
  { unfold preprocess in Hfirst.
    destruct (ensure_index (df_flatfile s) "rsn") as [ff|] eqn:Hf; [|discriminate].
    destruct (ensure_index (df_celldist s) "rsn") as [cd|] eqn:Hc; [|discriminate].
    destruct (ensure_index (df_cellinfo s) "cellid") as [ci|] eqn:Hi; [|discriminate].
    inversion Hfirst; subst s'; clear Hfirst.
    apply ensure_index_result_named in Hf, Hc, Hi.
    unfold preprocess; simpl.
    rewrite (ensure_index_named _ _ Hf); simpl.
    rewrite (ensure_index_named _ _ Hc); simpl.
    rewrite (ensure_index_named _ _ Hi); reflexivity. }
  split; [exact Hp|].
  rewrite RunStan_store, Hp; reflexivity.
Qed.

Lemma indexing_idempotent_witness :
  preprocess tables = (tables, Some tt) /\
  fst (RunStan tables "res" 0%R 2%Z (fun _ => Some fit)) = tables.
Proof.
  apply (indexing_idempotent tables_raw tables "res" 0%R 2%Z (fun _ => Some fit)).
  reflexivity.
Defined.

End PreprocessMore.

(** ** Further properties of the payload *)

Section PayloadMore.

Import Num Frame Assembler IndexBuilder Examples.
Local Open Scope string_scope.

Lemma find_col_In (df : DataFrame) (name : string) (c : column) :
  find_col df name = Some c -> In (name, c) (columns df).
Proof.
  unfold find_col.
  destruct (filter (fun c0 => String.eqb (fst c0) name) (columns df)) as [|e [|e' r]] eqn:F;
    try discriminate.
  intros H; inversion H; subst c.
  assert (He : In e (filter (fun c0 => String.eqb (fst c0) name) (columns df)))
    by (rewrite F; left; reflexivity).
  apply filter_In in He; destruct He as (He & Hn).
  apply String.eqb_eq in Hn; subst name; destruct e; exact He.
Qed.

Lemma get_float_has_col (df : DataFrame) (name : string) (v : list num) :
  get_float df name = Some v -> has_col df name = true.
Proof.
  unfold get_float, has_col; destruct (find_col df name); [reflexivity | discriminate].
Qed.

Lemma get_int_has_col (df : DataFrame) (name : string) (v : list Z) :
  get_int df name = Some v -> has_col df name = true.
Proof.
  unfold get_int, has_col; destruct (find_col df name); [reflexivity | discriminate].
Qed.

Lemma get_str_has_col (df : DataFrame) (name : string) (v : list (option string)) :
  get_str df name = Some v -> has_col df name = true.
Proof.
  unfold get_str, has_col; destruct (find_col df name); [reflexivity | discriminate].
Qed.

Lemma get_float_length (df : DataFrame) (name : string) (v : list num) :
  wf_frame df -> get_float df name = Some v -> length v = length (index df).
Proof.
  unfold get_float; intros Hwf H; inv_bind H.
  apply find_col_In in Hx; unfold wf_frame in Hwf; rewrite Forall_forall in Hwf.
  specialize (Hwf _ Hx); simpl in Hwf; rewrite <- Hwf.
  destruct x; simpl in *; inversion H; subst; rewrite ?length_map; reflexivity.
Qed.

Lemma get_int_length (df : DataFrame) (name : string) (v : list Z) :
  wf_frame df -> get_int df name = Some v -> length v = length (index df).
Proof.
  unfold get_int; intros Hwf H; inv_bind H.
  apply find_col_In in Hx; unfold wf_frame in Hwf; rewrite Forall_forall in Hwf.
  specialize (Hwf _ Hx); simpl in Hwf; rewrite <- Hwf.
  destruct x; simpl in *; inversion H; subst; reflexivity.
Qed.

(** The columns that the assembly reads. *)
Lemma assemble_reads (s : store) (res_name : string) (c_a_erg : R) (a : Assembled) :
  assemble s res_name c_a_erg = Some a ->
  (forall n, In n ["eqid"; "mag"; "eqX"; "eqY"; "ssn"; "Vs30"; "staX"; "staY";
                   res_name; "Rrup"] ->
             has_col (df_flatfile s) n = true) /\
  (forall n, In n ["cellname"; "mptX"; "mptY"] -> has_col (df_cellinfo s) n = true).
Proof.
  unfold assemble; intros H; inv_bind H.
  unfold cell_filter in Hx13; inv_bind Hx13.
  split; intros n Hn; simpl in Hn;
    repeat (destruct Hn as [<-|Hn];
            [first [eapply get_int_has_col; eassumption
                   | eapply get_float_has_col; eassumption
                   | eapply get_str_has_col; eassumption]|]);
    contradiction.
Qed.

(** X4.  Every column that the assembly reads is required, also those
    that do not enter the payload ([mag], [Vs30], [Rrup]): when the
    records table lacks one of them, or the cell metadata lacks the cell
    names or the midpoints, no payload is built. *)
Theorem missing_column_no_payload (s : store) (res_name : string) (c_a_erg : R)
    (n : string)
    (Hmiss : (In n ["eqid"; "mag"; "eqX"; "eqY"; "ssn"; "Vs30"; "staX"; "staY";
                    res_name; "Rrup"] /\ has_col (df_flatfile s) n = false) \/
             (In n ["cellname"; "mptX"; "mptY"] /\ has_col (df_cellinfo s) n = false)) :
  assemble s res_name c_a_erg = None.
Proof.
  destruct (assemble s res_name c_a_erg) as [a|] eqn:E; [|reflexivity].
  destruct (assemble_reads _ _ _ _ E) as (Hf & Hc).
  destruct Hmiss as [(Hin & Hno)|(Hin & Hno)];
    [rewrite (Hf n Hin) in Hno | rewrite (Hc n Hin) in Hno]; discriminate.
Qed.

Lemma missing_column_no_payload_witness :
  assemble (mkStore (mkDF (Some "rsn") [1; 2]%Z
                       (filter (fun c => negb (String.eqb (fst c) "mag")) flat_columns))
                    cellinfo celldist) "res" 0%R = None.
Proof.
  apply (missing_column_no_payload _ "res" 0%R "mag").
  left; split; [simpl; auto | reflexivity].
Defined.

Lemma np_unique_inverse_dense (keys : list Z) (g : nat) :
  g < length (u_values (np_unique keys)) -> In g (u_inverse (np_unique keys)).
Proof.
  intros Hg.
  destruct (nth_error (sorted_unique keys) g) as [k|] eqn:Hk;
    [|apply nth_error_None in Hk; simpl in Hg; lia].
  assert (Hin : In k keys) by (apply sorted_unique_In; eapply nth_error_In; exact Hk).
  simpl; apply in_map_iff; exists k; split; [|exact Hin].
  apply index_of_NoDup; [apply strictly_sorted_NoDup, sorted_unique_sorted | exact Hk].
Qed.

Lemma np_unique_inverse_lt (keys : list Z) :
  Forall (fun g => g < length (u_values (np_unique keys))) (u_inverse (np_unique keys)).
Proof.
  apply Forall_forall; intros g Hg; simpl in Hg.
  apply in_map_iff in Hg; destruct Hg as (k & <- & Hk).
  apply index_of_lt, sorted_unique_In; exact Hk.
Qed.

End PayloadMore.

Section PayloadShape.

Import Num Frame Assembler IndexBuilder Examples.
Local Open Scope string_scope.

Lemma one_based_range (inv : list nat) (n : nat) :
  Forall (fun g => g < n) inv -> (forall g, g < n -> In g inv) ->
  Forall (fun e => 1 <= e <= n) (map S inv) /\
  (forall e, 1 <= e <= n -> In e (map S inv)).
Proof.
  intros Hlt Hd; split.
  - apply Forall_forall; intros e He; apply in_map_iff in He.
    destruct He as (g & <- & Hg); rewrite Forall_forall in Hlt; specialize (Hlt g Hg); lia.
  - intros e He; apply in_map_iff; exists (e - 1); split; [lia | apply Hd; lia].
Qed.

(** X5.  The group indices handed to the sampler are the 0-based inverse
    indices plus one: they lie in [1 .. NEQ] (stations: [1 .. NSTAT]) and
    every value of that range is the index of some record. *)
Theorem payload_indices_one_based (s : store) (res_name : string) (c_a_erg : R)
    (a : Assembled) (Hrun : assemble s res_name c_a_erg = Some a) :
  sd_eq (stan_data a) = map S (eq_inv a) /\
  sd_stat (stan_data a) = map S (sta_inv a) /\
  Forall (fun e => 1 <= e <= sd_NEQ (stan_data a)) (sd_eq (stan_data a)) /\
  (forall e, 1 <= e <= sd_NEQ (stan_data a) -> In e (sd_eq (stan_data a))) /\
  Forall (fun e => 1 <= e <= sd_NSTAT (stan_data a)) (sd_stat (stan_data a)) /\
  (forall e, 1 <= e <= sd_NSTAT (stan_data a) -> In e (sd_stat (stan_data a))).
Proof.
  destruct (assemble_inv _ _ _ _ Hrun)
    as (eqid & ssn & _ & _ & _ & _ & _ & _ & _ & _ & _ & He & Hne & Hs & Hns & _ & _
        & HNE & HNS & _ & Heq & Hst & _).
  rewrite Heq, Hst, HNE, HNS, He, Hne, Hs, Hns.
  destruct (one_based_range _ _ (np_unique_inverse_lt eqid) (np_unique_inverse_dense eqid))
    as (E1 & E2).
  destruct (one_based_range _ _ (np_unique_inverse_lt ssn) (np_unique_inverse_dense ssn))
    as (S1 & S2).
  repeat split; assumption.
Qed.

Lemma payload_indices_one_based_witness :
  exists a, assemble tables "res" 0%R = Some a /\
            Forall (fun e => 1 <= e <= sd_NSTAT (stan_data a)) (sd_stat (stan_data a)).
Proof.
  destruct tables_assembled as (a & Ha & _).
  exists a; split; [exact Ha|].
  destruct (payload_indices_one_based tables "res" 0%R a Ha) as (_ & _ & _ & _ & H & _).
  exact H.
Defined.

Lemma take_rows_length {A : Type} (d : A) (n : nat) (cols : list (list A))
    (idx : list nat) (data : list (list A)) :
  take (rows_of d n cols) idx = Some data ->
  length data = length idx /\ Forall (fun r => length r = length cols) data.
Proof.
  unfold take; intros H; split; [apply (mapM_length _ _ _ H)|].
  apply Forall_forall; intros r Hr; apply In_nth_error in Hr; destruct Hr as (j & Hj).
  assert (Hl : j < length idx).
  { rewrite <- (mapM_length _ _ _ H); apply nth_error_Some; congruence. }
  destruct (nth_error idx j) as [p|] eqn:Hp; [|apply nth_error_None in Hp; lia].
  destruct (mapM_nth_error _ _ _ H _ _ Hp) as (b & Hb & Hb').
  rewrite Hj in Hb'; inversion Hb'; subst b.
  apply nth_error_In in Hb; unfold rows_of in Hb; apply in_map_iff in Hb.
  destruct Hb as (i & <- & _); unfold row_at; apply length_map.
Qed.

Lemma rows_of_row_length {A : Type} (d : A) (n : nat) (cols : list (list A)) :
  Forall (fun r => length r = length cols) (rows_of d n cols).
Proof.
  apply Forall_forall; intros r Hr; unfold rows_of in Hr; apply in_map_iff in Hr.
  destruct Hr as (i & <- & _); unfold row_at; apply length_map.
Qed.

(** X6.  The shapes of the payload agree with its counts: the coordinate
    matrices of the earthquakes and stations have [NEQ] and [NSTAT] rows
    of two coordinates, the distance matrix has [N] rows of [NCELL]
    entries, the rows of the cell midpoints have two coordinates, and,
    for a records table whose columns have one cell per record, the
    index vectors, the observations and the zero prior mean have [N]
    entries. *)
Theorem payload_shapes (s : store) (res_name : string) (c_a_erg : R) (a : Assembled)
    (Hrun : assemble s res_name c_a_erg = Some a)
    (Hwf : wf_frame (df_flatfile s)) :
  let d := stan_data a in
  length (sd_X_e d) = sd_NEQ d /\ Forall (fun r => length r = 2) (sd_X_e d) /\
  length (sd_X_s d) = sd_NSTAT d /\ Forall (fun r => length r = 2) (sd_X_s d) /\
  Forall (fun r => length r = 2) (sd_X_c d) /\
  length (sd_RC d) = sd_N d /\ Forall (fun r => length r = sd_NCELL d) (sd_RC d) /\
  length (sd_eq d) = sd_N d /\ length (sd_stat d) = sd_N d /\
  length (sd_Y d) = sd_N d /\ sd_rec_mu d = repeat (Some 0%R) (sd_N d).
Proof.
  unfold assemble in Hrun; inv_bind Hrun.
  inversion Hrun; subst a; clear Hrun; cbn.
  pose proof (get_int_length _ _ _ Hwf Hx) as Le.
  pose proof (get_int_length _ _ _ Hwf Hx4) as Ls.
  pose proof (get_float_length _ _ _ Hwf Hx9) as Ly.
  repeat split.
  - apply length_map.
  - apply Forall_forall; intros r Hr; apply in_map_iff in Hr.
    destruct Hr as (r' & <- & _); reflexivity.
  - apply length_map.
  - apply Forall_forall; intros r Hr; apply in_map_iff in Hr.
    destruct Hr as (r' & <- & _); reflexivity.
  - unfold cell_filter in Hx13; inv_bind Hx13; inversion Hx13; subst x13; simpl.
    apply Forall_forall; intros r Hr; apply in_map_iff in Hr.
    destruct Hr as ((k & r') & <- & He); simpl.
    match goal with
    | H : select_all Z.eqb (combine _ (rows_of _ _ _)) _ = Some _ |- _ =>
        apply (select_all_incl _ _ _ _ H) in He
    end.
    apply in_combine_r in He.
    unfold rows_of in He; apply in_map_iff in He.
    destruct He as (i & <- & _); reflexivity.
  - apply length_rows_of.
  - rewrite <- (length_map snd); apply rows_of_row_length.
  - rewrite !length_map; exact Le.
  - rewrite !length_map; exact Ls.
  - exact Ly.
  - rewrite Ly; reflexivity.
Qed.

Lemma tables_flatfile_wf : wf_frame (df_flatfile tables).
Proof. unfold wf_frame; simpl; repeat constructor. Qed.

Lemma payload_shapes_witness :
  exists a, assemble tables "res" 0%R = Some a /\
            Forall (fun r => length r = sd_NCELL (stan_data a)) (sd_RC (stan_data a)).
Proof.
  destruct tables_assembled as (a & Ha & _).
  exists a; split; [exact Ha|].
  destruct (payload_shapes tables "res" 0%R a Ha tables_flatfile_wf)
    as (_ & _ & _ & _ & _ & _ & H & _).
  exact H.
Defined.

End PayloadShape.

(** ** The residual identity *)

Section ResidualIdentity.

Import Num Frame Assembler Extractor Synthesizer SelfCheck Examples.
Local Open Scope string_scope.

Lemma assemble_y_data (s : store) (res_name : string) (c_a_erg : R) (a : Assembled) :
  assemble s res_name c_a_erg = Some a ->
  get_float (df_flatfile s) res_name = Some (y_data a).
Proof.
  unfold assemble; intros H; inv_bind H.
  inversion H; subst a; clear H; cbn [y_data]; assumption.
Qed.

Lemma equal_Some (t u : R) : t = u -> equal (Some t) (Some u) = true.
Proof. intros ->; unfold equal; destruct (Req_dec_T u u); [reflexivity | contradiction]. Qed.

(** The claim of C1 fails: at the tables [tables_short], whose second
    record is absent from the distance table, the run produces its
    output and the observation of the record is the number 2, but its
    prediction, its total and its intra-event residual are NaN, and the
    comparison [total == inter + intra] is false for it. *)
Lemma absent_record_breaks_identity :
  exists a out inter,
    assemble tables_short "res" 0%R = Some a /\
    postprocess tables_short a 2 fit = Some out /\
    nth_error (y_data a) 1 = Some (Some 2%R) /\
    nth_error (y_mu (out_residuals out)) 1 = Some NaN /\
    nth_error (res_tot (out_residuals out)) 1 = Some NaN /\
    nth_error (res_between (out_residuals out)) 1 = Some (Some inter) /\
    nth_error (res_within (out_residuals out)) 1 = Some NaN /\
    identity_holds NaN (Some inter) NaN = false.
Proof.
  eexists; eexists; eexists.
  split; [unfold assemble; cbn; decide_R; cbn; reflexivity|].
  split; [unfold postprocess; cbn; reflexivity|].
  cbn; repeat split; reflexivity.
Qed.

(** C1.  For every record of every run that produces its output: the
    total residual is the record's own observation minus the combined
    mean prediction (the sum of the record's five mean coefficients),
    the inter-event residual is the posterior mean of [dB] of the
    record's earthquake, the intra-event residual is the total minus the
    inter-event residual, and [total == inter + intra] holds exactly
    when the observation and the prediction of the record are numbers;
    the three residuals are then numbers and the total is the sum of the
    other two. *)
Theorem residual_decomposition (s : store) (res_name : string) (c_a_erg : R)
    (a : Assembled) (pystan_ver : Z) (stan_fit : Fit) (out : Output) (i : nat)
    (Hwf : wf_frame (df_flatfile s))
    (Hasm : assemble s res_name c_a_erg = Some a)
    (Hrun : postprocess s a pystan_ver stan_fit = Some out)
    (Hrec : i < n_data a) :
  let res := out_residuals out in
  exists y v0 v1 v2 v3 v4 prediction total inter intra g draws,
    get_float (df_flatfile s) res_name = Some (y_data a) /\
    nth_error (y_data a) i = Some y /\
    nth_error (nth 0 (out_coeffs out) []) i = Some v0 /\
    nth_error (nth 1 (out_coeffs out) []) i = Some v1 /\
    nth_error (nth 2 (out_coeffs out) []) i = Some v2 /\
    nth_error (nth 3 (out_coeffs out) []) i = Some v3 /\
    nth_error (nth 4 (out_coeffs out) []) i = Some v4 /\
    prediction = add (add (add (add v0 v1) v2) v3) v4 /\
    nth_error (y_mu res) i = Some prediction /\
    nth_error (res_tot res) i = Some total /\
    nth_error (res_between res) i = Some inter /\
    nth_error (res_within res) i = Some intra /\
    total = sub y prediction /\
    nth_error (eq_inv a) i = Some g /\
    loc_col (out_posterior out) ("dB." ++ fmt_nat g) = Some draws /\
    inter = mean draws /\
    intra = sub total inter /\
    (identity_holds total inter intra = true <-> y <> NaN /\ prediction <> NaN) /\
    (forall t, total = Some t ->
       exists b w, inter = Some b /\ intra = Some w /\ t = (b + w)%R) /\
    length (res_tot res) = n_data a /\
    length (res_between res) = n_data a /\
    length (res_within res) = n_data a.
Proof.
  intros res; subst res.
  pose proof (assemble_y_data _ _ _ _ Hasm) as Hobs.
  assert (Ly : length (y_data a) = n_data a).
  { rewrite (get_float_length _ _ _ Hwf Hobs).
    destruct (assemble_inv _ _ _ _ Hasm)
      as (_ & _ & _ & _ & _ & _ & _ & _ & _ & _ & Hn & _); symmetry; exact Hn. }
  unfold postprocess in Hrun; inv_bind Hrun.
  inversion Hrun; subst out; clear Hrun; cbn [out_residuals out_posterior out_coeffs].
  rename x0 into df, x3 into c0, x8 into res.
  assert (V7 : x7 = [t_mu c0; t_mu x4; t_mu x5; t_mu x6; cells_LcA_mu x1;
                     t_med c0; t_med x4; t_med x5; t_med x6; cells_LcA_med x1;
                     t_sig c0; t_sig x4; t_sig x5; t_sig x6; cells_LcA_sig x1]).
  { pose proof Hx7 as V; unfold vstack in V; inv_bind V; congruence. }
  rewrite V7; cbn [nth].
  apply Nat.eqb_eq in Hg2, Hg3.
  pose proof (vstack_lengths _ _ _ _ eq_refl Hx7) as Hl7.
  pose proof (Forall_inv Hl7) as L1; apply Forall_inv_tail in Hl7.
  pose proof (Forall_inv Hl7) as L2; apply Forall_inv_tail in Hl7.
  pose proof (Forall_inv Hl7) as L3; apply Forall_inv_tail in Hl7.
  pose proof (Forall_inv Hl7) as L4; clear Hl7.
  pose proof (vstack_lengths _ _ _ _ eq_refl Hx9) as Hl9.
  pose proof (Forall_inv Hl9) as Lt; apply Forall_inv_tail in Hl9.
  pose proof (Forall_inv Hl9) as Lb; apply Forall_inv_tail in Hl9.
  pose proof (Forall_inv Hl9) as Lw; clear Hl9.
  destruct (decompose_entries df (n_eq a) (eq_inv a) (y_data a) _ _ _ _ _ res
              (n_data a) i Hx8 Ly Hg2 ltac:(congruence) ltac:(congruence)
              ltac:(congruence) ltac:(congruence) ltac:(congruence) Hrec)
    as (y & v0 & v1 & v2 & v3 & v4 & g & draws & E0 & E1 & E2 & E3 & E4 & Emu & Hy & Etot
        & Eg & Hg' & Hd & Eb & Ew & _ & _).
  remember (add (add (add (add v0 v1) v2) v3) v4) as p eqn:Hp.
  assert (Hinter : forall t, sub y p = Some t -> exists b, mean draws = Some b).
  { intros t Ht; destruct (mean draws) as [b|] eqn:Em; [eauto|].
    apply mean_None in Em; subst draws.
    apply loc_col_length in Hd; simpl in Hd; symmetry in Hd.
    rewrite (constant_term_NaN df (n_data a) i c0 Hx3 Hd Hrec) in E0.
    inversion E0; subst v0; subst p; destruct y; discriminate. }
  exists y, v0, v1, v2, v3, v4, p, (sub y p), (mean draws),
         (sub (sub y p) (mean draws)), g, draws.
  do 17 (split; [first [assumption | reflexivity]|]).
  split; [|split; [|repeat split; congruence]].
  - split.
    + intros Hid; split; intros Hnan; rewrite Hnan in Hid;
        [|destruct y]; discriminate.
    + intros (Hyn & Hpn).
      destruct y as [yv|]; [|contradiction]. destruct p as [pv|]; [|contradiction].
      destruct (Hinter _ eq_refl) as (b & ->).
      unfold identity_holds; simpl; apply equal_Some; ring.
  - intros t Ht; destruct (Hinter t Ht) as (b & Hb).
    rewrite Ht, Hb; simpl; exists b, (t - b)%R; repeat split; ring.
Qed.

Lemma tables_run_values :
  exists a out p,
    assemble tables "res" 0%R = Some a /\ n_data a = 2 /\
    postprocess tables a 2 fit = Some out /\
    nth_error (y_data a) 1 = Some (Some 2%R) /\
    nth_error (y_mu (out_residuals out)) 1 = Some (Some p).
Proof.
  eexists; eexists; eexists.
  split; [unfold assemble; cbn; decide_R; cbn; reflexivity|].
  split; [reflexivity|].
  split; [unfold postprocess; cbn; reflexivity|].
  split; reflexivity.
Qed.

Lemma residual_decomposition_witness :
  exists a out,
    assemble tables "res" 0%R = Some a /\
    postprocess tables a 2 fit = Some out /\
    exists total inter intra,
      nth_error (res_tot (out_residuals out)) 1 = Some total /\
      nth_error (res_between (out_residuals out)) 1 = Some inter /\
      nth_error (res_within (out_residuals out)) 1 = Some intra /\
      identity_holds total inter intra = true.
Proof.
  destruct tables_run_values as (a & out & p & Ha & Hn & Hout & Hy1 & Hp1).
  exists a, out; split; [exact Ha|]; split; [exact Hout|].
  destruct (residual_decomposition tables "res" 0%R a 2 fit out 1 tables_flatfile_wf Ha Hout
              ltac:(rewrite Hn; lia))
    as (y & v0 & v1 & v2 & v3 & v4 & pr & total & inter & intra & g & draws & _ & Hy
        & _ & _ & _ & _ & _ & _ & Hp & Ht & Hb & Hw & _ & _ & _ & _ & _ & Hid & _).
  exists total, inter, intra; repeat split; try assumption.
  apply Hid; unfold NaN; split; congruence.
Defined.

End ResidualIdentity.

Section GroupCoordinates.

Import Num Frame Assembler IndexBuilder Examples.
Local Open Scope string_scope.

Lemma coords_of_groups (keys : list Z) (c0 c1 cx cy : list num) (n : nat)
    (data : list (list num)) (g : nat) (k : Z) :
  take (rows_of NaN n [c0; c1; cx; cy]) (u_index (np_unique keys)) = Some data ->
  nth_error (u_values (np_unique keys)) g = Some k ->
  index_of k keys < n /\
  nth_error (map (fun r => [nth 2 r NaN; nth 3 r NaN]) data) g
  = Some [nth (index_of k keys) cx NaN; nth (index_of k keys) cy NaN].
Proof.
  unfold take; intros H Hk.
  assert (Hp : nth_error (u_index (np_unique keys)) g = Some (index_of k keys))
    by (simpl; rewrite nth_error_map; simpl in Hk; rewrite Hk; reflexivity).
  destruct (mapM_nth_error _ _ _ H _ _ Hp) as (row & Hrow & Hdata).
  assert (Hlt : index_of k keys < n).
  { rewrite <- (length_rows_of NaN n [c0; c1; cx; cy]).
    apply nth_error_Some; congruence. }
  split; [exact Hlt|].
  rewrite nth_error_rows_of in Hrow by exact Hlt.
  inversion Hrow; subst row.
  rewrite nth_error_map, Hdata; reflexivity.
Qed.

(** X7.  Row [g] of the earthquake (station) coordinate matrix holds the
    coordinates of the first record that carries the key of group [g]:
    when records of one earthquake (station) disagree on its coordinates,
    those of the first such record are the ones used. *)
Theorem group_coordinates_first_record (s : store) (res_name : string) (c_a_erg : R)
    (a : Assembled) (Hrun : assemble s res_name c_a_erg = Some a) :
  exists eqid eqX eqY ssn staX staY,
    get_int (df_flatfile s) "eqid" = Some eqid /\
    get_float (df_flatfile s) "eqX" = Some eqX /\
    get_float (df_flatfile s) "eqY" = Some eqY /\
    get_int (df_flatfile s) "ssn" = Some ssn /\
    get_float (df_flatfile s) "staX" = Some staX /\
    get_float (df_flatfile s) "staY" = Some staY /\
    (forall g k, nth_error (u_values (np_unique eqid)) g = Some k ->
       exists p, nth_error eqid p = Some k /\
                 (forall q, q < p -> nth_error eqid q <> Some k) /\
                 nth_error (sd_X_e (stan_data a)) g = Some [nth p eqX NaN; nth p eqY NaN]) /\
    (forall g k, nth_error (u_values (np_unique ssn)) g = Some k ->
       exists p, nth_error ssn p = Some k /\
                 (forall q, q < p -> nth_error ssn q <> Some k) /\
                 nth_error (sd_X_s (stan_data a)) g = Some [nth p staX NaN; nth p staY NaN]).
Proof.
  unfold assemble in Hrun; inv_bind Hrun.
  inversion Hrun; subst a; clear Hrun; cbn.
  exists x, x1, x2, x4, x6, x7.
  repeat split; try assumption.
  - intros g k Hk; exists (index_of k x).
    assert (Hin : In k x) by (apply sorted_unique_In; eapply nth_error_In; exact Hk).
    split; [apply index_of_nth_error; exact Hin|].
    split; [intros q Hq; apply index_of_first; exact Hq|].
    eapply coords_of_groups; eassumption.
  - intros g k Hk; exists (index_of k x4).
    assert (Hin : In k x4) by (apply sorted_unique_In; eapply nth_error_In; exact Hk).
    split; [apply index_of_nth_error; exact Hin|].
    split; [intros q Hq; apply index_of_first; exact Hq|].
    eapply coords_of_groups; eassumption.
Qed.

Lemma group_coordinates_first_record_witness :
  exists a, assemble tables "res" 0%R = Some a /\
            nth_error (sd_X_s (stan_data a)) 1 = Some [Some 2%R; Some 2%R].
Proof.
  destruct tables_assembled as (a & Ha & _).
  exists a; split; [exact Ha|].
  destruct (group_coordinates_first_record tables "res" 0%R a Ha)
    as (eqid & eqX & eqY & ssn & staX & staY & _ & _ & _ & Hs & HX & HY & _ & Hsta).
  cbn in Hs, HX, HY; inversion Hs; inversion HX; inversion HY; subst.
  destruct (Hsta 1 8%Z eq_refl) as (p & Hp & Hfirst & Hrow).
  destruct p as [|[|p]]; [discriminate | exact Hrow | destruct p; discriminate].
Defined.

End GroupCoordinates.

(** ** Further properties of the Cell Network Filter *)

Section CellFilterMore.

Import Num Frame Assembler CellTables Examples.
Local Open Scope string_scope.

Lemma cell_filter_positions (ci : DataFrame) (all : list (string * list num))
    (cf : CellFilter) :
  cell_filter ci all = Some cf ->
  cf_i_cells_valid cf = np_where (map positive_total all) /\
  take (index ci) (cf_i_cells_valid cf) = Some (cf_cell_ids_valid cf).
Proof.
  unfold cell_filter; intros H; inv_bind H; inversion H; subst cf; simpl; auto.
Qed.

(** X8.  Whatever the cell identifiers are, the positions found by the
    filter are in strictly ascending order and are exactly the positions
    of the columns of the distance matrix whose distances, missing values
    skipped, sum to a positive total; and the retained identifiers are
    the identifiers at these positions of the metadata table. *)
Theorem valid_positions_exact (s : store) (res_name : string) (c_a_erg : R)
    (a : Assembled) (Hrun : assemble s res_name c_a_erg = Some a) :
  StronglySorted lt (i_cells_valid a) /\
  (forall p, In p (i_cells_valid a) <->
             exists c total, nth_error (celldist_all a) p = Some c /\
                             nansum (snd c) = Some total /\ (0 < total)%R) /\
  length (cell_ids_valid a) = length (i_cells_valid a) /\
  (forall j p, nth_error (i_cells_valid a) j = Some p ->
               nth_error (cell_ids_valid a) j = nth_error (index (df_cellinfo s)) p /\
               p < length (index (df_cellinfo s))).
Proof.
  destruct (assemble_inv _ _ _ _ Hrun)
    as (_ & _ & _ & _ & _ & _ & _ & _ & _ & Hcf & _).
  destruct (cell_filter_positions _ _ _ Hcf) as (Hiv & Hids); simpl in Hiv, Hids.
  split; [rewrite Hiv; apply np_where_from_sorted|].
  split.
  - intros p; rewrite Hiv, i_cells_valid_positive; split.
    + intros (c & Hc & Hp); apply positive_total_iff in Hp.
      destruct Hp as (t & Ht & Hlt); exists c, t; auto.
    + intros (c & t & Hc & Ht & Hlt); exists c; split; [exact Hc|].
      apply positive_total_iff; exists t; auto.
  - split; [apply (mapM_length _ _ _ Hids)|].
    intros j p Hj; destruct (mapM_nth_error _ _ _ Hids _ _ Hj) as (id & Hid & Hout).
    split; [congruence | apply nth_error_Some; congruence].
Qed.

Lemma valid_positions_exact_witness :
  exists a, assemble tables_one_based "res" 0%R = Some a /\
            StronglySorted lt (i_cells_valid a).
Proof.
  destruct tables_one_based_assembled as (a & Ha & _).
  exists a; split; [exact Ha|].
  destruct (valid_positions_exact tables_one_based "res" 0%R a Ha) as (H & _).
  exact H.
Defined.

End CellFilterMore.

(** ** Alignment of the distances with the records *)

Section KeyAlignment.

Import Num Frame Assembler Examples MoreExamples.
Local Open Scope string_scope.

Lemma label_pos_lt (idx : list Z) (k : Z) (p : nat) :
  label_pos idx k = Some p -> nth_error idx p = Some k.
Proof.
  revert p; induction idx as [|y t IH]; simpl; intros p H; [discriminate|].
  destruct (Z.eqb_spec k y) as [->|Hne].
  - inversion H; reflexivity.
  - destruct (label_pos t k) as [q|]; [|discriminate].
    inversion H; subst p; simpl; apply IH; reflexivity.
Qed.

Lemma has_dup_NoDup (l : list Z) : has_dup l = false -> NoDup l.
Proof.
  induction l as [|x t IH]; simpl; intros H; [constructor|].
  apply orb_false_iff in H; destruct H as (Hx & Ht).
  constructor; [|apply IH; exact Ht].
  intros Hin; apply Bool.not_true_iff_false in Hx; apply Hx.
  apply existsb_exists; exists x; split; [exact Hin | apply Z.eqb_refl].
Qed.

Lemma label_pos_NoDup (idx : list Z) (i : nat) (k : Z) :
  NoDup idx -> nth_error idx i = Some k -> label_pos idx k = Some i.
Proof.
  intros Hnd; revert i; induction Hnd as [|y t Hnin Hnd IH]; intros i Hi.
  - destruct i; discriminate.
  - simpl; destruct i as [|i]; simpl in Hi.
    + inversion Hi; subst; rewrite Z.eqb_refl; reflexivity.
    + destruct (Z.eqb_spec k y) as [->|_].
      * exfalso; apply Hnin; eapply nth_error_In; exact Hi.
      * rewrite (IH i Hi); reflexivity.
Qed.

(** The re-indexed column holds, for a label present in the source, the
    cell of the source row carrying that label. *)
Lemma reindex_col_present (src target : list Z) (c : column) (v : list num)
    (i p : nat) (k : Z) :
  nth_error target i = Some k -> label_pos src k = Some p ->
  col_length c = length src ->
  to_float (reindex_col src target c) = Some v ->
  exists v0, to_float c = Some v0 /\ nth_error v i = Some (nth p v0 NaN).
Proof.
  intros Hi Hp Hlen Hv.
  assert (Hlt : p < length src)
    by (apply nth_error_Some; rewrite (label_pos_lt _ _ _ Hp); discriminate).
  destruct c as [w|w|w]; simpl in Hv, Hlen.
  - exists (map (fun z => Some (IZR z)) w); split; [reflexivity|].
    assert (Hw : nth p (map (fun z => Some (IZR z)) w) NaN = Some (IZR (nth p w 0%Z))).
    { rewrite (nth_indep _ NaN (Some (IZR 0))) by (rewrite length_map; lia).
      apply (map_nth (fun z => Some (IZR z))). }
    transitivity (Some (Some (IZR (nth p w 0%Z)))); [|f_equal; symmetry; exact Hw].
    destruct (all_present src target); simpl in Hv; inversion Hv; subst v; clear Hv.
    + rewrite !nth_error_map, Hi; simpl; rewrite Hp; reflexivity.
    + rewrite nth_error_map, Hi; simpl; rewrite Hp.
      rewrite (nth_error_nth' w 0%Z) by lia; reflexivity.
  - exists w; split; [reflexivity|].
    inversion Hv; subst v; rewrite nth_error_map, Hi; simpl; rewrite Hp; reflexivity.
  - discriminate.
Qed.

(** X9.  The distance matrix is aligned with the records by key, not by
    position: for a distance table whose labels do not repeat, every
    entry of the row of [RC] of a record is the distance stored, in some
    column of the table, at the row labelled with the record's [rsn]. *)
Theorem distances_aligned_by_key (s : store) (res_name : string) (c_a_erg : R)
    (a : Assembled) (i p : nat) (k : Z) (row : list num)
    (Hrun : assemble s res_name c_a_erg = Some a)
    (Hnodup : has_dup (index (df_celldist s)) = false)
    (Hwf : wf_frame (df_celldist s))
    (Hrec : nth_error (index (df_flatfile s)) i = Some k)
    (Hsrc : nth_error (index (df_celldist s)) p = Some k)
    (Hrow : nth_error (sd_RC (stan_data a)) i = Some row) :
  length row = sd_NCELL (stan_data a) /\
  forall j d, nth_error row j = Some d ->
    exists name c v0,
      In (name, c) (columns (df_celldist s)) /\
      to_float c = Some v0 /\
      d = nth p v0 NaN.
Proof.
  destruct (assemble_inv _ _ _ _ Hrun)
    as (_ & _ & cd & names & _ & _ & Hre & _ & Hsel & Hcf & Hn & _ & _ & _ & _ & Hnv
        & _ & _ & _ & HN & _ & _ & _ & HRC & _).
  rewrite HRC in Hrow.
  assert (Hi : i < n_data a) by (rewrite Hn; apply nth_error_Some; congruence).
  rewrite nth_error_rows_of in Hrow by exact Hi.
  inversion Hrow; subst row; clear Hrow.
  split; [rewrite row_at_length, length_map, HN, Hnv; reflexivity|].
  intros j d Hd; unfold row_at in Hd; rewrite map_map, nth_error_map in Hd.
  destruct (nth_error (celldist_valid a) j) as [e|] eqn:He; [|discriminate].
  simpl in Hd; inversion Hd; subst d; clear Hd.
  apply nth_error_In in He.
  apply (cell_filter_incl _ _ _ Hcf) in He; simpl in He.
  destruct (select_float_cols_In _ _ _ _ Hsel He) as (c' & Hc' & Hfl).
  pose proof (label_pos_NoDup _ _ _ (has_dup_NoDup _ Hnodup) Hsrc) as Hpos.
  unfold reindex in Hre.
  destruct (list_Z_eqb (index (df_celldist s)) (index (df_flatfile s))) eqn:E.
  - apply list_Z_eqb_eq in E.
    inversion Hre; subst cd; simpl in Hc'.
    assert (Hip : p = i).
    { rewrite <- E in Hrec.
      pose proof (label_pos_NoDup _ _ _ (has_dup_NoDup _ Hnodup) Hrec) as Hpos'.
      congruence. }
    subst p; exists (fst e), c', (snd e); auto.
  - rewrite Hnodup in Hre; simpl in Hre; inversion Hre; subst cd; simpl in Hc'.
    apply in_map_iff in Hc'; destruct Hc' as ((name & c) & Heq & Hin).
    simpl in Heq; inversion Heq; subst; clear Heq.
    unfold wf_frame in Hwf; rewrite Forall_forall in Hwf.
    destruct (reindex_col_present _ _ c (snd e) i p k Hrec Hpos (Hwf _ Hin) Hfl)
      as (v0 & Hv0 & Hnth).
    exists (fst e), c, v0; repeat split; try assumption.
    apply nth_error_nth; exact Hnth.
Qed.

Lemma tables_reversed_assembled :
  exists a, assemble tables_reversed "res" 0%R = Some a /\
            sd_RC (stan_data a) = [[Some 1%R]; [Some 2%R]].
Proof.
  eexists; split; [unfold assemble; cbn; decide_R; cbn; reflexivity|].
  reflexivity.
Qed.

Lemma tables_reversed_wf : wf_frame (df_celldist tables_reversed).
Proof. unfold wf_frame; simpl; repeat constructor. Qed.

Lemma distances_aligned_by_key_witness :
  exists a, assemble tables_reversed "res" 0%R = Some a /\
    forall j d, nth_error [Some 1%R] j = Some d ->
      exists name c v0,
        In (name, c) (columns (df_celldist tables_reversed)) /\
        to_float c = Some v0 /\ d = nth 1 v0 NaN.
Proof.
  destruct tables_reversed_assembled as (a & Ha & HRC).
  exists a; split; [exact Ha|].
  apply (distances_aligned_by_key tables_reversed "res" 0%R a 0 1 1%Z [Some 1%R] Ha
           eq_refl tables_reversed_wf eq_refl eq_refl).
  rewrite HRC; reflexivity.
Defined.

End KeyAlignment.

(** ** Requirements of the Posterior Extractor *)

Section ExtractorMore.

Import Num Frame Extractor Layout Examples.
Local Open Scope string_scope.

Lemma concatenate_axis1_inv (p p' : Mat) (b : ndarray) :
  concatenate_axis1 p b = Some p' ->
  exists m, b = Arr2 m /\ nrows m = nrows p /\ nrows p' = nrows p /\
            ncols p' = ncols p + ncols m.
Proof.
  unfold concatenate_axis1; destruct b as [v|m]; [discriminate|].
  intros H; inv_bind H; apply Nat.eqb_eq in Hg.
  inversion H; subst p'; simpl; exists m; auto.
Qed.

Lemma stack_axis1_inv (vs : list (list R)) (p : Mat) :
  stack_axis1 vs = Some p ->
  ncols p = length vs /\ Forall (fun v => length v = nrows p) vs.
Proof.
  unfold stack_axis1; destruct vs as [|v t]; [discriminate|].
  intros H; inv_bind H; inversion H; subst p; simpl.
  split; [reflexivity|].
  constructor; [reflexivity|].
  apply Forall_forall; intros w Hw.
  rewrite forallb_forall in Hg; apply Nat.eqb_eq, Hg, Hw.
Qed.

(** X10.  The extraction returns a matrix only for a fit that holds every
    one of the twelve hyper-parameters and five per-group parameters,
    with one number of draws [d] throughout: each hyper-parameter
    flattens to [d] values and each per-group array is, once oriented for
    the engine version, two-dimensional with [d] rows.  The matrix then
    has [d] rows and twelve columns plus the columns of the five arrays. *)
Theorem extraction_requirements (pystan_ver : Z) (stan_fit : Fit) (P : Mat)
    (Hpost : stan_posterior pystan_ver stan_fit = Some P) :
  (forall name, In name col_names_hyp ->
     exists a, stan_fit name = Some a /\ length (flatten a) = nrows P) /\
  exists E A B C D,
    Forall2 (fun name m =>
               exists a, stan_fit name = Some a /\
                         orient pystan_ver a = Arr2 m /\ nrows m = nrows P)
            group_params [E; A; B; C; D] /\
    ncols P = 12 + ncols E + ncols A + ncols B + ncols C + ncols D.
Proof.
  unfold stan_posterior in Hpost; inv_bind Hpost.
  inversion Hpost; subst P; clear Hpost.
  destruct (stack_axis1_inv _ _ Hx0) as (Hc0 & Hall).
  rewrite (mapM_length _ _ _ Hx) in Hc0; simpl in Hc0.
  destruct (concatenate_axis1_inv _ _ _ Hx2) as (E & HE & RE & R1 & C1).
  destruct (concatenate_axis1_inv _ _ _ Hx4) as (A & HA & RA & R2 & C2).
  destruct (concatenate_axis1_inv _ _ _ Hx6) as (B & HB & RB & R3 & C3).
  destruct (concatenate_axis1_inv _ _ _ Hx8) as (C & HC & RC & R4 & C4).
  destruct (concatenate_axis1_inv _ _ _ Hx10) as (D & HD & RD & R5 & C5).
  split.
  - intros name Hin; apply In_nth_error in Hin; destruct Hin as (j & Hj).
    destruct (mapM_nth_error _ _ _ Hx _ _ Hj) as (v & Hv & Hvj).
    inv_bind Hv; inversion Hv; subst v.
    eexists; split; [eassumption|].
    rewrite Forall_forall in Hall; rewrite (Hall _ (nth_error_In _ _ Hvj)); lia.
  - exists E, A, B, C, D; split; [|lia].
    unfold group_params; repeat constructor;
      eexists; (split; [eassumption|]); (split; [assumption|]); lia.
Qed.

Lemma extraction_requirements_witness :
  exists P, stan_posterior 3 fit3 = Some P /\
            forall name, In name col_names_hyp ->
              exists a, fit3 name = Some a /\ length (flatten a) = nrows P.
Proof.
  destruct example_fit_layout as (_ & L3).
  pose proof (pooled_posterior _ _ _ _ _ _ _ _ _ L3) as HP.
  eexists; split; [exact HP|].
  apply (extraction_requirements 3 fit3 _ HP).
Defined.

End ExtractorMore.

(** ** Further properties of the coefficient and residual tables *)

Section SynthesizerMore.

Import Num Frame Assembler Extractor Synthesizer Attenuation Examples.
Local Open Scope string_scope.

Lemma decompose_prediction (df : PostFrame) (n_eq : nat) (eq_inv : list nat)
    (y_data c0 c1e c1as c1bs LcA : list num) (res : Residuals) (n i : nat)
    (v0 v1 v2 v3 v4 : num) :
  decompose df n_eq eq_inv y_data c0 c1e c1as c1bs LcA = Some res ->
  length c0 = n -> length c1e = n -> length c1as = n -> length c1bs = n ->
  length LcA = n -> length (res_tot res) = n -> length (res_between res) = n ->
  nth_error c0 i = Some v0 -> nth_error c1e i = Some v1 ->
  nth_error c1as i = Some v2 -> nth_error c1bs i = Some v3 ->
  nth_error LcA i = Some v4 ->
  let prediction := add (add (add (add v0 v1) v2) v3) v4 in
  nth_error (y_mu res) i = Some prediction /\
  exists y inter,
    nth_error (res_tot res) i = Some (sub y prediction) /\
    nth_error (res_between res) i = Some inter /\
    nth_error (res_within res) i = Some (sub (sub y prediction) inter).
Proof.
  intros H L0 L1 L2 L3 L4 Ltot Lbtw E0 E1 E2 E3 E4 prediction; subst prediction.
  unfold decompose in H; inv_bind H; inversion H; subst res; clear H; simpl in *.
  unfold np_add in *; unfold np_sub in *.
  assert (Ls1 : length x = n)
    by (rewrite (np_binop_length_same _ _ _ _ Hx); congruence).
  assert (Ls2 : length x0 = n)
    by (rewrite (np_binop_length_same _ _ _ _ Hx0); congruence).
  assert (Ls3 : length x1 = n)
    by (rewrite (np_binop_length_same _ _ _ _ Hx1); congruence).
  assert (Lmu : length x2 = n)
    by (rewrite (np_binop_length_same _ _ _ _ Hx2); congruence).
  pose proof (np_binop_nth_same _ _ _ _ _ _ _ Hx ltac:(congruence) E0 E1) as N1.
  pose proof (np_binop_nth_same _ _ _ _ _ _ _ Hx0 ltac:(congruence) N1 E2) as N2.
  pose proof (np_binop_nth_same _ _ _ _ _ _ _ Hx1 ltac:(congruence) N2 E3) as N3.
  pose proof (np_binop_nth_same _ _ _ _ _ _ _ Hx2 ltac:(congruence) N3 E4) as N4.
  split; [exact N4|].
  destruct (np_binop_right _ _ _ _ _ _ Hx3 ltac:(congruence) N4) as (y & Hy & Ntot).
  assert (Hi : i < n) by (rewrite <- L0; apply nth_error_Some; congruence).
  destruct (nth_error x5 i) as [inter|] eqn:Eb; [|apply nth_error_None in Eb; lia].
  exists y, inter; split; [exact Ntot|]; split; [reflexivity|].
  apply (np_binop_nth_same _ _ _ _ _ _ _ Hx6 ltac:(congruence) Ntot Eb).
Qed.

(** What a successful post-processing has checked and built. *)
Lemma postprocess_inv (s : store) (a : Assembled) (pystan_ver : Z) (stan_fit : Fit)
    (out : Output) :
  postprocess s a pystan_ver stan_fit = Some out ->
  exists c0 c1e c1as c1bs,
    let att := out_attenuation out in
    let res := out_residuals out in
    attenuation (out_posterior out) (cell_ids_valid a) (n_cell_valid a)
                (sd_RC (stan_data a)) = Some att /\
    constant_term (out_posterior out) (n_data a) = Some c0 /\
    group_term (out_posterior out) "dc_1e." (n_eq a) (eq_inv a) = Some c1e /\
    group_term (out_posterior out) "dc_1as." (n_sta a) (sta_inv a) = Some c1as /\
    group_term (out_posterior out) "dc_1bs." (n_sta a) (sta_inv a) = Some c1bs /\
    out_coeffs out
    = [t_mu c0; t_mu c1e; t_mu c1as; t_mu c1bs; cells_LcA_mu att;
       t_med c0; t_med c1e; t_med c1as; t_med c1bs; cells_LcA_med att;
       t_sig c0; t_sig c1e; t_sig c1as; t_sig c1bs; cells_LcA_sig att] /\
    Forall (fun col => length col = n_data a) (out_coeffs out) /\
    decompose (out_posterior out) (n_eq a) (eq_inv a) (y_data a)
              (t_mu c0) (t_mu c1e) (t_mu c1as) (t_mu c1bs) (cells_LcA_mu att) = Some res /\
    out_predict out = [y_mu res; res_tot res; res_between res; res_within res] /\
    Forall (fun col => length col = n_data a) (out_predict out) /\
    out_catten out
    = [repeat (Some (sd_c_a_erg (stan_data a))) (n_cell_valid a);
       cells_ca_mu att; cells_ca_med att; cells_ca_sig att] /\
    Forall (fun col => length col = n_cell_valid a) (out_catten out) /\
    pf_names (out_posterior out) = col_names_all (n_eq a) (n_sta a) (cell_ids_valid a) /\
    ncols (pf_mat (out_posterior out)) = length (pf_names (out_posterior out)).
Proof.
  unfold postprocess; intros H; inv_bind H.
  inversion H; subst out; clear H; cbn.
  apply Nat.eqb_eq in Hg2, Hg3.
  exists x3, x4, x5, x6.
  assert (V7 : x7 = [t_mu x3; t_mu x4; t_mu x5; t_mu x6; cells_LcA_mu x1;
                     t_med x3; t_med x4; t_med x5; t_med x6; cells_LcA_med x1;
                     t_sig x3; t_sig x4; t_sig x5; t_sig x6; cells_LcA_sig x1])
    by (unfold vstack in Hx7; inv_bind Hx7; congruence).
  assert (V9 : x9 = [y_mu x8; res_tot x8; res_between x8; res_within x8])
    by (unfold vstack in Hx9; inv_bind Hx9; congruence).
  assert (V2 : x2 = [repeat (Some (sd_c_a_erg (stan_data a))) (n_cell_valid a);
                     cells_ca_mu x1; cells_ca_med x1; cells_ca_sig x1])
    by (unfold vstack in Hx2; inv_bind Hx2; congruence).
  pose proof (vstack_lengths _ _ _ _ eq_refl Hx7) as F7.
  pose proof (vstack_lengths _ _ _ _ eq_refl Hx9) as F9.
  pose proof (vstack_lengths _ _ _ _ eq_refl Hx2) as F2.
  unfold make_frame in Hx0; inv_bind Hx0; apply Nat.eqb_eq in Hg4.
  inversion Hx0; subst x0; simpl in *.
  repeat split; try assumption.
  - rewrite V7; constructor; [exact Hg2|].
    eapply Forall_impl; [|exact F7]; simpl; intros; congruence.
  - rewrite V9; constructor; [exact Hg3|].
    eapply Forall_impl; [|exact F9]; simpl; intros; congruence.
  - rewrite V2; constructor; [apply repeat_length|].
    eapply Forall_impl; [|exact F2]; simpl; intros col Hc.
    rewrite Hc; apply repeat_length.
Qed.

End SynthesizerMore.

Section PredictionClaims.

Import Num Frame Assembler Extractor Synthesizer Attenuation Examples.
Local Open Scope string_scope.

Lemma nth_error_of_length {A : Type} (l : list A) (n i : nat) :
  length l = n -> i < n -> exists v, nth_error l i = Some v.
Proof.
  intros Hl Hi; destruct (nth_error l i) as [v|] eqn:E; [eauto|].
  apply nth_error_None in E; lia.
Qed.

(** X11.  In the output of a run the coefficient table has fifteen columns
    and the prediction table four, each with one entry per record, and
    for every record the combined mean prediction [nerg_mu] is the sum,
    in this order, of the five mean columns of the coefficient table
    (constant, earthquake term, the two station terms, attenuation). *)
Theorem prediction_sums_coefficient_means (s : store) (a : Assembled) (pystan_ver : Z)
    (stan_fit : Fit) (out : Output) (i : nat)
    (Hrun : postprocess s a pystan_ver stan_fit = Some out)
    (Hrec : i < n_data a) :
  length (out_coeffs out) = 15 /\
  Forall (fun col => length col = n_data a) (out_coeffs out) /\
  length (out_predict out) = 4 /\
  Forall (fun col => length col = n_data a) (out_predict out) /\
  exists v0 v1 v2 v3 v4,
    nth_error (nth 0 (out_coeffs out) []) i = Some v0 /\
    nth_error (nth 1 (out_coeffs out) []) i = Some v1 /\
    nth_error (nth 2 (out_coeffs out) []) i = Some v2 /\
    nth_error (nth 3 (out_coeffs out) []) i = Some v3 /\
    nth_error (nth 4 (out_coeffs out) []) i = Some v4 /\
    nth_error (nth 0 (out_predict out) []) i
    = Some (add (add (add (add v0 v1) v2) v3) v4).
Proof.
  destruct (postprocess_inv _ _ _ _ _ Hrun)
    as (c0 & c1e & c1as & c1bs & _ & _ & _ & _ & _ & Hco & Fco & Hdec & Hpr & Fpr & _).
  rewrite Hco, Hpr in *; cbn [nth].
  split; [reflexivity|]. split; [exact Fco|].
  split; [reflexivity|]. split; [exact Fpr|].
  pose proof (Forall_inv Fco) as L0; apply Forall_inv_tail in Fco.
  pose proof (Forall_inv Fco) as L1; apply Forall_inv_tail in Fco.
  pose proof (Forall_inv Fco) as L2; apply Forall_inv_tail in Fco.
  pose proof (Forall_inv Fco) as L3; apply Forall_inv_tail in Fco.
  pose proof (Forall_inv Fco) as L4; clear Fco.
  apply Forall_inv_tail in Fpr.
  pose proof (Forall_inv Fpr) as Lt; apply Forall_inv_tail in Fpr.
  pose proof (Forall_inv Fpr) as Lb; clear Fpr.
  destruct (nth_error_of_length _ _ i L0 Hrec) as (v0 & E0).
  destruct (nth_error_of_length _ _ i L1 Hrec) as (v1 & E1).
  destruct (nth_error_of_length _ _ i L2 Hrec) as (v2 & E2).
  destruct (nth_error_of_length _ _ i L3 Hrec) as (v3 & E3).
  destruct (nth_error_of_length _ _ i L4 Hrec) as (v4 & E4).
  exists v0, v1, v2, v3, v4; repeat split; try assumption.
  apply (decompose_prediction _ _ _ _ _ _ _ _ _ _ _ i v0 v1 v2 v3 v4 Hdec
           L0 L1 L2 L3 L4 Lt Lb E0 E1 E2 E3 E4).
Qed.

Lemma prediction_sums_coefficient_means_witness :
  exists a out,
    postprocess tables a 2 fit = Some out /\
    Forall (fun col => length col = n_data a) (out_predict out).
Proof.
  destruct tables_run as (a & out & _ & Hn & Hout).
  exists a, out; split; [exact Hout|].
  destruct (prediction_sums_coefficient_means tables a 2 fit out 0 Hout
              ltac:(rewrite Hn; lia)) as (_ & _ & _ & H & _).
  exact H.
Defined.

Lemma dot_NaN (r v : list num) :
  length r = length v -> In NaN r -> dot r v = NaN.
Proof.
  revert v; induction r as [|x r IH]; intros [|y v] Hl Hin; simpl in *;
    try contradiction; try discriminate.
  destruct Hin as [->|Hin]; [reflexivity|].
  rewrite (IH v) by (auto; lia).
  destruct (mul x y); reflexivity.
Qed.

Lemma matvec_inv (k : nat) (M : list (list num)) (v out : list num) :
  matvec k M v = Some out -> length v = k /\ out = map (fun r => dot r v) M.
Proof.
  unfold matvec; intros H; inv_bind H; apply Nat.eqb_eq in Hg.
  inversion H; auto.
Qed.

Lemma attenuation_inv (df : PostFrame) (ids : list Z) (k : nat) (RC : list (list num))
    (att : CellAttenuation) :
  attenuation df ids k RC = Some att ->
  length ids = k /\ length (cells_ca_mu att) = k /\ length (cells_ca_med att) = k /\
  length (cells_ca_sig att) = k /\
  cells_LcA_mu att = map (fun r => dot r (cells_ca_mu att)) RC /\
  cells_LcA_med att = map (fun r => dot r (cells_ca_med att)) RC /\
  cells_LcA_sig att
  = map (fun r => sqrt (dot (map square r) (map square (cells_ca_sig att)))) RC.
Proof.
  unfold attenuation; intros H; inv_bind H.
  inversion H; subst att; clear H; simpl.
  destruct (matvec_inv _ _ _ _ Hx2) as (G1 & ->).
  destruct (matvec_inv _ _ _ _ Hx3) as (G2 & ->).
  destruct (matvec_inv _ _ _ _ Hx4) as (G3 & ->).
  rewrite length_map in G3.
  unfold cell_stat in Hx.
  repeat split; try congruence.
  - rewrite <- (mapM_length _ _ _ Hx); exact G1.
  - rewrite !map_map; reflexivity.
Qed.

(** X12.  A missing distance poisons the record: when the row of the
    distance matrix of a record holds a missing value (as for a record
    absent from the distance table), the attenuation, the combined mean
    prediction, the total residual and the intra-event residual of that
    record are all NaN in the output. *)
Theorem missing_distance_gives_NaN_residuals (s : store) (a : Assembled)
    (pystan_ver : Z) (stan_fit : Fit) (out : Output) (i : nat) (row : list num)
    (Hrun : postprocess s a pystan_ver stan_fit = Some out)
    (Hrow : nth_error (sd_RC (stan_data a)) i = Some row)
    (Hlen : length row = n_cell_valid a)
    (Hnan : In NaN row) :
  nth_error (cells_LcA_mu (out_attenuation out)) i = Some NaN /\
  nth_error (y_mu (out_residuals out)) i = Some NaN /\
  nth_error (res_tot (out_residuals out)) i = Some NaN /\
  nth_error (res_within (out_residuals out)) i = Some NaN.
Proof.
  destruct (postprocess_inv _ _ _ _ _ Hrun)
    as (c0 & c1e & c1as & c1bs & Hatt & _ & _ & _ & _ & Hco & Fco & Hdec & Hpr & Fpr & _).
  cbv zeta in *.
  destruct (attenuation_inv _ _ _ _ _ Hatt) as (_ & Lmu & _ & _ & Hmu & _).
  assert (E4 : nth_error (cells_LcA_mu (out_attenuation out)) i = Some NaN).
  { rewrite Hmu, nth_error_map, Hrow; simpl; f_equal.
    apply dot_NaN; [congruence | exact Hnan]. }
  rewrite Hco, Hpr in *.
  pose proof (Forall_inv Fco) as L0; apply Forall_inv_tail in Fco.
  pose proof (Forall_inv Fco) as L1; apply Forall_inv_tail in Fco.
  pose proof (Forall_inv Fco) as L2; apply Forall_inv_tail in Fco.
  pose proof (Forall_inv Fco) as L3; apply Forall_inv_tail in Fco.
  pose proof (Forall_inv Fco) as L4; clear Fco.
  apply Forall_inv_tail in Fpr.
  pose proof (Forall_inv Fpr) as Lt; apply Forall_inv_tail in Fpr.
  pose proof (Forall_inv Fpr) as Lb; clear Fpr.
  assert (Hrec : i < n_data a)
    by (rewrite <- L4; apply nth_error_Some; congruence).
  destruct (nth_error_of_length _ _ i L0 Hrec) as (v0 & E0).
  destruct (nth_error_of_length _ _ i L1 Hrec) as (v1 & E1).
  destruct (nth_error_of_length _ _ i L2 Hrec) as (v2 & E2).
  destruct (nth_error_of_length _ _ i L3 Hrec) as (v3 & E3).
  destruct (decompose_prediction _ _ _ _ _ _ _ _ _ _ _ i v0 v1 v2 v3 NaN Hdec
              L0 L1 L2 L3 L4 Lt Lb E0 E1 E2 E3 E4) as (Hy & y & inter & Ht & _ & Hw).
  assert (Hp : add (add (add (add v0 v1) v2) v3) NaN = NaN)
    by (destruct (add (add (add v0 v1) v2) v3); reflexivity).
  rewrite Hp in Hy, Ht, Hw.
  assert (Hs : sub y NaN = NaN) by (destruct y; reflexivity).
  rewrite Hs in Ht, Hw.
  repeat split; assumption.
Qed.

Lemma tables_short_run :
  exists a out,
    assemble tables_short "res" 0%R = Some a /\
    sd_RC (stan_data a) = [[Some 1%R]; [NaN]] /\
    n_cell_valid a = 1 /\
    postprocess tables_short a 2 fit = Some out.
Proof.
  eexists; eexists; split; [unfold assemble; cbn; decide_R; cbn; reflexivity|].
  split; [reflexivity|]. split; [reflexivity|].
  unfold postprocess; cbn; reflexivity.
Qed.

Lemma missing_distance_gives_NaN_residuals_witness :
  exists a out,
    postprocess tables_short a 2 fit = Some out /\
    nth_error (res_tot (out_residuals out)) 1 = Some NaN /\
    nth_error (res_within (out_residuals out)) 1 = Some NaN.
Proof.
  destruct tables_short_run as (a & out & _ & HRC & Hn & Hout).
  exists a, out; split; [exact Hout|].
  destruct (missing_distance_gives_NaN_residuals tables_short a 2 fit out 1 [NaN] Hout
              ltac:(rewrite HRC; reflexivity) ltac:(rewrite Hn; reflexivity)
              ltac:(left; reflexivity)) as (_ & _ & Ht & Hw).
  split; assumption.
Defined.

End PredictionClaims.

Section EdgeCases.

Import Num Frame Assembler Extractor Synthesizer Attenuation Examples.
Local Open Scope string_scope.

Lemma dot_nil_r (r : list num) : dot r [] = Some 0%R.
Proof. destruct r; reflexivity. Qed.

Lemma sqrt_zero : sqrt (Some 0%R) = Some 0%R.
Proof.
  unfold sqrt; destruct (Rlt_dec 0 0) as [H|_]; [exfalso; lra|].
  f_equal; apply sqrt_0.
Qed.

Lemma map_const_repeat {A B : Type} (b : B) (l : list A) :
  map (fun _ => b) l = repeat b (length l).
Proof. induction l as [|x t IH]; simpl; [reflexivity | rewrite IH; reflexivity]. Qed.

(** X13.  With no valid cell the attenuation needs nothing from the
    posterior and contributes nothing: the computation succeeds for every
    posterior table, and whenever it succeeds with [n_cell_valid = 0]
    there is no retained cell and the mean, the median and the standard
    deviation of the attenuation are zero for every record. *)
Theorem no_valid_cell_zero_attenuation (df : PostFrame) (cell_ids_valid : list Z)
    (RC : list (list num)) :
  attenuation df [] 0 RC <> None /\
  forall att, attenuation df cell_ids_valid 0 RC = Some att ->
    cell_ids_valid = [] /\
    cells_LcA_mu att = repeat (Some 0%R) (length RC) /\
    cells_LcA_med att = repeat (Some 0%R) (length RC) /\
    cells_LcA_sig att = repeat (Some 0%R) (length RC).
Proof.
  split; [unfold attenuation, matvec; simpl; discriminate|].
  intros att Hatt.
  destruct (attenuation_inv _ _ _ _ _ Hatt) as (Li & Lmu & Lmed & Lsig & Hmu & Hmed & Hsig).
  apply length_zero_iff_nil in Li, Lmu, Lmed, Lsig.
  rewrite Hmu, Hmed, Hsig, Lmu, Lmed, Lsig.
  split; [exact Li|].
  rewrite <- !map_const_repeat.
  repeat split; apply map_ext; intros r; rewrite ?dot_nil_r; try reflexivity.
  apply sqrt_zero.
Qed.

Lemma no_valid_cell_zero_attenuation_witness :
  exists att, attenuation draws_frame [] 0 [[]; []] = Some att /\
              cells_LcA_sig att = repeat (Some 0%R) 2.
Proof.
  destruct (no_valid_cell_zero_attenuation draws_frame [] [[]; []]) as (Hsome & Hzero).
  destruct (attenuation draws_frame [] 0 [[]; []]) as [att|] eqn:E;
    [|exfalso; apply Hsome; reflexivity].
  exists att; split; [reflexivity|].
  destruct (Hzero att eq_refl) as (_ & _ & _ & H); exact H.
Defined.

Lemma nanmax_cons (a : num) (t : list num) :
  nanmax (a :: t)
  = match a, nanmax t with
    | Some x, Some y => Some (Rmax x y)
    | Some x, None => Some x
    | None, acc => acc
    end.
Proof. destruct a; reflexivity. Qed.

Lemma nanmax_bound (l : list num) (r : R) :
  In (Some r) l -> exists m, nanmax l = Some m /\ (r <= m)%R.
Proof.
  induction l as [|a t IH]; intros H; [contradiction|].
  rewrite nanmax_cons; destruct H as [->|H].
  - destruct (nanmax t) as [m|].
    + exists (Rmax r m); split; [reflexivity | apply Rmax_l].
    + exists r; split; [reflexivity | apply Rle_refl].
  - destruct (IH H) as (m & Hm & Hle); rewrite Hm.
    destruct a as [x|].
    + exists (Rmax x m); split; [reflexivity|].
      eapply Rle_trans; [exact Hle | apply Rmax_r].
    + exists m; split; [reflexivity | exact Hle].
Qed.

(** X14.  The path-distance misfit that is reported bounds the misfit of
    every record: for a records table whose columns have one cell per
    record, the absolute difference between a record's rupture distance
    and the sum of its valid-cell distances (missing ones skipped) is at
    most the reported maximum. *)
Theorem misfit_bounds_every_record (s : store) (res_name : string) (c_a_erg : R)
    (a : Assembled) (Rrup : list num) (i : nat) (rr : R)
    (Hrun : assemble s res_name c_a_erg = Some a)
    (Hwf : wf_frame (df_flatfile s))
    (HR : get_float (df_flatfile s) "Rrup" = Some Rrup)
    (Hi : nth_error Rrup i = Some (Some rr)) :
  exists row total m,
    nth_error (sd_RC (stan_data a)) i = Some row /\
    nansum row = Some total /\
    rrup_misfit a = Some m /\
    (Rabs (rr - total) <= m)%R.
Proof.
  unfold assemble in Hrun; inv_bind Hrun.
  inversion Hrun; subst a; clear Hrun; cbn.
  rewrite HR in Hx14; inversion Hx14; subst x14; clear Hx14.
  pose proof (get_float_length _ _ _ Hwf HR) as LR.
  set (n := length (index (df_flatfile s))) in *.
  set (cols := map snd (cf_celldist_valid x13)) in *.
  assert (Hlt : i < n) by (rewrite <- LR; apply nth_error_Some; congruence).
  exists (row_at NaN cols i).
  destruct (nansum (row_at NaN cols i)) as [total|] eqn:Hsum;
    [|unfold nansum in Hsum; discriminate].
  exists total.
  assert (Hs : nth_error (map (fun i0 => nansum (row_at NaN cols i0)) (seq 0 n)) i
               = Some (Some total)).
  { rewrite nth_error_map, (nth_error_nth' _ 0) by (rewrite length_seq; exact Hlt).
    rewrite seq_nth by exact Hlt; simpl; f_equal; exact Hsum. }
  pose proof (np_binop_nth_same _ _ _ _ _ _ _ Hx15
                ltac:(rewrite length_map, length_seq; exact LR) Hi Hs) as Hd.
  simpl in Hd.
  destruct (nanmax_bound (map abs x15) (Rabs (rr - total))) as (m & Hm & Hle).
  { apply in_map_iff; exists (Some (rr - total)%R); split; [reflexivity|].
    eapply nth_error_In; exact Hd. }
  exists m; repeat split; try assumption.
  apply nth_error_rows_of; exact Hlt.
Qed.

Lemma misfit_bounds_every_record_witness :
  exists a row total m,
    assemble tables "res" 0%R = Some a /\
    nth_error (sd_RC (stan_data a)) 1 = Some row /\
    nansum row = Some total /\
    rrup_misfit a = Some m /\ (Rabs (2 - total) <= m)%R.
Proof.
  destruct tables_assembled as (a & Ha & _).
  destruct (misfit_bounds_every_record tables "res" 0%R a [Some 1%R; Some 2%R] 1 2%R Ha
              tables_flatfile_wf eq_refl eq_refl) as (row & total & m & H1 & H2 & H3 & H4).
  exists a, row, total, m; repeat split; assumption.
Defined.

End EdgeCases.

(** ** Lookup of the posterior columns by name *)

Section NameLookup.

Import Num Frame Extractor Layout Names.
Local Open Scope string_scope.

Lemma append_inj (p a b : string) : p ++ a = p ++ b -> a = b.
Proof.
  induction p as [|c p IH]; simpl; intros H; [exact H|].
  inversion H; apply IH; assumption.
Qed.

Lemma fmt_nat_inj (j k : nat) : fmt_nat j = fmt_nat k -> j = k.
Proof.
  unfold fmt_nat; intros H.
  apply (f_equal DecimalString.NilEmpty.uint_of_string) in H.
  rewrite !DecimalString.NilEmpty.usu in H; inversion H as [H'].
  apply (f_equal Nat.of_uint) in H'; rewrite !DecimalNat.Unsigned.of_to in H'; exact H'.
Qed.

Lemma fmt_int_inj (x y : Z) : fmt_int x = fmt_int y -> x = y.
Proof.
  unfold fmt_int; intros H.
  apply (f_equal DecimalString.NilEmpty.int_of_string) in H.
  rewrite !DecimalString.NilEmpty.isi in H; inversion H as [H'].
  apply (f_equal Z.of_int) in H'; rewrite !DecimalZ.of_to in H'; exact H'.
Qed.

Lemma NoDup_app_tag {A : Type} (tag : A -> nat) (t : nat) (l1 l2 : list A) :
  (forall x, In x l1 -> tag x = t) -> (forall x, In x l2 -> tag x <> t) ->
  NoDup l1 -> NoDup l2 -> NoDup (l1 ++ l2).
Proof.
  intros H1 H2 N1 N2; induction N1 as [|x l Hx N1 IH]; simpl; [exact N2|].
  constructor.
  - intros Hin; apply in_app_or in Hin; destruct Hin as [Hin|Hin]; [contradiction|].
    apply (H2 x Hin), H1; left; reflexivity.
  - apply IH; intros y Hy; apply H1; right; exact Hy.
Qed.

Lemma NoDup_names_nat (prefix : string) (n : nat) :
  NoDup (map (fun k => prefix ++ fmt_nat k) (seq 0 n)).
Proof.
  apply Finite.Injective_map_NoDup; [|apply seq_NoDup].
  intros j k H; apply fmt_nat_inj, (append_inj prefix); exact H.
Qed.

Lemma NoDup_names_int (prefix : string) (ids : list Z) :
  NoDup ids -> NoDup (map (fun c_id => prefix ++ fmt_int c_id) ids).
Proof.
  apply Finite.Injective_map_NoDup.
  intros j k H; apply fmt_int_inj, (append_inj prefix); exact H.
Qed.

Lemma NoDup_col_names_hyp : NoDup col_names_hyp.
Proof.
  unfold col_names_hyp.
  repeat (constructor; [simpl; intuition discriminate|]); constructor.
Qed.

Lemma tag_in_map {A : Type} (f : A -> string) (t : nat) (l : list A) :
  (forall a, block_tag (f a) = t) -> forall x, In x (map f l) -> block_tag x = t.
Proof.
  intros H x Hx; apply in_map_iff in Hx; destruct Hx as (a & <- & _); apply H.
Qed.

(** The column names of the data frame do not repeat when the retained
    cell identifiers do not. *)
Lemma NoDup_col_names_all (n_eq n_sta : nat) (ids : list Z) :
  NoDup ids -> NoDup (col_names_all n_eq n_sta ids).
Proof.
  intros Hids; unfold col_names_all.
  assert (T0 : forall x, In x col_names_hyp -> block_tag x = 0).
  { intros x Hx; simpl in Hx.
    repeat (destruct Hx as [<-|Hx]; [reflexivity|]); contradiction. }
  pose proof (tag_in_map (fun k => "dc_1e." ++ fmt_nat k) 1 (seq 0 n_eq)
                (fun _ => eq_refl)) as T1.
  pose proof (tag_in_map (fun k => "dc_1as." ++ fmt_nat k) 2 (seq 0 n_sta)
                (fun _ => eq_refl)) as T2.
  pose proof (tag_in_map (fun k => "dc_1bs." ++ fmt_nat k) 3 (seq 0 n_sta)
                (fun _ => eq_refl)) as T3.
  pose proof (tag_in_map (fun c => "c_cap." ++ fmt_int c) 4 ids (fun _ => eq_refl)) as T4.
  pose proof (tag_in_map (fun k => "dB." ++ fmt_nat k) 5 (seq 0 n_eq)
                (fun _ => eq_refl)) as T5.
  fold (col_names_dc_1e n_eq) in T1; fold (col_names_dc_1as n_sta) in T2.
  fold (col_names_dc_1bs n_sta) in T3; fold (col_names_cap ids) in T4.
  fold (col_names_dB n_eq) in T5.
  apply (NoDup_app_tag block_tag 0); [exact T0 | | exact NoDup_col_names_hyp |].
  { intros x Hx; repeat (apply in_app_or in Hx; destruct Hx as [Hx|Hx]);
      [rewrite (T1 x Hx) | rewrite (T2 x Hx) | rewrite (T3 x Hx)
      | rewrite (T4 x Hx) | rewrite (T5 x Hx)]; discriminate. }
  apply (NoDup_app_tag block_tag 1); [exact T1 | | apply NoDup_names_nat |].
  { intros x Hx; repeat (apply in_app_or in Hx; destruct Hx as [Hx|Hx]);
      [rewrite (T2 x Hx) | rewrite (T3 x Hx) | rewrite (T4 x Hx) | rewrite (T5 x Hx)];
      discriminate. }
  apply (NoDup_app_tag block_tag 2); [exact T2 | | apply NoDup_names_nat |].
  { intros x Hx; repeat (apply in_app_or in Hx; destruct Hx as [Hx|Hx]);
      [rewrite (T3 x Hx) | rewrite (T4 x Hx) | rewrite (T5 x Hx)]; discriminate. }
  apply (NoDup_app_tag block_tag 3); [exact T3 | | apply NoDup_names_nat |].
  { intros x Hx; repeat (apply in_app_or in Hx; destruct Hx as [Hx|Hx]);
      [rewrite (T4 x Hx) | rewrite (T5 x Hx)]; discriminate. }
  apply (NoDup_app_tag block_tag 4);
    [exact T4 | | apply NoDup_names_int; exact Hids | apply NoDup_names_nat].
  intros x Hx; rewrite (T5 x Hx); discriminate.
Qed.

End NameLookup.

Section NameLookupClaims.

Import Num Frame Assembler Extractor Synthesizer Layout Names Examples.
Local Open Scope string_scope.

Lemma filter_none {A : Type} (f : A -> bool) (l : list A) :
  (forall x, In x l -> f x = false) -> filter f l = [].
Proof.
  induction l as [|x t IH]; simpl; intros H; [reflexivity|].
  rewrite (H x (or_introl eq_refl)); apply IH; intros y Hy; apply H; right; exact Hy.
Qed.

Lemma filter_seq_single (f : nat -> bool) (n j0 : nat) :
  j0 < n -> f j0 = true -> (forall j, j < n -> f j = true -> j = j0) ->
  filter f (seq 0 n) = [j0].
Proof.
  intros Hlt Hj0 Huniq.
  replace n with (j0 + S (n - S j0)) by lia.
  rewrite seq_app, filter_app; simpl; rewrite Hj0.
  rewrite !filter_none; [reflexivity | |].
  - intros x Hx; apply in_seq in Hx.
    destruct (f x) eqn:E; [|reflexivity].
    assert (x = j0) by (apply Huniq; [lia | exact E]); lia.
  - intros x Hx; apply in_seq in Hx.
    destruct (f x) eqn:E; [|reflexivity].
    assert (x = j0) by (apply Huniq; [lia | exact E]); lia.
Qed.

Lemma name_positions_NoDup (names : list string) (j : nat) (name : string) :
  NoDup names -> nth_error names j = Some name -> name_positions names name = [j].
Proof.
  intros Hnd Hj; unfold name_positions.
  assert (Hlt : j < length names) by (apply nth_error_Some; congruence).
  apply filter_seq_single; [exact Hlt | |].
  - rewrite (nth_error_nth _ _ "" Hj); apply String.eqb_refl.
  - intros i Hi Heq; apply String.eqb_eq in Heq.
    apply (proj1 (NoDup_nth_error names) Hnd i j Hi).
    rewrite (nth_error_nth' names "" Hi), Heq, Hj; reflexivity.
Qed.

Lemma loc_col_at (names : list string) (P : Mat) (j : nat) (name : string) :
  NoDup names -> nth_error names j = Some name ->
  loc_col (mkPostFrame names P) name = Some (column_at P j).
Proof.
  intros Hnd Hj; unfold loc_col; simpl.
  rewrite (name_positions_NoDup names j name Hnd Hj); reflexivity.
Qed.

(** X15.  The columns of the posterior table are found by name: for
    consistent sizes and retained cell identifiers that do not repeat,
    looking up the name of a hyper-parameter gives its draws, and
    looking up [dc_1e.k], [dc_1as.k], [dc_1bs.k], [c_cap.<id>] and
    [dB.k] gives the draws of column [k] of the array of that parameter
    (for [c_cap], the column of the cell in position [k] of the
    retained cells). *)
Theorem posterior_lookup_by_name (draws : nat) (hyp : list (list R)) (E A B C D : Mat)
    (n_eq n_sta : nat) (ids : list Z) (k : nat)
    (Hh : length hyp = 12)
    (Hl : Forall (fun v => length v = draws) hyp)
    (Hwf : Forall (fun m => wf_mat m /\ nrows m = draws) [E; A; B; C; D])
    (Hdims : ncols E = n_eq /\ ncols A = n_sta /\ ncols B = n_sta /\
             ncols C = length ids /\ ncols D = n_eq)
    (Hids : NoDup ids) :
  let df := mkPostFrame (col_names_all n_eq n_sta ids) (pooled draws hyp E A B C D) in
  (forall name, nth_error col_names_hyp k = Some name ->
                loc_col df name = Some (nth k hyp [])) /\
  (k < n_eq -> loc_col df ("dc_1e." ++ fmt_nat k) = Some (column_at E k)) /\
  (k < n_sta -> loc_col df ("dc_1as." ++ fmt_nat k) = Some (column_at A k)) /\
  (k < n_sta -> loc_col df ("dc_1bs." ++ fmt_nat k) = Some (column_at B k)) /\
  (k < length ids ->
   loc_col df ("c_cap." ++ fmt_int (nth k ids 0%Z)) = Some (column_at C k)) /\
  (k < n_eq -> loc_col df ("dB." ++ fmt_nat k) = Some (column_at D k)).
Proof.
  intros df; subst df.
  destruct Hdims as (DE & DA & DB & DC & DD).
  pose proof (NoDup_col_names_all n_eq n_sta ids Hids) as Hnd.
  pose proof (col_names_blocks n_eq n_sta ids k) as (_ & N0 & N1 & N2 & N3 & N4 & N5).
  pose proof (pooled_columns draws hyp E A B C D k Hh Hl Hwf)
    as (C0 & C1 & C2 & C3 & C4 & C5).
  rewrite DE, DA, DB, DC, DD in *.
  repeat split.
  - intros name Hname.
    assert (Hk : k < 12) by (apply nth_error_Some in Hname || idtac;
                             change 12 with (length col_names_hyp);
                             apply nth_error_Some; congruence).
    rewrite <- (C0 Hk); apply loc_col_at; [exact Hnd|].
    rewrite (N0 Hk); exact Hname.
  - intros Hk; rewrite <- (C1 Hk); apply loc_col_at; [exact Hnd | apply N1; exact Hk].
  - intros Hk; rewrite <- (C2 Hk); apply loc_col_at; [exact Hnd | apply N2; exact Hk].
  - intros Hk; rewrite <- (C3 Hk); apply loc_col_at; [exact Hnd | apply N3; exact Hk].
  - intros Hk; rewrite <- (C4 Hk); apply loc_col_at; [exact Hnd | apply N4; exact Hk].
  - intros Hk; rewrite <- (C5 Hk); apply loc_col_at; [exact Hnd | apply N5; exact Hk].
Qed.

Lemma posterior_lookup_by_name_witness :
  loc_col (mkPostFrame (col_names_all 1 2 [0%Z])
             (pooled 1 (repeat [1%R] 12)
                (mkMat 1 1 [[1%R]]) (mkMat 1 2 [[2%R; 2%R]]) (mkMat 1 2 [[3%R; 3%R]])
                (mkMat 1 1 [[4%R]]) (mkMat 1 1 [[5%R]])))
          ("dB." ++ fmt_nat 0)
  = Some (column_at (mkMat 1 1 [[5%R]]) 0).
Proof.
  destruct example_fit_layout as ((_ & Hl & Hwf & _) & _).
  destruct (posterior_lookup_by_name 1 (repeat [1%R] 12)
              (mkMat 1 1 [[1%R]]) (mkMat 1 2 [[2%R; 2%R]]) (mkMat 1 2 [[3%R; 3%R]])
              (mkMat 1 1 [[4%R]]) (mkMat 1 1 [[5%R]]) 1 2 [0%Z] 0 eq_refl Hl Hwf
              (conj eq_refl (conj eq_refl (conj eq_refl (conj eq_refl eq_refl))))
              ltac:(repeat constructor; simpl; tauto))
    as (_ & _ & _ & _ & _ & H).
  apply H; lia.
Defined.

Lemma group_term_nth (df : PostFrame) (prefix : string) (n : nat) (inv : list nat)
    (t : Term) (i g : nat) :
  group_term df prefix n inv = Some t -> nth_error inv i = Some g ->
  exists d, g < n /\ loc_col df (prefix ++ fmt_nat g) = Some d /\
            nth_error (t_mu t) i = Some (mean d) /\
            nth_error (t_med t) i = Some (median d) /\
            nth_error (t_sig t) i = Some (std d).
Proof.
  unfold group_term, broadcast; intros H Hi; inv_bind H.
  inversion H; subst t; clear H; simpl.
  destruct (take_nth _ _ _ _ _ Hx0 Hi) as (Hg & N1).
  destruct (take_nth _ _ _ _ _ Hx2 Hi) as (_ & N2).
  destruct (take_nth _ _ _ _ _ Hx4 Hi) as (_ & N3).
  rewrite (group_stat_length _ _ _ _ _ Hx) in Hg.
  destruct (group_stat_nth _ _ _ _ _ _ Hx Hg) as (d1 & Hd1 & M1).
  destruct (group_stat_nth _ _ _ _ _ _ Hx1 Hg) as (d2 & Hd2 & M2).
  destruct (group_stat_nth _ _ _ _ _ _ Hx3 Hg) as (d3 & Hd3 & M3).
  exists d1; repeat split; try assumption; congruence.
Qed.

Lemma decompose_between (df : PostFrame) (n_eq : nat) (eq_inv : list nat)
    (y_data c0 c1e c1as c1bs LcA : list num) (res : Residuals) (i g : nat) :
  decompose df n_eq eq_inv y_data c0 c1e c1as c1bs LcA = Some res ->
  nth_error eq_inv i = Some g ->
  exists d, g < n_eq /\ loc_col df ("dB." ++ fmt_nat g) = Some d /\
            nth_error (res_between res) i = Some (mean d).
Proof.
  unfold decompose; intros H Hi; inv_bind H.
  inversion H; subst res; clear H; simpl.
  destruct (take_nth _ _ _ _ _ Hx5 Hi) as (Hg & N).
  rewrite (group_stat_length _ _ _ _ _ Hx4) in Hg.
  destruct (group_stat_nth _ _ _ _ _ _ Hx4 Hg) as (d & Hd & M).
  exists d; repeat split; try assumption; congruence.
Qed.

Lemma postprocess_posterior (s : store) (a : Assembled) (pystan_ver : Z) (stan_fit : Fit)
    (out : Output) :
  postprocess s a pystan_ver stan_fit = Some out ->
  exists P, stan_posterior pystan_ver stan_fit = Some P /\
            out_posterior out
            = mkPostFrame (col_names_all (n_eq a) (n_sta a) (cell_ids_valid a)) P.
Proof.
  unfold postprocess; intros H; inv_bind H.
  inversion H; subst out; clear H; cbn.
  unfold make_frame in Hx0; inv_bind Hx0; inversion Hx0; subst x0.
  exists x; auto.
Qed.

(** X16.  With a fit whose arrays have the sizes of the payload, the
    per-record tables read the columns they are meant to: for a record
    with earthquake index [g] and station index [h], the inter-event
    residual is the mean over the draws of column [g] of [dB], and the
    mean, median and standard deviation of the earthquake and station
    terms of the coefficient table are those of the draws of column [g]
    of [dc_1e] and of column [h] of [dc_1as] and [dc_1bs], for either
    engine version. *)
Theorem per_record_terms_from_fit (s : store) (a : Assembled) (pystan_ver : Z)
    (stan_fit : Fit) (out : Output) (draws : nat) (hyp : list (list R))
    (E A B C D : Mat) (i g h : nat)
    (Hrun : postprocess s a pystan_ver stan_fit = Some out)
    (Hfit : fit_layout pystan_ver stan_fit draws hyp E A B C D)
    (Hdims : ncols E = n_eq a /\ ncols A = n_sta a /\ ncols B = n_sta a /\
             ncols C = length (cell_ids_valid a) /\ ncols D = n_eq a)
    (Hids : NoDup (cell_ids_valid a))
    (Hg : nth_error (eq_inv a) i = Some g)
    (Hh : nth_error (sta_inv a) i = Some h) :
  nth_error (res_between (out_residuals out)) i = Some (mean (column_at D g)) /\
  nth_error (nth 1 (out_coeffs out) []) i = Some (mean (column_at E g)) /\
  nth_error (nth 2 (out_coeffs out) []) i = Some (mean (column_at A h)) /\
  nth_error (nth 3 (out_coeffs out) []) i = Some (mean (column_at B h)) /\
  nth_error (nth 6 (out_coeffs out) []) i = Some (median (column_at E g)) /\
  nth_error (nth 7 (out_coeffs out) []) i = Some (median (column_at A h)) /\
  nth_error (nth 8 (out_coeffs out) []) i = Some (median (column_at B h)) /\
  nth_error (nth 11 (out_coeffs out) []) i = Some (std (column_at E g)) /\
  nth_error (nth 12 (out_coeffs out) []) i = Some (std (column_at A h)) /\
  nth_error (nth 13 (out_coeffs out) []) i = Some (std (column_at B h)).
Proof.
  destruct (postprocess_posterior _ _ _ _ _ Hrun) as (P & HP & Hdf).
  rewrite (pooled_posterior _ _ _ _ _ _ _ _ _ Hfit) in HP; inversion HP; subst P; clear HP.
  destruct (postprocess_inv _ _ _ _ _ Hrun)
    as (c0 & c1e & c1as & c1bs & _ & _ & H1e & H1as & H1bs & Hco & _ & Hdec & _).
  cbv zeta in *; rewrite Hco; cbn [nth]; rewrite Hdf in *.
  pose proof Hfit as (Hhyp & Hl & Hwf & _).
  pose proof (mapM_length _ _ _ Hhyp) as Hlen; simpl in Hlen.
  destruct (decompose_between _ _ _ _ _ _ _ _ _ _ _ _ Hdec Hg) as (d & Hgl & Hd & Nb).
  destruct (group_term_nth _ _ _ _ _ _ _ H1e Hg) as (d1 & _ & Hd1 & N1 & M1 & S1).
  destruct (group_term_nth _ _ _ _ _ _ _ H1as Hh) as (d2 & Hhl & Hd2 & N2 & M2 & S2).
  destruct (group_term_nth _ _ _ _ _ _ _ H1bs Hh) as (d3 & _ & Hd3 & N3 & M3 & S3).
  pose proof (NoDup_col_names_all (n_eq a) (n_sta a) (cell_ids_valid a) Hids) as Hnd.
  destruct Hdims as (DE & DA & DB & DC & DD).
  pose proof (col_names_blocks (n_eq a) (n_sta a) (cell_ids_valid a) g)
    as (_ & _ & NEg & _ & _ & _ & NDg).
  pose proof (col_names_blocks (n_eq a) (n_sta a) (cell_ids_valid a) h)
    as (_ & _ & _ & NAh & NBh & _ & _).
  pose proof (pooled_columns draws hyp E A B C D g Hlen Hl Hwf)
    as (_ & CEg & _ & _ & _ & CDg).
  pose proof (pooled_columns draws hyp E A B C D h Hlen Hl Hwf)
    as (_ & _ & CAh & CBh & _ & _).
  rewrite DE, DA, DB, DC, DD in *.
  rewrite (loc_col_at _ _ _ _ Hnd (NDg Hgl)), (CDg Hgl) in Hd.
  rewrite (loc_col_at _ _ _ _ Hnd (NEg Hgl)), (CEg Hgl) in Hd1.
  rewrite (loc_col_at _ _ _ _ Hnd (NAh Hhl)), (CAh Hhl) in Hd2.
  rewrite (loc_col_at _ _ _ _ Hnd (NBh Hhl)), (CBh Hhl) in Hd3.
  inversion Hd; inversion Hd1; inversion Hd2; inversion Hd3; subst.
  repeat split; assumption.
Qed.

End NameLookupClaims.

Section PerRecordWitness.

Import Num Frame Assembler Extractor Synthesizer Layout Examples.
Local Open Scope string_scope.

Lemma tables_run_sizes :
  exists a out,
    postprocess tables a 2 fit = Some out /\
    n_eq a = 1 /\ n_sta a = 2 /\ cell_ids_valid a = [0%Z] /\
    eq_inv a = [0; 0] /\ sta_inv a = [0; 1].
Proof.
  assert (Ha : exists a, assemble tables "res" 0%R = Some a /\
                         n_eq a = 1 /\ n_sta a = 2 /\ cell_ids_valid a = [0%Z] /\
                         eq_inv a = [0; 0] /\ sta_inv a = [0; 1] /\
                         exists out, postprocess tables a 2 fit = Some out).
  { eexists; split; [unfold assemble; cbn; decide_R; cbn; reflexivity|].
    repeat (split; [reflexivity|]).
    eexists; unfold postprocess; cbn; reflexivity. }
  destruct Ha as (a & _ & H1 & H2 & H3 & H4 & H5 & out & Hout).
  exists a, out; repeat split; assumption.
Qed.

Lemma per_record_terms_from_fit_witness :
  exists a out,
    postprocess tables a 2 fit = Some out /\
    nth_error (res_between (out_residuals out)) 1
    = Some (mean (column_at (mkMat 1 1 [[5%R]]) 0)) /\
    nth_error (nth 2 (out_coeffs out) []) 1
    = Some (mean (column_at (mkMat 1 2 [[2%R; 2%R]]) 1)).
Proof.
  destruct tables_run_sizes as (a & out & Hout & Hne & Hns & Hids & Hei & Hsi).
  destruct example_fit_layout as (L2 & _).
  exists a, out; split; [exact Hout|].
  destruct (per_record_terms_from_fit tables a 2 fit out 1 (repeat [1%R] 12)
              (mkMat 1 1 [[1%R]]) (mkMat 1 2 [[2%R; 2%R]]) (mkMat 1 2 [[3%R; 3%R]])
              (mkMat 1 1 [[4%R]]) (mkMat 1 1 [[5%R]]) 1 0 1 Hout L2
              ltac:(rewrite Hne, Hns, Hids; repeat split; reflexivity)
              ltac:(rewrite Hids; repeat constructor; simpl; tauto)
              ltac:(rewrite Hei; reflexivity)
              ltac:(rewrite Hsi; reflexivity)) as (Hb & _ & HA & _).
  split; assumption.
Defined.

End PerRecordWitness.
